(** * HyperFormula: the caching parser and the engine's editing operations

    A shallow embedding of [src/parser/ParserWithCaching.ts] and of the
    mutating methods of [src/HandsOnEngine.ts].

    Part I, the model:
    - [JS]: the string primitives the sources use ([slice], indexing,
      [concat], [startsWith], [substr]) and the exceptions of the language.
    - [Regex]: a backtracking matcher for the fragment of regular
      expressions in which [stringRegex] and [cellRegex] are written.
    - [ParserWithCaching]: the two hashing functions and the cache.
    - [HandsOnEngine]: the engine's methods as programs over the calls they
      make to their collaborators (dependency graph, evaluator, ...).
    - [Templates]: reading a hash back with its addresses, and the cache
      over several calls of [parse].
    - [EngineTraces]: kinds of calls in a run of the engine.
    - [EngineQueries]: the reading methods of the engine ([getCellValue],
      [getValues], [getSheetsDimensions], [getSheetDimensions]).

    Part II, the properties: strings and patterns, the scan of the
    lexer-free mode, the cache, the engine's operations, and the reading
    methods. *)

From Stdlib Require Import String Ascii List Arith ZArith Bool Lia.
From stdpp Require Import base option strings gmap.


(* ===================================================================== *)
(** ** Part I. JavaScript strings and exceptions *)
(* ===================================================================== *)

Module JS.

(** A JavaScript string is held as the bytes of its UTF-8 encoding. The
    sources compare, match and cut at ASCII characters only ([=], ['],
    [\], [:], [{], [}], letters and digits), and a byte of a longer
    character is none of these, so they go through a text byte by byte as
    they go through it code unit by code unit. *)

(** A call either returns a value or throws [Error(message)]. *)
Inductive Answer (A : Type) : Type :=
| Returns (a : A)
| Throws (message : string).
Arguments Returns {A} a.
Arguments Throws {A} message.

(** [s[x]]: the character at index [x], [None] for [undefined]. *)
Definition charAt (s : string) (x : nat) : option ascii := String.get x s.

(** [s.slice(x)] for [0 <= x]: the suffix from index [x] on; empty when [x]
    is past the end. *)
Fixpoint slice (x : nat) (s : string) : string :=
  match x, s with
  | 0, _ => s
  | S x', String _ s' => slice x' s'
  | S _, EmptyString => EmptyString
  end.

(** [s.concat(t)] *)
Definition concat (s t : string) : string := s +:+ t.

(** [s.startsWith(p)] *)
Fixpoint startsWith (p s : string) : bool :=
  match p, s with
  | EmptyString, _ => true
  | String a p', String b s' => Ascii.eqb a b && startsWith p' s'
  | String _ _, EmptyString => false
  end.

(** [s.endsWith(p)] *)
Definition endsWith (p s : string) : bool :=
  startsWith (String.rev p) (String.rev s).

(** [s.substr(start, len)] for [0 <= start] and [0 <= len]. *)
Definition substr (start len : nat) (s : string) : string :=
  String.substring start len s.

(** The first [n] characters of [s]. *)
Fixpoint take (n : nat) (s : string) : string :=
  match n, s with
  | S n', String c s' => String c (take n' s')
  | _, _ => EmptyString
  end.

End JS.

Export JS.

(* ===================================================================== *)
(** ** Regular expressions *)
(* ===================================================================== *)

Module Regex.

(** The fragment the two patterns of the parser are written in. Every
    pattern is anchored at the start of the subject ([^]). Quantifiers are
    greedy and are applied to character classes only. *)
Inductive regex : Type :=
| Class (p : ascii → bool)      (* one character of a class or a literal *)
| Star (p : ascii → bool)       (* [..]*  *)
| Plus (p : ascii → bool)       (* [..]+  *)
| Seq (r1 r2 : regex)           (* r1 r2  *)
| Opt (r : regex).              (* (r)?   *)

(** Greedy repetition with backtracking: take one more character when the
    class allows it and the rest of the pattern then matches; otherwise
    hand the subject to the rest of the pattern [k] here. *)
Fixpoint star (p : ascii → bool) (s : string) (k : string → option string)
  : option string :=
  match s with
  | String c s' =>
      if p c then
        match star p s' k with
        | Some rest => Some rest
        | None => k s
        end
      else k s
  | EmptyString => k s
  end.

(** [matchK r s k]: match [r] at the start of [s], then the rest of the
    pattern [k] on what is left; the result is the part of the subject
    after the whole match. Alternatives are tried in the order a
    backtracking matcher tries them. *)
Fixpoint matchK (r : regex) (s : string) (k : string → option string)
  : option string :=
  match r with
  | Class p =>
      match s with
      | String c s' => if p c then k s' else None
      | EmptyString => None
      end
  | Star p => star p s k
  | Plus p =>
      match s with
      | String c s' => if p c then star p s' k else None
      | EmptyString => None
      end
  | Seq r1 r2 => matchK r1 s (fun s' => matchK r2 s' k)
  | Opt r1 =>
      match matchK r1 s k with
      | Some rest => Some rest
      | None => k s
      end
  end.

(** [s.match(r)]: [Some results[0]], the matched text, or [None] for
    [null]. *)
Definition exec (r : regex) (s : string) : option string :=
  match matchK r s Some with
  | Some rest => Some (take (String.length s - String.length rest) s)
  | None => None
  end.

Definition inRange (lo hi : nat) (c : ascii) : bool :=
  let n := nat_of_ascii c in Nat.leb lo n && Nat.leb n hi.

(** [[A-Za-z]] *)
Definition letter (c : ascii) : bool := inRange 65 90 c || inRange 97 122 c.
(** [[0-9]] *)
Definition digit (c : ascii) : bool := inRange 48 57 c.
(** a literal character *)
Definition lit (a c : ascii) : bool := Ascii.eqb c a.
(** [[^a]] *)
Definition notLit (a c : ascii) : bool := negb (Ascii.eqb c a).

(** *** Runs of a class *)

(** The longest prefix of [s] inside the class [p], and what follows it. *)
Fixpoint span (p : ascii → bool) (s : string) : string * string :=
  match s with
  | String c s' =>
      if p c then let (run, rest) := span p s' in (String c run, rest)
      else (EmptyString, s)
  | EmptyString => (EmptyString, EmptyString)
  end.

Fixpoint allOf (p : ascii → bool) (s : string) : bool :=
  match s with
  | String c s' => p c && allOf p s'
  | EmptyString => true
  end.

Definition startsIn (p : ascii → bool) (s : string) : bool :=
  match s with
  | String c _ => p c
  | EmptyString => false
  end.

End Regex.

Export Regex.

(* ===================================================================== *)
(** ** src/parser/ParserWithCaching.ts *)
(* ===================================================================== *)

Module ParserWithCaching.

(** chevrotain's [IToken], as far as the parser reads it: the matched text
    [token.image] and the name of its type [token.tokenType!.tokenName]. *)
Record IToken : Type := { image : string; tokenName : string }.

(** chevrotain's [ILexingResult]. *)
Record ILexingResult : Type := { tokens : list IToken; errors : list string }.

(** The value both hashing functions return: [{ addresses, hash }]. *)
Record HashAndAddresses : Type := { addresses : list string; hash : string }.

Definition isNamed (name : string) (token : IToken) : bool :=
  String.eqb (tokenName token) name.

(** [computeHashAndExtractAddresses], lines 52-73. The loop
    [while (idx < tokens.length)] runs over what is left of [tokens] from
    [idx] on: [tokens[idx]] is the head, [tokens[idx+1] && tokens[idx+2]]
    holds when two more tokens follow, [idx += 3] drops three tokens and
    [idx++] one. *)
Fixpoint tokensLoop (tokens : list IToken) (addresses : list string)
    (hash : string) : HashAndAddresses :=
  match tokens with
  | [] => {| addresses := addresses; hash := hash |}
  | token :: rest =>
      if isNamed "RelativeCell" token then
        match rest with
        | t1 :: t2 :: rest' =>
            if isNamed "RangeSeparator" t1 && isNamed "RelativeCell" t2 then
              tokensLoop rest'
                (addresses ++ [image token +:+ ":" +:+ image t2])
                (concat hash "#")
            else
              tokensLoop rest (addresses ++ [image token]) (concat hash "#")
        | _ => tokensLoop rest (addresses ++ [image token]) (concat hash "#")
        end
      else tokensLoop rest addresses (concat hash (image token))
  end.

Definition computeHashAndExtractAddresses (tokens : list IToken)
  : HashAndAddresses :=
  tokensLoop tokens [] "".

(** [/^[^']*'/] *)
Definition stringRegex : regex :=
  Seq (Star (notLit "'")) (Class (lit "'")).

(** [/^[A-Za-z]+[0-9]+(:[A-Za-z]+[0-9]+)?/] *)
Definition cellRegex : regex :=
  Seq (Plus letter)
 (Seq (Plus digit)
      (Opt (Seq (Class (lit ":")) (Seq (Plus letter) (Plus digit))))).

(** [code[x]] as the argument of [concat]: a one-character string
    ([undefined] would be spelled out, but [x] is always in range there). *)
Definition charString (code : string) (x : nat) : string :=
  match charAt code x with
  | Some c => String c EmptyString
  | None => "undefined"
  end.

(** The [do ... while (code[x - 2] === "\\")] loop, lines 87-96, entered
    with [x] just after a quote. It returns the new [x] and [hash], or
    throws. [x - 2] is never negative here: [x] is at least 1 on entry and
    a match has at least one character. [None] stands for a loop cut short
    by [fuel]. *)
Fixpoint doWhile (fuel : nat) (code : string) (x : nat) (hash : string)
  : option (Answer (nat * string)) :=
  match fuel with
  | 0 => None
  | S fuel' =>
      let subcode := slice x code in
      match exec stringRegex subcode with
      | Some result =>
          let hash := concat hash result in
          let x := x + String.length result in
          if decide (charAt code (x - 2) = Some "\"%char)
          then doWhile fuel' code x hash
          else Some (Returns (x, hash))
      | None => Some (Throws "Unexpected parse error")
      end
  end.

(** The [while (x < code.length)] loop, lines 82-109. *)
Fixpoint whileLoop (fuel : nat) (code : string) (x : nat) (hash : string)
    (addresses : list string) : option (Answer HashAndAddresses) :=
  match fuel with
  | 0 => None
  | S fuel' =>
      if x <? String.length code then
        if decide (charAt code x = Some "'"%char) then
          match doWhile fuel' code (x + 1) (concat hash (charString code x)) with
          | Some (Returns (x', hash')) => whileLoop fuel' code x' hash' addresses
          | Some (Throws e) => Some (Throws e)
          | None => None
          end
        else
          let subcode := slice x code in
          match exec cellRegex subcode with
          | Some result =>
              whileLoop fuel' code (x + String.length result)
                (concat hash "#") (addresses ++ [result])
          | None =>
              whileLoop fuel' code (x + 1)
                (concat hash (charString code x)) addresses
          end
      else Some (Returns {| addresses := addresses; hash := hash |})
  end.

(** The scan resumed at [x]: every turn of either loop moves [x] forward,
    so [S (length code - x)] turns are enough ([scanFrom_fuel]). *)
Definition scanFrom (code : string) (x : nat) (hash : string)
    (addresses : list string) : option (Answer HashAndAddresses) :=
  whileLoop (S (String.length code - x)) code x hash addresses.

(** [computeHashAndExtractAddressesFromLexer], lines 77-115. *)
Definition computeHashAndExtractAddressesFromLexer (code : string)
  : Answer HashAndAddresses :=
  match scanFrom code 0 "" [] with
  | Some answer => answer
  | None => Throws "unreachable"
  end.

(** [isFormula], lines 48-50. *)
Definition isFormula (text : string) : bool := startsWith "=" text.

(** *** What the two patterns match *)

(** [stringRegex] spelled out: everything up to and including the first
    quote. *)
Definition matchString (s : string) : option string :=
  let (body, rest) := span (notLit "'") s in
  match rest with
  | String _ _ => Some (body +:+ "'")
  | EmptyString => None
  end.

(** [[A-Za-z]+[0-9]+] spelled out: the match and what follows it. *)
Definition matchOperand (s : string) : option (string * string) :=
  let (letters, s1) := span letter s in
  let (digits, s2) := span digit s1 in
  match letters, digits with
  | String _ _, String _ _ => Some (letters +:+ digits, s2)
  | _, _ => None
  end.

(** [cellRegex] spelled out. *)
Definition matchCell (s : string) : option string :=
  match matchOperand s with
  | Some (first, rest) =>
      match rest with
      | String c rest' =>
          if lit ":" c then
            match matchOperand rest' with
            | Some (second, _) => Some (first +:+ ":" +:+ second)
            | None => Some first
            end
          else Some first
      | EmptyString => Some first
      end
  | None => None
  end.

(** The inner loop resumed at [x], with fuel to spare. *)
Definition stringFrom (code : string) (x : nat) (hash : string)
  : option (Answer (nat * string)) :=
  doWhile (S (String.length code - x)) code x hash.

(** *** Quoted strings *)

(** [closes prev lit]: [lit] runs up to and including the first quote that
    does not directly follow a backslash, where [prev] is the character
    before [lit]. *)
Fixpoint closes (prev : ascii) (lit : string) : bool :=
  match lit with
  | EmptyString => false
  | String c lit' =>
      if Ascii.eqb c "'" then
        if Ascii.eqb prev "\" then closes c lit'
        else match lit' with EmptyString => true | String _ _ => false end
      else closes c lit'
  end.

(** The last character of [s], or [prev] when [s] is empty. *)
Fixpoint lastChar (prev : ascii) (s : string) : ascii :=
  match s with
  | EmptyString => prev
  | String c s' => lastChar c s'
  end.

(** *** Token streams that spell a text out *)

(** The text a token stream covers when the lexer skipped nothing: the
    images one after the other. *)
Fixpoint textOf (tokens : list IToken) : string :=
  match tokens with
  | [] => EmptyString
  | token :: rest => image token +:+ textOf rest
  end.

(** The whole of [img] is letters followed by digits. *)
Definition isOperand (img : string) : bool :=
  match matchOperand img with
  | Some (_, EmptyString) => true
  | _ => false
  end.

(** What follows a single cell does not lengthen the match of [cellRegex]:
    it starts neither with a digit nor with a colon and a second cell. *)
Definition endsCell (after : string) : bool :=
  match after with
  | String c after' =>
      if lit ":" c then
        match matchOperand after' with Some _ => false | None => true end
      else negb (digit c)
  | EmptyString => true
  end.

(** [img], followed by [after], holds no quote, and [cellRegex] matches
    nowhere inside it. *)
Fixpoint verbatim (img after : string) : bool :=
  match img with
  | EmptyString => true
  | String c img' =>
      notLit "'" c
      && match matchCell (img +:+ after) with Some _ => false | None => true end
      && verbatim img' after
  end.

(** A token that is no relative cell is a closed quoted string, or text
    the cell pattern does not touch. *)
Definition plain (img after : string) : bool :=
  match img with
  | String c lit => if Ascii.eqb c "'" then closes c lit else verbatim img after
  | EmptyString => true
  end.

(** [lexable tokens]: the stream cuts its text where the patterns of the
    lexer-free mode do. A relative cell is letters then digits and is not
    followed by more of a cell; a range separator between two relative
    cells is a colon; every other token is [plain]. *)
Fixpoint lexable (tokens : list IToken) : bool :=
  match tokens with
  | [] => true
  | token :: rest =>
      if isNamed "RelativeCell" token then
        match rest with
        | t1 :: t2 :: rest' =>
            if isNamed "RangeSeparator" t1 && isNamed "RelativeCell" t2 then
              isOperand (image token) && String.eqb (image t1) ":"
              && isOperand (image t2)
              && negb (startsIn digit (textOf rest')) && lexable rest'
            else
              isOperand (image token) && endsCell (textOf rest) && lexable rest
        | _ => isOperand (image token) && endsCell (textOf rest) && lexable rest
        end
      else plain (image token) (textOf rest) && lexable rest
  end.

(** *** The class [ParserWithCaching], lines 5-46 *)

(** [./FormulaParser] and [./Ast] are outside this development. The parser
    is taken as it is imported: three functions, each of which returns (the
    lexer reports what it cannot read in [errors], the parser in the AST it
    builds). [TemplateAst] is whatever an AST node holds. *)
Record FormulaParser (TemplateAst : Type) : Type := {
  tokenizeFormula : string → ILexingResult;
  parseFromTokens : ILexingResult → TemplateAst;
  parseFormula : string → TemplateAst;
}.
Arguments tokenizeFormula {TemplateAst} _ _.
Arguments parseFromTokens {TemplateAst} _ _.
Arguments parseFormula {TemplateAst} _ _.

(** AST nodes are objects: the heap lists them in the order they were
    built, and a reference to one is its index. The cache and the results
    of [parse] hold references, so that two of them can be the same
    object. *)
Definition Ref : Type := nat.

Definition newObject {TemplateAst : Type} (node : TemplateAst)
    (heap : list TemplateAst) : Ref * list TemplateAst :=
  (length heap, heap ++ [node]).

(** The interface [Ast]: [{ ast: TemplateAst, addresses: Array<string> }]. *)
Record Ast : Type := { ast : Ref; astAddresses : list string }.

(** The fields of the class. *)
Record Parser : Type := {
  cache : gmap string Ref;
  statsCacheUsed : nat;
  optimizationMode : string;
}.

(** [constructor(optimizationMode = 'parser')] *)
Definition constructor (optimizationMode : string) : Parser :=
  {| cache := ∅; statsCacheUsed := 0; optimizationMode := optimizationMode |}.

(** [this.statsCacheUsed++] *)
Definition cacheUsed (this : Parser) : Parser :=
  {| cache := cache this;
     statsCacheUsed := statsCacheUsed this + 1;
     optimizationMode := optimizationMode this |}.

(** [this.cache.set(hash, ast)] *)
Definition cacheSet (hash : string) (ast : Ref) (this : Parser) : Parser :=
  {| cache := <[hash := ast]> (cache this);
     statsCacheUsed := statsCacheUsed this;
     optimizationMode := optimizationMode this |}.

(** [parse(text)], lines 14-45. [if (cachedAst)] holds exactly when the
    cache has an entry: an AST is an object, and objects are truthy. When
    [parse] throws, nothing has been changed yet. *)
Definition parse {TemplateAst : Type} (fp : FormulaParser TemplateAst)
    (text : string) (this : Parser) (heap : list TemplateAst)
  : Answer (Ast * Parser * list TemplateAst) :=
  if String.eqb (optimizationMode this) "lexer" then
    match computeHashAndExtractAddressesFromLexer text with
    | Throws e => Throws e
    | Returns {| addresses := addresses; hash := hash |} =>
        match cache this !! hash with
        | Some cachedAst =>
            Returns ({| ast := cachedAst; astAddresses := addresses |},
                     cacheUsed this, heap)
        | None =>
            let (ast, heap) := newObject (parseFormula fp text) heap in
            Returns ({| ast := ast; astAddresses := addresses |},
                     cacheSet hash ast this, heap)
        end
    end
  else
    let lexerResult := tokenizeFormula fp text in
    let (addresses, hash) :=
      computeHashAndExtractAddresses (tokens lexerResult) in
    match cache this !! hash with
    | Some cachedAst =>
        Returns ({| ast := cachedAst; astAddresses := addresses |},
                 cacheUsed this, heap)
    | None =>
        let (ast, heap) := newObject (parseFromTokens fp lexerResult) heap in
        Returns ({| ast := ast; astAddresses := addresses |},
                 cacheSet hash ast this, heap)
    end.

(** The hash and addresses [parse] computes for [text], in the mode of
    [this]. *)
Definition hashOf {TemplateAst : Type} (fp : FormulaParser TemplateAst)
    (this : Parser) (text : string) : Answer HashAndAddresses :=
  if String.eqb (optimizationMode this) "lexer"
  then computeHashAndExtractAddressesFromLexer text
  else Returns (computeHashAndExtractAddresses (tokens (tokenizeFormula fp text))).

(** Two tokens are the same, or both are relative cells. *)
Definition sameUpToCell (t1 t2 : IToken) : Prop :=
  t1 = t2 ∨ (isNamed "RelativeCell" t1 = true ∧ isNamed "RelativeCell" t2 = true).

(** [tokens] is how the parser reads [text] in the mode of [this]: the
    output of the lexer or, in the lexer-free mode, a stream that spells
    the text out as the patterns cut it. *)
Definition readsAs {TemplateAst : Type} (fp : FormulaParser TemplateAst)
    (this : Parser) (text : string) (tokens0 : list IToken) : Prop :=
  if String.eqb (optimizationMode this) "lexer"
  then text = textOf tokens0 ∧ lexable tokens0 = true
  else tokens (tokenizeFormula fp text) = tokens0.

(** The node [parse] builds for [text] when the cache has none. *)
Definition built {TemplateAst : Type} (fp : FormulaParser TemplateAst)
    (this : Parser) (text : string) : TemplateAst :=
  if String.eqb (optimizationMode this) "lexer"
  then parseFormula fp text
  else parseFromTokens fp (tokenizeFormula fp text).

(** *** Examples to run the parser on *)

Definition token (name img : string) : IToken :=
  {| image := img; tokenName := name |}.

(** [=A1+SUM(B2:C3)] *)
Definition exampleTokens1 : list IToken :=
  [token "EqualsOp" "="; token "RelativeCell" "A1"; token "PlusOp" "+";
   token "ProcedureName" "SUM"; token "LParen" "(";
   token "RelativeCell" "B2"; token "RangeSeparator" ":";
   token "RelativeCell" "C3"; token "RParen" ")"].

(** [=D4+SUM(E5:F6)] *)
Definition exampleTokens2 : list IToken :=
  [token "EqualsOp" "="; token "RelativeCell" "D4"; token "PlusOp" "+";
   token "ProcedureName" "SUM"; token "LParen" "(";
   token "RelativeCell" "E5"; token "RangeSeparator" ":";
   token "RelativeCell" "F6"; token "RParen" ")"].

(** [=A1] and [=A1:B2] *)
Definition cellTokens : list IToken :=
  [token "EqualsOp" "="; token "RelativeCell" "A1"].
Definition rangeTokens : list IToken :=
  [token "EqualsOp" "="; token "RelativeCell" "A1";
   token "RangeSeparator" ":"; token "RelativeCell" "B2"].

(** [='it\'s A1'&B2]: a quoted string with an escaped quote. *)
Definition quotedTokens : list IToken :=
  [token "EqualsOp" "="; token "StringLiteral" "'it\'s A1'";
   token "ConcatenateOp" "&"; token "RelativeCell" "B2"].

(** A lexer that knows the streams above and reports an error on any other
    text, and a parser whose AST is the text the tokens spell: enough to
    run [parse], which looks at neither. *)
Definition exampleLexer (text : string) : ILexingResult :=
  if String.eqb text (textOf exampleTokens1)
  then {| tokens := exampleTokens1; errors := [] |}
  else if String.eqb text (textOf exampleTokens2)
  then {| tokens := exampleTokens2; errors := [] |}
  else if String.eqb text (textOf cellTokens)
  then {| tokens := cellTokens; errors := [] |}
  else if String.eqb text (textOf rangeTokens)
  then {| tokens := rangeTokens; errors := [] |}
  else {| tokens := []; errors := ["unexpected character"] |}.

Definition exampleParser : FormulaParser string :=
  {| tokenizeFormula := exampleLexer;
     parseFromTokens := fun lexerResult => textOf (tokens lexerResult);
     parseFormula := fun text => text |}.

End ParserWithCaching.

(* ===================================================================== *)
(** ** src/HandsOnEngine.ts *)
(* ===================================================================== *)

Module HandsOnEngine.

(** *** Values the engine handles *)

(** [SimpleCellAddress] *)
Record SimpleCellAddress : Type := { sheet : nat; col : nat; row : nat }.

(** A JavaScript number as the engine gets it from [Number(text)]: [NaN], or
    the number a numeric literal denotes. The engine never computes with
    it; it asks whether it is [NaN] and hands it on. *)
Inductive JsNumber : Type :=
| NaN
| NumberOf (literal : string).

Definition isNaN (n : JsNumber) : bool :=
  match n with
  | NaN => true
  | NumberOf _ => false
  end.

(** *** [StrWhiteSpaceChar]

    JavaScript's white space and line terminators, as a UTF-8 text holds
    them. One byte: TAB, LF, VT, FF, CR and SP. *)
Definition byte (n : nat) (c : ascii) : bool := Nat.eqb (nat_of_ascii c) n.

Definition isWhiteSpace1 (a : ascii) : bool := inRange 9 13 a || byte 32 a.

(** Two bytes: U+00A0 (C2 A0). *)
Definition isWhiteSpace2 (a b : ascii) : bool := byte 194 a && byte 160 b.

(** Three bytes: U+1680 (E1 9A 80); U+2000 to U+200A (E2 80 80 to E2 80
    8A), U+2028, U+2029 and U+202F (E2 80 A8, A9, AF); U+205F (E2 81 9F);
    U+3000 (E3 80 80); U+FEFF (EF BB BF). *)
Definition isWhiteSpace3 (a b c : ascii) : bool :=
  (byte 225 a && byte 154 b && byte 128 c)
  || (byte 226 a && byte 128 b
      && (inRange 128 138 c || byte 168 c || byte 169 c || byte 175 c))
  || (byte 226 a && byte 129 b && byte 159 c)
  || (byte 227 a && byte 128 b && byte 128 c)
  || (byte 239 a && byte 187 b && byte 191 c).

(** [StrWhiteSpace], the whole of [s]. *)
Fixpoint isStrWhiteSpace (s : string) : bool :=
  match s with
  | EmptyString => true
  | String a s1 =>
      if isWhiteSpace1 a then isStrWhiteSpace s1
      else
        match s1 with
        | String b s2 =>
            if isWhiteSpace2 a b then isStrWhiteSpace s2
            else
              match s2 with
              | String c s3 =>
                  if isWhiteSpace3 a b c then isStrWhiteSpace s3 else false
              | EmptyString => false
              end
        | EmptyString => false
        end
  end.

(** [s] without the white space it starts with. *)
Fixpoint trimStart (s : string) : string :=
  match s with
  | EmptyString => EmptyString
  | String a s1 =>
      if isWhiteSpace1 a then trimStart s1
      else
        match s1 with
        | String b s2 =>
            if isWhiteSpace2 a b then trimStart s2
            else
              match s2 with
              | String c s3 => if isWhiteSpace3 a b c then trimStart s3 else s
              | EmptyString => s
              end
        | EmptyString => s
        end
  end.

(** [s] without the white space it ends with: [s] up to the point from
    which on there is nothing but white space. *)
Fixpoint trimEnd (s : string) : string :=
  match s with
  | EmptyString => EmptyString
  | String a s1 => if isStrWhiteSpace s then EmptyString else String a (trimEnd s1)
  end.

(** [s.trim()] *)
Definition trim (s : string) : string := trimEnd (trimStart s).

Definition nonEmpty (s : string) : bool :=
  match s with
  | String _ _ => true
  | EmptyString => false
  end.

Definition isSign (c : ascii) : bool := lit "+" c || lit "-" c.

(** [DecimalDigits], the whole of [s]. *)
Definition isDecimalDigits (s : string) : bool := nonEmpty s && allOf digit s.

(** [ExponentPart], optional, the whole of [s]: [e] or [E], an optional
    sign and digits. *)
Definition isExponentPartOpt (s : string) : bool :=
  match s with
  | EmptyString => true
  | String c s' =>
      (lit "e" c || lit "E" c)
      && match s' with
         | String d s'' => if isSign d then isDecimalDigits s'' else isDecimalDigits s'
         | EmptyString => false
         end
  end.

(** [StrUnsignedDecimalLiteral]: [Infinity], digits with an optional
    fraction, or a fraction alone, then an optional exponent. *)
Definition isStrUnsignedDecimalLiteral (s : string) : bool :=
  String.eqb s "Infinity"
  || let (int, r1) := span digit s in
     match r1 with
     | String c r2 =>
         if lit "." c then
           let (frac, r3) := span digit r2 in
           (nonEmpty int || nonEmpty frac) && isExponentPartOpt r3
         else nonEmpty int && isExponentPartOpt r1
     | EmptyString => nonEmpty int
     end.

Definition isHexDigit (c : ascii) : bool :=
  digit c || inRange 65 70 c || inRange 97 102 c.

(** [NonDecimalIntegerLiteral]: [0x], [0o] or [0b] and digits of the base. *)
Definition isNonDecimalIntegerLiteral (s : string) : bool :=
  match s with
  | String z (String b ds) =>
      lit "0" z && nonEmpty ds
      && (((lit "x" b || lit "X" b) && allOf isHexDigit ds)
          || ((lit "o" b || lit "O" b) && allOf (inRange 48 55) ds)
          || ((lit "b" b || lit "B" b) && allOf (inRange 48 49) ds))
  | _ => false
  end.

(** [StrNumericLiteral] *)
Definition isStrNumericLiteral (s : string) : bool :=
  isNonDecimalIntegerLiteral s
  || match s with
     | String c s' =>
         if isSign c then isStrUnsignedDecimalLiteral s'
         else isStrUnsignedDecimalLiteral s
     | EmptyString => false
     end.

(** [Number(text)]: the text without the white space around it is empty
    (the number 0) or a numeric literal; anything else gives [NaN]. *)
Definition Number (text : string) : JsNumber :=
  let literal := trim text in
  if negb (nonEmpty literal) || isStrNumericLiteral literal
  then NumberOf literal
  else NaN.

(** The vertices [dependencyGraph.getCell] hands out, by their class, and
    [null]. A vertex object is known by its [id]; the empty cell vertex is
    a singleton. [formula] is what [vertex.isFormula()] answers. *)
Inductive Vertex : Type :=
| FormulaCellVertex (id : nat)
| ValueCellVertex (id : nat)
| EmptyCellVertex
| MatrixVertex (id : nat) (formula : bool)
| RangeVertex (id : nat)
| null.

(** [vertex instanceof MatrixVertex] *)
Definition instanceofMatrixVertex (vertex : Vertex) : bool :=
  match vertex with
  | MatrixVertex _ _ => true
  | _ => false
  end.

(** [vertex.isFormula()], asked of a matrix vertex only. *)
Definition isFormulaMatrix (vertex : Vertex) : bool :=
  match vertex with
  | MatrixVertex _ formula => formula
  | _ => false
  end.

(** [vertex instanceof FormulaCellVertex || vertex instanceof ValueCellVertex
    || vertex instanceof EmptyCellVertex || vertex === null] *)
Definition isCellVertexOrNull (vertex : Vertex) : bool :=
  match vertex with
  | FormulaCellVertex _ | ValueCellVertex _ | EmptyCellVertex | null => true
  | MatrixVertex _ _ | RangeVertex _ => false
  end.

(** What the engine writes into a value cell: [Number(text)] or the text. *)
Inductive RawValue : Type :=
| RawNumber (n : JsNumber)
| RawString (s : string).

(** [CellValue], read with [getCellValue] and passed on to the column
    index. *)
Inductive CellValue : Type :=
| NumberValue (n : JsNumber)
| StringValue (s : string)
| BooleanValue (b : bool)
| ErrorValue (kind : string)
| EmptyValue.

(** What [absolutizeDependencies(dependencies, address)] returns: the
    function is outside this development, and its result is only passed
    on. *)
Record AbsoluteDependencies : Type :=
  absolutizeDependencies { relative : list string; base : SimpleCellAddress }.

(** What the engine reads of the result of [parser.parse(text, address)]. *)
Record ParsingResult : Type := {
  ast : nat;
  hash : string;
  hasVolatileFunction : bool;
  hasStructuralChangeFunction : bool;
  dependencies : list string;
}.

(** What [buildMatrixVertex(ast, address)] returns: [{ vertex, size }],
    where [size] may be falsy. *)
Record MatrixSize : Type := { width : nat; height : nat }.
Record MatrixBuild : Type := { vertex : Vertex; size : option MatrixSize }.

(** [RowsSpan], by the way it is made. *)
Inductive RowsSpan : Type :=
| RowsSpan_fromNumberOfRows (sheet row numberOfRows : nat)
| RowsSpan_new (sheet rowStart rowEnd : nat).

(** [ColumnsSpan], by the way it is made. *)
Inductive ColumnsSpan : Type :=
| ColumnsSpan_fromNumberOfColumns (sheet col numberOfCols : nat)
| ColumnsSpan_new (sheet columnStart columnEnd : nat).

(** [AbsoluteCellRange.spanFrom(topLeftCorner, width, height)] *)
Record AbsoluteCellRange : Type :=
  spanFrom { start : SimpleCellAddress; rangeWidth : nat; rangeHeight : nat }.

(** Modelled from the spec: [isMatrix], imported from [./parser], is
    outside this development. Section 6: "A string of the form [{=...}] is an
    array formula." *)
Definition isMatrix (text : string) : bool :=
  startsWith "{=" text && endsWith "}" text && Nat.leb 3 (String.length text).

(** *** The calls the engine makes *)

(** Every method of a collaborator the engine calls, with its arguments.
    The dependency graph and the parser the transformers are handed are
    the engine's own and are left out. *)
Inductive Call : Type :=
(* this.dependencyGraph *)
| dependencyGraph_getCell (address : SimpleCellAddress)
| dependencyGraph_getCellValue (address : SimpleCellAddress)
| dependencyGraph_setFormulaToCell (address : SimpleCellAddress) (ast : nat)
    (dependencies : AbsoluteDependencies)
    (hasVolatileFunction hasStructuralChangeFunction : bool)
| dependencyGraph_setCellEmpty (address : SimpleCellAddress)
| dependencyGraph_setValueToCell (address : SimpleCellAddress) (value : RawValue)
| dependencyGraph_addNewMatrixVertex (vertex : Vertex)
| dependencyGraph_processCellDependencies (dependencies : AbsoluteDependencies)
    (vertex : Vertex)
| dependencyGraph_verticesToRecompute
| dependencyGraph_clearRecentlyChangedVertices
| dependencyGraph_addRows (span : RowsSpan)
| dependencyGraph_removeRows (span : RowsSpan)
| dependencyGraph_addColumns (span : ColumnsSpan)
| dependencyGraph_removeColumns (span : ColumnsSpan)
| dependencyGraph_ensureNoMatrixInRange (range : AbsoluteCellRange)
| dependencyGraph_moveCells (sourceRange : AbsoluteCellRange)
    (toRight toBottom : Z) (toSheet : nat)
(* a matrix vertex *)
| vertex_setMatrixCellValue (vertex : Vertex) (address : SimpleCellAddress)
    (value : JsNumber)
(* this.parser, buildMatrixVertex *)
| parser_parse (text : string) (address : SimpleCellAddress)
| buildMatrixVertex (ast : nat) (address : SimpleCellAddress)
(* this.columnIndex *)
| columnIndex_remove (oldValue : CellValue) (address : SimpleCellAddress)
| columnIndex_change (oldValue : CellValue) (newValue : RawValue)
    (address : SimpleCellAddress)
| columnIndex_addColumns (span : ColumnsSpan)
| columnIndex_removeColumns (span : ColumnsSpan)
(* this.evaluator *)
| evaluator_partialRun (vertices : list Vertex)
(* the dependency transformers *)
| AddRowsDependencyTransformer_transform (span : RowsSpan)
| RemoveRowsDependencyTransformer_transform (span : RowsSpan)
| AddColumnsDependencyTransformer_transform (span : ColumnsSpan)
| RemoveColumnsDependencyTransformer_transform (span : ColumnsSpan)
| MoveCellsDependencyTransformer_transform (sourceRange : AbsoluteCellRange)
    (toRight toBottom : Z) (toSheet : nat)
(* this.lazilyTransformingAstService *)
| lazilyTransformingAstService_addAddRowsTransformation (span : RowsSpan)
| lazilyTransformingAstService_addRemoveRowsTransformation (span : RowsSpan)
| lazilyTransformingAstService_addAddColumnsTransformation (span : ColumnsSpan)
| lazilyTransformingAstService_addRemoveColumnsTransformation (span : ColumnsSpan)
| lazilyTransformingAstService_addMoveCellsTransformation
    (sourceRange : AbsoluteCellRange) (toRight toBottom : Z) (toSheet : nat).

(** What each call returns. [verticesToRecompute] is read through
    [Array.from]. *)
Definition result (c : Call) : Type :=
  match c with
  | dependencyGraph_getCell _ => Vertex
  | dependencyGraph_getCellValue _ => CellValue
  | dependencyGraph_verticesToRecompute => list Vertex
  | parser_parse _ _ => ParsingResult
  | buildMatrixVertex _ _ => MatrixBuild
  | _ => unit
  end.

(** A method of the engine: it returns, throws, or calls a collaborator and
    goes on with what the call returned. *)
Inductive Prog (A : Type) : Type :=
| Ret (a : A)
| Throw (message : string)
| Do (c : Call) (k : result c → Prog A).
Arguments Ret {A} a.
Arguments Throw {A} message.
Arguments Do {A} c k.

Fixpoint bind {A B : Type} (p : Prog A) (f : A → Prog B) : Prog B :=
  match p with
  | Ret a => f a
  | Throw e => Throw e
  | Do c k => Do c (fun x => bind (k x) f)
  end.

#[export] Instance Prog_ret : MRet Prog := @Ret.
#[export] Instance Prog_bind : MBind Prog := fun A B f p => bind p f.

Definition call (c : Call) : Prog (result c) := Do c Ret.

(** [if (verticesToRecomputeFrom)]: the value is an array, and an array,
    empty or not, is an object, which is truthy. *)
Definition truthy (verticesToRecomputeFrom : list Vertex) : bool := true.

(** *** The methods *)

(** [recomputeIfDependencyGraphNeedsIt], lines 259-266. *)
Definition recomputeIfDependencyGraphNeedsIt : Prog unit :=
  verticesToRecomputeFrom ← call dependencyGraph_verticesToRecompute;
  call dependencyGraph_clearRecentlyChangedVertices;;
  if truthy verticesToRecomputeFrom
  then call (evaluator_partialRun verticesToRecomputeFrom)
  else mret tt.

(** The body of [setCellContent] from line 130 on, for the [vertex] that
    [getCell] returned. *)
Definition setCellContentAt (vertex : Vertex) (address : SimpleCellAddress)
    (newCellContent : string) : Prog unit :=
  verticesToRecomputeFrom ←
    (if instanceofMatrixVertex vertex && negb (isFormulaMatrix vertex)
        && negb (isNaN (Number newCellContent))
     then
       call (vertex_setMatrixCellValue vertex address (Number newCellContent));;
       mret [vertex]
     else if negb (instanceofMatrixVertex vertex) && isMatrix newCellContent
     then
       let matrixFormula :=
         substr 1 (String.length newCellContent - 2) newCellContent in
       parseResult ← call (parser_parse matrixFormula address);
       built ← call (buildMatrixVertex (ast parseResult) address);
       let (newVertex, size) := built : MatrixBuild in
       if negb (bool_decide (is_Some size))
          || negb (instanceofMatrixVertex newVertex)
       then Throw "What if new matrix vertex is not properly constructed?"
       else
         call (dependencyGraph_addNewMatrixVertex newVertex);;
         call (dependencyGraph_processCellDependencies
                 (absolutizeDependencies (dependencies parseResult) address)
                 newVertex);;
         mret [newVertex]
     else if isCellVertexOrNull vertex then
       (if ParserWithCaching.isFormula newCellContent then
          parseResult ← call (parser_parse newCellContent address);
          call (dependencyGraph_setFormulaToCell address (ast parseResult)
                  (absolutizeDependencies (dependencies parseResult) address)
                  (hasVolatileFunction parseResult)
                  (hasStructuralChangeFunction parseResult))
        else if String.eqb newCellContent "" then
          oldValue ← call (dependencyGraph_getCellValue address);
          call (columnIndex_remove oldValue address);;
          call (dependencyGraph_setCellEmpty address)
        else if negb (isNaN (Number newCellContent)) then
          let newValue := Number newCellContent in
          oldValue ← call (dependencyGraph_getCellValue address);
          call (dependencyGraph_setValueToCell address (RawNumber newValue));;
          call (columnIndex_change oldValue (RawNumber newValue) address)
        else
          oldValue ← call (dependencyGraph_getCellValue address);
          call (dependencyGraph_setValueToCell address (RawString newCellContent));;
          call (columnIndex_change oldValue (RawString newCellContent) address));;
       verticesToRecomputeFrom ← call dependencyGraph_verticesToRecompute;
       call dependencyGraph_clearRecentlyChangedVertices;;
       mret verticesToRecomputeFrom
     else Throw "Illegal operation");
  if truthy verticesToRecomputeFrom
  then call (evaluator_partialRun verticesToRecomputeFrom)
  else mret tt.

(** [setCellContent], lines 126-173. *)
Definition setCellContent (address : SimpleCellAddress)
    (newCellContent : string) : Prog unit :=
  vertex ← call (dependencyGraph_getCell address);
  setCellContentAt vertex address newCellContent.

(** [this.stats.measure(StatType.TRANSFORM_ASTS, () => { ... })]: the
    statistics module times the function it is given; it runs it once, on
    the spot. *)
Definition measure {A : Type} (body : Prog A) : Prog A := body.

(** [addRows], lines 175-186; [numberOfRowsToAdd] defaults to 1. *)
Definition addRows (sheet row numberOfRowsToAdd : nat) : Prog unit :=
  let addedRows := RowsSpan_fromNumberOfRows sheet row numberOfRowsToAdd in
  call (dependencyGraph_addRows addedRows);;
  measure (
    call (AddRowsDependencyTransformer_transform addedRows);;
    call (lazilyTransformingAstService_addAddRowsTransformation addedRows));;
  recomputeIfDependencyGraphNeedsIt.

(** [removeRows], lines 188-199; [rowEnd] defaults to [rowStart]. *)
Definition removeRows (sheet rowStart rowEnd : nat) : Prog unit :=
  let removedRows := RowsSpan_new sheet rowStart rowEnd in
  call (dependencyGraph_removeRows removedRows);;
  measure (
    call (RemoveRowsDependencyTransformer_transform removedRows);;
    call (lazilyTransformingAstService_addRemoveRowsTransformation removedRows));;
  recomputeIfDependencyGraphNeedsIt.

(** [addColumns], lines 201-213; [numberOfCols] defaults to 1. *)
Definition addColumns (sheet col numberOfCols : nat) : Prog unit :=
  let addedColumns := ColumnsSpan_fromNumberOfColumns sheet col numberOfCols in
  call (dependencyGraph_addColumns addedColumns);;
  call (columnIndex_addColumns addedColumns);;
  measure (
    call (AddColumnsDependencyTransformer_transform addedColumns);;
    call (lazilyTransformingAstService_addAddColumnsTransformation addedColumns));;
  recomputeIfDependencyGraphNeedsIt.

(** [removeColumns], lines 215-227; [columnEnd] defaults to [columnStart]. *)
Definition removeColumns (sheet columnStart columnEnd : nat) : Prog unit :=
  let removedColumns := ColumnsSpan_new sheet columnStart columnEnd in
  call (dependencyGraph_removeColumns removedColumns);;
  call (columnIndex_removeColumns removedColumns);;
  measure (
    call (RemoveColumnsDependencyTransformer_transform removedColumns);;
    call (lazilyTransformingAstService_addRemoveColumnsTransformation removedColumns));;
  recomputeIfDependencyGraphNeedsIt.

(** [moveCells], lines 229-249. *)
Definition moveCells (sourceLeftCorner : SimpleCellAddress) (width height : nat)
    (destinationLeftCorner : SimpleCellAddress) : Prog unit :=
  let sourceRange := spanFrom sourceLeftCorner width height in
  let targetRange := spanFrom destinationLeftCorner width height in
  call (dependencyGraph_ensureNoMatrixInRange sourceRange);;
  call (dependencyGraph_ensureNoMatrixInRange targetRange);;
  let toRight := (Z.of_nat (col destinationLeftCorner) - Z.of_nat (col sourceLeftCorner))%Z in
  let toBottom := (Z.of_nat (row destinationLeftCorner) - Z.of_nat (row sourceLeftCorner))%Z in
  let toSheet := sheet destinationLeftCorner in
  measure (
    call (MoveCellsDependencyTransformer_transform sourceRange toRight toBottom toSheet);;
    call (lazilyTransformingAstService_addMoveCellsTransformation
            sourceRange toRight toBottom toSheet));;
  call (dependencyGraph_moveCells sourceRange toRight toBottom toSheet);;
  recomputeIfDependencyGraphNeedsIt.

(** *** Running a method against its collaborators *)

(** The collaborators: how each call is answered in a state [W] of theirs,
    and the state it leaves. *)
Definition Handler (W : Type) : Type :=
  ∀ c : Call, W → Answer (result c) * W.

(** One run: the calls made, in order, how the method ended, and the state
    of the collaborators at the end. A call that throws ends the method. *)
Record Run (A W : Type) : Type :=
  { trace : list Call; outcome : Answer A; world : W }.
Arguments trace {A W} _.
Arguments outcome {A W} _.
Arguments world {A W} _.

(** The run [r], after the call [c]. *)
Definition after {A W : Type} (c : Call) (r : Run A W) : Run A W :=
  {| trace := c :: trace r; outcome := outcome r; world := world r |}.

Fixpoint run {W A : Type} (handle : Handler W) (p : Prog A) (w : W) : Run A W :=
  match p with
  | Ret a => {| trace := []; outcome := Returns a; world := w |}
  | Throw e => {| trace := []; outcome := Throws e; world := w |}
  | Do c k =>
      match handle c w with
      | (Returns x, w') => after c (run handle (k x) w')
      | (Throws e, w') => {| trace := [c]; outcome := Throws e; world := w' |}
      end
  end.

(** A call together with the value it returned. *)
Inductive Reply : Type :=
| reply (c : Call) (x : result c).

Definition callOf (r : Reply) : Call :=
  match r with
  | reply c _ => c
  end.

(** From the state [w] on, the collaborators are asked the calls of
    [script] one after the other; each returns the value listed with it,
    and the last leaves them in [w']. *)
Fixpoint answers {W : Type} (handle : Handler W) (w : W) (script : list Reply)
    (w' : W) : Prop :=
  match script with
  | [] => w' = w
  | reply c x :: script' =>
      ∃ w1, handle c w = (Returns x, w1) ∧ answers handle w1 script' w'
  end.


(** *** Collaborators to run the methods against *)

(** A small stand-in for the collaborators: which vertex sits where, the
    rectangles matrices occupy, the recently changed vertices, and whether
    [buildMatrixVertex] succeeds. *)
Record ExampleWorld : Type := {
  vertices : list (SimpleCellAddress * Vertex);
  matrices : list AbsoluteCellRange;
  recentlyChanged : list Vertex;
  matrixBuilds : bool;
}.

Definition sameAddress (a b : SimpleCellAddress) : bool :=
  Nat.eqb (sheet a) (sheet b) && Nat.eqb (col a) (col b)
  && Nat.eqb (row a) (row b).

Fixpoint vertexAt (address : SimpleCellAddress)
    (l : list (SimpleCellAddress * Vertex)) : Vertex :=
  match l with
  | (a, v) :: l' => if sameAddress a address then v else vertexAt address l'
  | [] => null
  end.

(** Two rectangles of one sheet share a cell. *)
Definition overlap (r1 r2 : AbsoluteCellRange) : bool :=
  Nat.eqb (sheet (start r1)) (sheet (start r2))
  && Nat.ltb (col (start r1)) (col (start r2) + rangeWidth r2)
  && Nat.ltb (col (start r2)) (col (start r1) + rangeWidth r1)
  && Nat.ltb (row (start r1)) (row (start r2) + rangeHeight r2)
  && Nat.ltb (row (start r2)) (row (start r1) + rangeHeight r1).

Definition clearChanged (w : ExampleWorld) : ExampleWorld :=
  {| vertices := vertices w; matrices := matrices w;
     recentlyChanged := []; matrixBuilds := matrixBuilds w |}.

(** [ensureNoMatrixInRange] throws when the range meets a matrix and
    changes nothing; [verticesToRecompute] and
    [clearRecentlyChangedVertices] expose and reset the recently changed
    vertices; every other call returns and leaves the state as it is. *)
Definition exampleHandler : Handler ExampleWorld :=
  fun c =>
    match c as c0 return ExampleWorld → Answer (result c0) * ExampleWorld with
    | dependencyGraph_getCell address =>
        fun w => (Returns (vertexAt address (vertices w)), w)
    | dependencyGraph_getCellValue _ => fun w => (Returns EmptyValue, w)
    | dependencyGraph_verticesToRecompute =>
        fun w => (Returns (recentlyChanged w), w)
    | dependencyGraph_clearRecentlyChangedVertices =>
        fun w => (Returns tt, clearChanged w)
    | dependencyGraph_ensureNoMatrixInRange range =>
        fun w =>
          if existsb (overlap range) (matrices w)
          then (Throws "It is not possible to move matrix", w)
          else (Returns tt, w)
    | parser_parse text _ =>
        fun w =>
          (Returns {| ast := 0; hash := text; hasVolatileFunction := false;
                      hasStructuralChangeFunction := false;
                      dependencies := [] |}, w)
    | buildMatrixVertex _ _ =>
        fun w =>
          (Returns (if matrixBuilds w
                     then {| vertex := MatrixVertex 1 true;
                             size := Some {| width := 2; height := 2 |} |}
                     else {| vertex := ValueCellVertex 1; size := None |}), w)
    | _ => fun w => (Returns tt, w)
    end.

Definition A1 : SimpleCellAddress := {| sheet := 0; col := 0; row := 0 |}.
Definition E1 : SimpleCellAddress := {| sheet := 0; col := 4; row := 0 |}.

(** U+2003, an em space, and U+00A0, a no-break space, in UTF-8. *)
Definition emSpace : string :=
  String (ascii_of_nat 226) (String (ascii_of_nat 128)
    (String (ascii_of_nat 131) "")).
Definition noBreakSpace : string :=
  String (ascii_of_nat 194) (String (ascii_of_nat 160) "").

(** An empty sheet. *)
Definition emptyWorld : ExampleWorld :=
  {| vertices := []; matrices := []; recentlyChanged := [];
     matrixBuilds := false |}.

(** A sheet with a numeric matrix over [A1:B2]. *)
Definition matrixWorld : ExampleWorld :=
  {| vertices := [(A1, MatrixVertex 7 false)];
     matrices := [spanFrom A1 2 2];
     recentlyChanged := []; matrixBuilds := true |}.

End HandsOnEngine.

(* ===================================================================== *)
(** ** Templates, and the cache over several calls *)
(* ===================================================================== *)

Module Templates.

Import ParserWithCaching.

(** The text a hash and its addresses stand for: the hash with its
    placeholders [#] replaced, from left to right, by the addresses.
    [None] when the placeholders and the addresses do not pair off. *)
Fixpoint instantiate (hash : string) (addresses : list string) : option string :=
  match hash with
  | EmptyString =>
      match addresses with
      | [] => Some EmptyString
      | _ :: _ => None
      end
  | String c hash' =>
      if Ascii.eqb c "#" then
        match addresses with
        | address :: addresses' =>
            option_map (String.append address) (instantiate hash' addresses')
        | [] => None
        end
      else option_map (String c) (instantiate hash' addresses)
  end.

(** A token the hash can be read back from: a relative cell, or a token
    without [#] in its image, which is [:] for a range separator. *)
Definition spelled (token : IToken) : bool :=
  isNamed "RelativeCell" token
  || (allOf (notLit "#") (image token)
      && (negb (isNamed "RangeSeparator" token) || String.eqb (image token) ":")).

(** The stream can be cut after its last token without cutting a range:
    it is empty, or ends with a token that is neither a relative cell nor a
    range separator. *)
Definition closed (tokens : list IToken) : bool :=
  match last tokens with
  | Some token =>
      negb (isNamed "RelativeCell" token) && negb (isNamed "RangeSeparator" token)
  | None => true
  end.

(** A caller that parses [texts] one after the other with one parser, and
    stops at the first [parse] that throws. *)
Fixpoint parseAll {TemplateAst : Type} (fp : FormulaParser TemplateAst)
    (texts : list string) (this : Parser) (heap : list TemplateAst)
  : Answer (list Ast * Parser * list TemplateAst) :=
  match texts with
  | [] => Returns ([], this, heap)
  | text :: rest =>
      match parse fp text this heap with
      | Throws e => Throws e
      | Returns (r, this', heap') =>
          match parseAll fp rest this' heap' with
          | Throws e => Throws e
          | Returns (rs, this'', heap'') => Returns (r :: rs, this'', heap'')
          end
      end
  end.

(** Every reference in the cache is to an AST that has been built. *)
Definition cacheValid {TemplateAst : Type} (this : Parser)
    (heap : list TemplateAst) : Prop :=
  ∀ hash ref, cache this !! hash = Some ref → ref < length heap.

(** No AST is cached under two hashes. *)
Definition cacheInjective (this : Parser) : Prop :=
  ∀ hash1 hash2 ref,
    cache this !! hash1 = Some ref → cache this !! hash2 = Some ref →
    hash1 = hash2.

(** Four texts to parse in turn, the results a new parser in the
    token-driven mode gives for them, and the parser afterwards: two ASTs
    built, two cache hits. *)
Definition exampleTexts : list string :=
  ["=A1"; "=A1+SUM(B2:C3)"; "=A1:B2"; "=D4+SUM(E5:F6)"].

Definition exampleResults : list Ast :=
  [{| ast := 0; astAddresses := ["A1"] |};
   {| ast := 1; astAddresses := ["A1"; "B2:C3"] |};
   {| ast := 0; astAddresses := ["A1:B2"] |};
   {| ast := 1; astAddresses := ["D4"; "E5:F6"] |}].

Definition exampleFinal : Parser :=
  cacheUsed (cacheUsed (cacheSet "=#+SUM(#)" 1
                          (cacheSet "=#" 0 (constructor "parser")))).

End Templates.

(* ===================================================================== *)
(** ** Kinds of calls in a run of the engine *)
(* ===================================================================== *)

Module EngineTraces.

Import HandsOnEngine.

(** A call to [this.columnIndex]. *)
Definition onColumnIndex (c : Call) : bool :=
  match c with
  | columnIndex_remove _ _ | columnIndex_change _ _ _
  | columnIndex_addColumns _ | columnIndex_removeColumns _ => true
  | _ => false
  end.

(** A call to [this.evaluator.partialRun]. *)
Definition isPartialRun (c : Call) : bool :=
  match c with
  | evaluator_partialRun _ => true
  | _ => false
  end.


(** A run that ends with the three calls of
    [recomputeIfDependencyGraphNeedsIt], the evaluator not having been
    called before. *)
Definition recomputed {W : Type} (r : Run unit W) : Prop :=
  ∃ calls vs,
    trace r = calls ++ [dependencyGraph_verticesToRecompute;
                        dependencyGraph_clearRecentlyChangedVertices;
                        evaluator_partialRun vs]
    ∧ existsb isPartialRun calls = false.

(** A sheet with an array formula over [A1:B2]. *)
Definition formulaMatrixWorld : ExampleWorld :=
  {| vertices := [(A1, MatrixVertex 8 true)];
     matrices := [spanFrom A1 2 2];
     recentlyChanged := []; matrixBuilds := true |}.

End EngineTraces.

(* ===================================================================== *)
(** ** src/HandsOnEngine.ts: the reading methods *)
(* ===================================================================== *)

Module EngineQueries.

Import HandsOnEngine.

(** *** JavaScript arrays and maps *)

(** An array: a slot holds a value or is empty. *)
Definition Array (A : Type) : Type := list (option A).

(** [new Array(n)]: [n] empty slots. *)
Definition newArray {A : Type} (n : nat) : Array A := replicate n None.

(** [arr[i] = v]: inside the array the slot is overwritten; past its end the
    array grows, with empty slots up to [i]. *)
Definition assign {A : Type} (i : nat) (v : A) (arr : Array A) : Array A :=
  if i <? length arr then <[i := Some v]> arr
  else arr ++ replicate (i - length arr) None ++ [Some v].

(** A [Map] with string keys: the entries in the order the keys were first
    set. *)
Definition Map (V : Type) : Type := list (string * V).

(** [map.set(key, value)] *)
Fixpoint mapSet {V : Type} (key : string) (value : V) (map : Map V) : Map V :=
  match map with
  | [] => [(key, value)]
  | (k, v) :: map' =>
      if String.eqb k key then (k, value) :: map'
      else (k, v) :: mapSet key value map'
  end.

(** *** The calls the reading methods make *)

(** [{ width: number, height: number }] *)
Record SheetDimensions : Type := { width : nat; height : nat }.

(** The methods of [this.dependencyGraph] and of its [sheetMapping] that
    the reading methods call, and [cellAddressFromString], which is given
    [this.sheetMapping.fetch] and [CellAddress.absolute(0, 0, 0)] besides
    the string. *)
Inductive Query : Type :=
| sheetMapping_names
| sheetMapping_fetch (sheetName : string)
| dependencyGraph_getSheetHeight (sheet : nat)
| dependencyGraph_getSheetWidth (sheet : nat)
| dependencyGraph_getCellValue (address : SimpleCellAddress)
| cellAddressFromString (stringAddress : string).

(** What each call returns; [names()] is iterated once, in order. *)
Definition answer (q : Query) : Type :=
  match q with
  | sheetMapping_names => list string
  | sheetMapping_fetch _ => nat
  | dependencyGraph_getSheetHeight _ => nat
  | dependencyGraph_getSheetWidth _ => nat
  | dependencyGraph_getCellValue _ => CellValue
  | cellAddressFromString _ => SimpleCellAddress
  end.

(** A reading method: it returns, throws, or makes a call and goes on with
    what the call returned. *)
Inductive Read (A : Type) : Type :=
| Done (a : A)
| Raise (message : string)
| Ask (q : Query) (k : answer q → Read A).
Arguments Done {A} a.
Arguments Raise {A} message.
Arguments Ask {A} q k.

Fixpoint bindRead {A B : Type} (p : Read A) (f : A → Read B) : Read B :=
  match p with
  | Done a => f a
  | Raise e => Raise e
  | Ask q k => Ask q (fun x => bindRead (k x) f)
  end.

#[export] Instance Read_ret : MRet Read := @Done.
#[export] Instance Read_bind : MBind Read := fun A B f p => bindRead p f.

Definition ask (q : Query) : Read (answer q) := Ask q Done.

(** [arr[i][j] = v]: the row [arr[i]] is written at [j]; with no row there
    the assignment throws a [TypeError]. *)
Definition assignIn {A : Type} (i j : nat) (v : A) (arr : Array (Array A))
  : Read (Array (Array A)) :=
  match arr !! i with
  | Some (Some rowArray) => Done (<[i := Some (assign j v rowArray)]> arr)
  | _ => Raise "TypeError"
  end.

(** [for (let i = from; i < from + count; i++) body], on the variables [s]
    the body assigns. *)
Fixpoint forLoop {Vars : Type} (count from : nat)
    (body : nat → Vars → Read Vars) (s : Vars) : Read Vars :=
  match count with
  | 0 => Done s
  | S count' => s' ← body from s; forLoop count' (S from) body s'
  end.

(** [for (const item of items) body] *)
Fixpoint forOf {A Vars : Type} (items : list A)
    (body : A → Vars → Read Vars) (s : Vars) : Read Vars :=
  match items with
  | [] => Done s
  | item :: items' => s' ← body item s; forOf items' body s'
  end.

(** *** The methods *)

Section Methods.

(** [simpleCellAddress(sheet, col, row)] of [./Cell]. *)
Variable simpleCellAddress : nat → nat → nat → SimpleCellAddress.

(** [getCellValue], lines 69-72. *)
Definition getCellValue (stringAddress : string) : Read CellValue :=
  address ← ask (cellAddressFromString stringAddress);
  ask (dependencyGraph_getCellValue address).

(** [getValues], lines 77-92. *)
Definition getValues (sheet : nat) : Read (Array (Array CellValue)) :=
  sheetHeight ← ask (dependencyGraph_getSheetHeight sheet);
  sheetWidth ← ask (dependencyGraph_getSheetWidth sheet);
  forLoop sheetHeight 0
    (fun i (arr : Array (Array CellValue)) =>
       let arr := assign i (newArray sheetWidth) arr in
       forLoop sheetWidth 0
         (fun j (arr : Array (Array CellValue)) =>
            let address := simpleCellAddress sheet j i in
            value ← ask (dependencyGraph_getCellValue address);
            assignIn i j value arr)
         arr)
    (newArray sheetHeight).

End Methods.

(** [getSheetsDimensions], lines 94-104. *)
Definition getSheetsDimensions : Read (Map SheetDimensions) :=
  names ← ask sheetMapping_names;
  forOf names
    (fun sheetName sheetDimensions =>
       sheetId ← ask (sheetMapping_fetch sheetName);
       width ← ask (dependencyGraph_getSheetWidth sheetId);
       height ← ask (dependencyGraph_getSheetHeight sheetId);
       mret (mapSet sheetName {| width := width; height := height |}
               sheetDimensions))
    [].

(** [getSheetDimensions], lines 106-111. *)
Definition getSheetDimensions (sheetId : nat) : Read SheetDimensions :=
  width ← ask (dependencyGraph_getSheetWidth sheetId);
  height ← ask (dependencyGraph_getSheetHeight sheetId);
  mret {| width := width; height := height |}.

(** *** Running a reading method *)

(** How each call is answered in a state [W] of the dependency graph, and
    the state it leaves. *)
Definition Reader (W : Type) : Type :=
  ∀ q : Query, W → Answer (answer q) * W.

(** One run: the calls made, in order, how the method ended, and the state
    at the end. *)
Record Reading (A W : Type) : Type :=
  { asked : list Query; returned : Answer A; state : W }.
Arguments asked {A W} _.
Arguments returned {A W} _.
Arguments state {A W} _.

Definition asking {A W : Type} (q : Query) (r : Reading A W) : Reading A W :=
  {| asked := q :: asked r; returned := returned r; state := state r |}.

Fixpoint runRead {W A : Type} (handle : Reader W) (p : Read A) (w : W)
  : Reading A W :=
  match p with
  | Done a => {| asked := []; returned := Returns a; state := w |}
  | Raise e => {| asked := []; returned := Throws e; state := w |}
  | Ask q k =>
      match handle q w with
      | (Returns x, w') => asking q (runRead handle (k x) w')
      | (Throws e, w') => {| asked := [q]; returned := Throws e; state := w' |}
      end
  end.

(** [p], run in [w], makes the calls [qs], returns [a] and leaves [w']. *)
Definition runs {W A : Type} (handle : Reader W) (p : Read A) (w : W)
    (qs : list Query) (a : A) (w' : W) : Prop :=
  runRead handle p w = {| asked := qs; returned := Returns a; state := w' |}.

(** A dependency graph that only reads: in the state [w] every call
    returns, what [env] says, and leaves the state as it is. *)
Definition reads {W : Type} (handle : Reader W) (w : W)
    (env : ∀ q : Query, answer q) : Prop :=
  ∀ q, handle q w = (Returns (env q), w).

(** What [env] answers, at the type of the answer. *)
Definition heightOf (env : ∀ q : Query, answer q) (sheet : nat) : nat :=
  env (dependencyGraph_getSheetHeight sheet).
Definition widthOf (env : ∀ q : Query, answer q) (sheet : nat) : nat :=
  env (dependencyGraph_getSheetWidth sheet).
Definition valueOf (env : ∀ q : Query, answer q) (address : SimpleCellAddress)
  : CellValue :=
  env (dependencyGraph_getCellValue address).
Definition idOf (env : ∀ q : Query, answer q) (sheetName : string) : nat :=
  env (sheetMapping_fetch sheetName).
Definition namesOf (env : ∀ q : Query, answer q) : list string :=
  env sheetMapping_names.
Definition addressOf (env : ∀ q : Query, answer q) (stringAddress : string)
  : SimpleCellAddress :=
  env (cellAddressFromString stringAddress).

(** *** A workbook to run the methods on *)

(** [Sheet1] has three rows and two columns, [Sheet2] is empty. *)
Definition exampleCells : list (list CellValue) :=
  [[NumberValue (NumberOf "42"); StringValue "a"];
   [EmptyValue; BooleanValue true];
   [NumberValue (NumberOf "7"); ErrorValue "DIV_BY_ZERO"]].

Definition exampleAddress (sheet col row : nat) : SimpleCellAddress :=
  {| sheet := sheet; col := col; row := row |}.

Definition exampleEnv (q : Query) : answer q :=
  match q as q0 return answer q0 with
  | sheetMapping_names => ["Sheet1"; "Sheet2"]
  | sheetMapping_fetch sheetName => if String.eqb sheetName "Sheet1" then 0 else 1
  | dependencyGraph_getSheetHeight sheet => if Nat.eqb sheet 0 then 3 else 0
  | dependencyGraph_getSheetWidth sheet => if Nat.eqb sheet 0 then 2 else 0
  | dependencyGraph_getCellValue address =>
      if Nat.eqb (sheet address) 0 then
        match exampleCells !! row address with
        | Some cells => default EmptyValue (cells !! col address)
        | None => EmptyValue
        end
      else EmptyValue
  | cellAddressFromString stringAddress =>
      if String.eqb stringAddress "B2" then exampleAddress 0 1 1
      else exampleAddress 0 0 0
  end.

Definition exampleReader : Reader unit :=
  fun q w => (Returns (exampleEnv q), w).

End EngineQueries.

(* ===================================================================== *)
(** ** Part II. Strings *)
(* ===================================================================== *)

Lemma append_cons (c : ascii) (s t : string) :
  String c s +:+ t = String c (s +:+ t).
Proof. reflexivity. Qed.

Lemma append_nil_l (s : string) : "" +:+ s = s.
Proof. reflexivity. Qed.

Lemma append_nil_r (s : string) : s +:+ "" = s.
Proof.
  induction s as [|c s IH]; [reflexivity | now rewrite append_cons, IH].
Qed.

Lemma append_assoc (s t u : string) : (s +:+ t) +:+ u = s +:+ (t +:+ u).
Proof.
  induction s as [|c s IH]; [reflexivity | now rewrite !append_cons, IH].
Qed.

Lemma length_append (s t : string) :
  String.length (s +:+ t) = String.length s + String.length t.
Proof.
  induction s as [|c s IH]; [reflexivity | rewrite append_cons; simpl; now rewrite IH].
Qed.

Lemma slice_0 (s : string) : slice 0 s = s.
Proof. now destruct s. Qed.

Lemma slice_append (p s : string) : slice (String.length p) (p +:+ s) = s.
Proof. induction p as [|c p IH]; [apply slice_0 | exact IH]. Qed.

Lemma slice_slice (x y : nat) (s : string) :
  slice y (slice x s) = slice (x + y) s.
Proof.
  revert s; induction x as [|x IH]; intros s; simpl.
  - reflexivity.
  - destruct s as [|c s]; simpl; [now destruct y | apply IH].
Qed.

Lemma charAt_slice (x y : nat) (s : string) :
  charAt (slice x s) y = charAt s (x + y).
Proof.
  unfold charAt; revert s; induction x as [|x IH]; intros s; simpl.
  - reflexivity.
  - destruct s as [|c s]; simpl; [now destruct y | apply IH].
Qed.

Lemma charAt_append_r (p s : string) (y : nat) :
  charAt (p +:+ s) (String.length p + y) = charAt s y.
Proof. unfold charAt; induction p as [|c p IH]; [reflexivity | exact IH]. Qed.

Lemma charAt_append_l (p s : string) (y : nat) :
  y < String.length p → charAt (p +:+ s) y = charAt p y.
Proof.
  unfold charAt; revert y; induction p as [|c p IH]; intros y Hy.
  - simpl in Hy; lia.
  - rewrite append_cons. simpl in Hy.
    destruct y as [|y]; [reflexivity | simpl; apply IH; lia].
Qed.

Lemma take_append (p s : string) : take (String.length p) (p +:+ s) = p.
Proof.
  induction p as [|c p IH]; [now destruct s | rewrite append_cons; simpl; now rewrite IH].
Qed.

Lemma length_slice (x : nat) (s : string) :
  String.length (slice x s) = String.length s - x.
Proof.
  revert s; induction x as [|x IH]; intros s; simpl.
  - lia.
  - destruct s as [|c s]; simpl; [reflexivity | apply IH].
Qed.

Lemma slice_length_le (x : nat) (s : string) :
  String.length s ≤ x → slice x s = "".
Proof.
  revert s; induction x as [|x IH]; intros s Hs.
  - destruct s; simpl in *; [reflexivity | lia].
  - destruct s as [|c s]; simpl in *; [reflexivity | apply IH; lia].
Qed.

Lemma slice_cons (x : nat) (s : string) (c : ascii) :
  charAt s x = Some c → slice x s = String c (slice (S x) s).
Proof.
  unfold charAt; revert s; induction x as [|x IH]; intros s Hc.
  - destruct s as [|d s]; simpl in *; [discriminate | ].
    injection Hc as ->. reflexivity.
  - destruct s as [|d s]; simpl in *; [discriminate | now apply IH].
Qed.

Lemma charAt_lt (x : nat) (s : string) :
  x < String.length s → ∃ c, charAt s x = Some c.
Proof.
  unfold charAt; revert s; induction x as [|x IH]; intros s Hx.
  - destruct s as [|d s]; simpl in *; [lia | eauto].
  - destruct s as [|d s]; simpl in *; [lia | apply IH; lia].
Qed.

Lemma charAt_Some_lt (s : string) (x : nat) (c : ascii) :
  charAt s x = Some c → x < String.length s.
Proof.
  unfold charAt; revert x; induction s as [|d s IH]; intros x H; [discriminate | ].
  destruct x as [|x]; simpl in *; [lia | ]. apply IH in H. lia.
Qed.

Lemma slice_head (code : string) (x : nat) (c : ascii) (s : string) :
  slice x code = String c s → charAt code x = Some c ∧ slice (S x) code = s.
Proof.
  intros H. split.
  - rewrite <- (Nat.add_0_r x), <- charAt_slice, H. reflexivity.
  - rewrite <- Nat.add_1_r, <- slice_slice, H. reflexivity.
Qed.

Lemma slice_skip (code m rest : string) (x : nat) :
  slice x code = m +:+ rest → slice (x + String.length m) code = rest.
Proof. intros H. now rewrite <- slice_slice, H, slice_append. Qed.

(* ===================================================================== *)
(** ** Patterns *)
(* ===================================================================== *)

Lemma span_append (p : ascii → bool) (s : string) :
  fst (span p s) +:+ snd (span p s) = s.
Proof.
  induction s as [|c s IH]; simpl; [reflexivity | ].
  destruct (p c); [ | reflexivity].
  destruct (span p s) as [run rest]; simpl in *. now rewrite append_cons, IH.
Qed.

Lemma span_allOf (p : ascii → bool) (s : string) :
  allOf p (fst (span p s)) = true.
Proof.
  induction s as [|c s IH]; simpl; [reflexivity | ].
  destruct (p c) eqn:Hc; [ | reflexivity].
  destruct (span p s) as [run rest]; simpl in *. now rewrite Hc.
Qed.

Lemma span_rest (p : ascii → bool) (s : string) :
  startsIn p (snd (span p s)) = false.
Proof.
  induction s as [|c s IH]; simpl; [reflexivity | ].
  destruct (p c) eqn:Hc; [ | simpl; exact Hc].
  now destruct (span p s) as [run rest].
Qed.

Lemma span_unique (p : ascii → bool) (a b : string) :
  allOf p a = true → startsIn p b = false → span p (a +:+ b) = (a, b).
Proof.
  induction a as [|c a IH]; intros Ha Hb.
  - rewrite append_nil_l. destruct b as [|d b]; simpl in *; [reflexivity | now rewrite Hb].
  - rewrite append_cons. simpl in *. apply andb_prop in Ha as [Hc Ha].
    rewrite Hc, (IH Ha Hb). reflexivity.
Qed.

(** A split of [s] after some characters of the class is the longest one,
    or is followed by one more character of the class. *)
Lemma split_cases (p : ascii → bool) (s a b : string) :
  s = a +:+ b → allOf p a = true →
  b = snd (span p s) ∨ startsIn p b = true.
Proof.
  intros -> Ha. destruct (startsIn p b) eqn:Hb; [now right | left].
  now rewrite (span_unique p a b Ha Hb).
Qed.

(** *** The greedy repetition *)

(** When the rest of the pattern matches after the longest run, that is the
    match. *)
Lemma star_max (p : ascii → bool) (s : string) (k : string → option string)
    (r : string) :
  k (snd (span p s)) = Some r → star p s k = Some r.
Proof.
  induction s as [|c s IH]; simpl; [tauto | ].
  destruct (p c); [ | tauto].
  destruct (span p s) as [run rest]; simpl in *.
  intros Hk. now rewrite (IH Hk).
Qed.

(** When the rest of the pattern matches after no run at all, backtracking
    finds nothing. *)
Lemma star_none (p : ascii → bool) (s : string) (k : string → option string) :
  (∀ a b, s = a +:+ b → allOf p a = true → k b = None) →
  star p s k = None.
Proof.
  induction s as [|c s IH]; intros Hk; simpl.
  - now apply (Hk EmptyString EmptyString).
  - destruct (p c) eqn:Hc.
    + rewrite IH.
      * now apply (Hk EmptyString (String c s)).
      * intros a b -> Ha. apply (Hk (String c a) b); [reflexivity | ].
        simpl. now rewrite Hc.
    + now apply (Hk EmptyString (String c s)).
Qed.

Lemma letter_not_digit (c : ascii) : letter c = true → digit c = false.
Proof.
  unfold letter, digit, inRange.
  rewrite orb_true_iff, !andb_true_iff, andb_false_iff, !Nat.leb_le, !Nat.leb_gt.
  lia.
Qed.

Import ParserWithCaching.

(** *** What the two patterns match *)

Lemma exec_stringRegex (s : string) : exec stringRegex s = matchString s.
Proof.
  unfold exec, stringRegex, matchString; simpl.
  pose proof (span_append (notLit "'") s) as Happ.
  pose proof (span_rest (notLit "'") s) as Hrest.
  destruct (span (notLit "'") s) as [body rest] eqn:Hspan; simpl in *.
  destruct rest as [|c rest].
  - rewrite star_none; [reflexivity | ].
    intros a b Hs Ha.
    destruct (split_cases _ _ _ _ Hs Ha) as [-> | Hb].
    + now rewrite Hspan.
    + destruct b as [|d b]; [reflexivity | ].
      simpl in Hb. unfold notLit in Hb. unfold lit.
      now destruct (Ascii.eqb d "'").
  - simpl in Hrest. unfold notLit in Hrest.
    apply negb_false_iff, Ascii.eqb_eq in Hrest as ->.
    erewrite star_max; [ | rewrite Hspan; simpl; reflexivity].
    f_equal. rewrite <- Happ.
    replace (body +:+ String "'" rest) with ((body +:+ "'") +:+ rest)
      by now rewrite append_assoc.
    rewrite !length_append.
    replace (_ + _ - _) with (String.length (body +:+ "'"))
      by (rewrite length_append; lia).
    apply take_append.
Qed.

Lemma matchOperand_append (s m rest : string) :
  matchOperand s = Some (m, rest) → s = m +:+ rest.
Proof.
  unfold matchOperand.
  pose proof (span_append letter s) as H1.
  destruct (span letter s) as [letters s1]; simpl in H1.
  pose proof (span_append digit s1) as H2.
  destruct (span digit s1) as [digits s2]; simpl in H2.
  destruct letters; [discriminate | ]. destruct digits; [discriminate | ].
  intros [= <- <-]. now rewrite append_assoc, H2, H1.
Qed.

Lemma matchOperand_length (s m rest : string) :
  matchOperand s = Some (m, rest) → 2 ≤ String.length m.
Proof.
  unfold matchOperand.
  destruct (span letter s) as [letters s1].
  destruct (span digit s1) as [digits s2].
  destruct letters; [discriminate | ]. destruct digits; [discriminate | ].
  intros [= <- <-]. rewrite length_append. simpl. lia.
Qed.

(** [[A-Za-z]+[0-9]+] followed by a pattern [k] that matches after the
    longest runs. *)
Lemma operand_some (s m rest r : string) (k : string → option string) :
  matchOperand s = Some (m, rest) → k rest = Some r →
  matchK (Plus letter) s (fun s1 => matchK (Plus digit) s1 k) = Some r.
Proof.
  unfold matchOperand.
  destruct s as [|c s]; simpl; [discriminate | ].
  destruct (letter c); [ | now destruct (span digit (String c s))].
  destruct (span letter s) as [letters s1] eqn:H1.
  destruct (span digit s1) as [digits s2] eqn:H2.
  destruct digits as [|d digits]; [discriminate | ].
  intros [= <- <-] Hk.
  apply star_max. rewrite H1; simpl.
  destruct s1 as [|d' s1]; [discriminate | ]. simpl in H2.
  destruct (digit d'); [ | discriminate].
  apply star_max.
  destruct (span digit s1) as [digits' s2']. now injection H2 as _ _ ->.
Qed.

(** Without a run of letters followed by a digit, no backtracking helps. *)
Lemma operand_none (s : string) (k : string → option string) :
  matchOperand s = None →
  matchK (Plus letter) s (fun s1 => matchK (Plus digit) s1 k) = None.
Proof.
  unfold matchOperand.
  destruct s as [|c s]; [reflexivity | ]. simpl.
  destruct (letter c); [ | easy].
  pose proof (span_rest digit (snd (span letter s))) as Hrest.
  destruct (span letter s) as [letters s1] eqn:H1. simpl in Hrest.
  destruct (span digit s1) as [digits s2] eqn:H2.
  destruct digits as [|d digits]; [ | discriminate].
  intros _. apply star_none. intros a b Hs Ha.
  assert (Hb : startsIn digit b = false).
  { destruct (split_cases _ _ _ _ Hs Ha) as [-> | Hb].
    - rewrite H1; simpl. destruct s1 as [|d s1]; [reflexivity | ].
      simpl in *. destruct (digit d); [ | reflexivity].
      now destruct (span digit s1).
    - destruct b as [|d b]; [reflexivity | ]. now apply letter_not_digit. }
  destruct b as [|d b]; [reflexivity | ]. simpl in *. now rewrite Hb.
Qed.

Lemma take_match (m rest : string) :
  take (String.length (m +:+ rest) - String.length rest) (m +:+ rest) = m.
Proof.
  rewrite length_append.
  replace (_ + _ - _) with (String.length m) by lia. apply take_append.
Qed.

Lemma exec_cellRegex (s : string) : exec cellRegex s = matchCell s.
Proof.
  unfold exec, cellRegex, matchCell.
  change (matchK _ s Some) with
    (matchK (Plus letter) s (fun s1 => matchK (Plus digit) s1 (fun s2 =>
       matchK (Opt (Seq (Class (lit ":")) (Seq (Plus letter) (Plus digit)))) s2 Some))).
  destruct (matchOperand s) as [[first rest]|] eqn:Hfirst.
  2: { now rewrite operand_none. }
  pose proof (matchOperand_append _ _ _ Hfirst) as ->.
  assert (Hplain : ∀ r, matchK (Opt (Seq (Class (lit ":")) (Seq (Plus letter) (Plus digit)))) rest Some = Some r →
            match matchK (Plus letter) (first +:+ rest) (fun s1 => matchK (Plus digit) s1 (fun s2 =>
               matchK (Opt (Seq (Class (lit ":")) (Seq (Plus letter) (Plus digit)))) s2 Some)) with
            | Some rest0 => Some (take (String.length (first +:+ rest) - String.length rest0) (first +:+ rest))
            | None => None
            end = Some (take (String.length (first +:+ rest) - String.length r) (first +:+ rest))).
  { intros r Hr. now rewrite (operand_some _ _ _ _ _ Hfirst Hr). }
  destruct rest as [|c rest'].
  - rewrite (Hplain EmptyString eq_refl). now rewrite take_match.
  - destruct (lit ":" c) eqn:Hc.
    + apply Ascii.eqb_eq in Hc as ->.
      destruct (matchOperand rest') as [[second rest'']|] eqn:Hsecond.
      * pose proof (matchOperand_append _ _ _ Hsecond) as ->.
        rewrite (Hplain rest'').
        -- f_equal.
           replace (first +:+ String ":" (second +:+ rest''))
             with ((first +:+ ":" +:+ second) +:+ rest'')
             by now rewrite !append_assoc.
           apply take_match.
        -- simpl.
           pose proof (operand_some _ _ _ rest'' Some Hsecond eq_refl) as Hm.
           simpl in Hm. now rewrite Hm.
      * rewrite (Hplain (String ":" rest')); [now rewrite take_match | ].
        simpl. pose proof (operand_none rest' Some Hsecond) as Hm.
        simpl in Hm. now rewrite Hm.
    + rewrite (Hplain (String c rest')); [now rewrite take_match | ].
      cbn [matchK]. now rewrite Hc.
Qed.

Lemma matchString_append (s m : string) :
  matchString s = Some m → ∃ rest, s = m +:+ rest ∧ 1 ≤ String.length m.
Proof.
  unfold matchString.
  pose proof (span_append (notLit "'") s) as Happ.
  pose proof (span_rest (notLit "'") s) as Hrest.
  destruct (span (notLit "'") s) as [body rest]; simpl in *.
  destruct rest as [|c rest]; [discriminate | ].
  unfold notLit in Hrest. apply negb_false_iff, Ascii.eqb_eq in Hrest as ->.
  intros [= <-]. exists rest. split.
  - rewrite <- Happ, append_assoc. reflexivity.
  - rewrite length_append. simpl. lia.
Qed.

Lemma matchCell_append (s m : string) :
  matchCell s = Some m → ∃ rest, s = m +:+ rest ∧ 2 ≤ String.length m.
Proof.
  unfold matchCell.
  destruct (matchOperand s) as [[first rest]|] eqn:Hfirst; [ | discriminate].
  pose proof (matchOperand_append _ _ _ Hfirst) as ->.
  pose proof (matchOperand_length _ _ _ Hfirst) as Hlen.
  destruct rest as [|c rest']; [intros [= <-]; eauto | ].
  destruct (lit ":" c) eqn:Hc; [ | intros [= <-]; eauto].
  apply Ascii.eqb_eq in Hc as ->.
  destruct (matchOperand rest') as [[second rest'']|] eqn:Hsecond;
    [ | intros [= <-]; eauto].
  pose proof (matchOperand_append _ _ _ Hsecond) as ->.
  intros [= <-]. exists rest''. split.
  - now rewrite !append_assoc.
  - rewrite length_append. lia.
Qed.

(* ===================================================================== *)
(** ** The scan of the lexer-free mode *)
(* ===================================================================== *)

(** *** Fuel *)

Lemma match_in_range (code m rest : string) (x : nat) :
  slice x code = m +:+ rest → 1 ≤ String.length m →
  x + String.length m ≤ String.length code.
Proof.
  intros Hs Hm.
  pose proof (length_slice x code) as Hlen.
  rewrite Hs, length_append in Hlen. lia.
Qed.

Lemma doWhile_mono (fuel fuel' : nat) (code : string) (x : nat) (hash : string)
    (r : Answer (nat * string)) :
  doWhile fuel code x hash = Some r → fuel ≤ fuel' →
  doWhile fuel' code x hash = Some r.
Proof.
  revert fuel' x hash; induction fuel as [|fuel IH]; intros fuel' x hash H Hle;
    [discriminate | ].
  destruct fuel' as [|fuel']; [lia | ]. simpl in *.
  destruct (exec stringRegex (slice x code)) as [m|]; [ | exact H].
  destruct (decide _); [ | exact H]. apply IH; [exact H | lia].
Qed.

Lemma doWhile_total (fuel : nat) (code : string) (x : nat) (hash : string) :
  String.length code - x < fuel → ∃ r, doWhile fuel code x hash = Some r.
Proof.
  revert x hash; induction fuel as [|fuel IH]; intros x hash Hf; [lia | ].
  simpl. rewrite exec_stringRegex.
  destruct (matchString (slice x code)) as [m|] eqn:Hm; [ | eauto].
  destruct (matchString_append _ _ Hm) as (rest & Hs & Hlen).
  pose proof (match_in_range _ _ _ _ Hs Hlen).
  destruct (decide _); [ | eauto]. apply IH. lia.
Qed.

Lemma doWhile_progress (fuel : nat) (code : string) (x : nat) (hash : string)
    (x' : nat) (hash' : string) :
  doWhile fuel code x hash = Some (Returns (x', hash')) →
  x < x' ∧ x' ≤ String.length code.
Proof.
  revert x hash; induction fuel as [|fuel IH]; intros x hash H; [discriminate | ].
  simpl in H. rewrite exec_stringRegex in H.
  destruct (matchString (slice x code)) as [m|] eqn:Hm; [ | discriminate].
  destruct (matchString_append _ _ Hm) as (rest & Hs & Hlen).
  pose proof (match_in_range _ _ _ _ Hs Hlen).
  destruct (decide _).
  - apply IH in H. lia.
  - injection H as <- <-. lia.
Qed.

Lemma whileLoop_mono (fuel fuel' : nat) (code : string) (x : nat)
    (hash : string) (addresses : list string) (r : Answer HashAndAddresses) :
  whileLoop fuel code x hash addresses = Some r → fuel ≤ fuel' →
  whileLoop fuel' code x hash addresses = Some r.
Proof.
  revert fuel' x hash addresses; induction fuel as [|fuel IH];
    intros fuel' x hash addresses H Hle; [discriminate | ].
  destruct fuel' as [|fuel']; [lia | ]. simpl in *.
  destruct (x <? String.length code); [ | exact H].
  destruct (decide _).
  - destruct (doWhile fuel code _ _) as [[[x' hash']|msg]|] eqn:Hdo; [ | | discriminate].
    + rewrite (doWhile_mono _ fuel' _ _ _ _ Hdo) by lia. apply IH; [exact H | lia].
    + rewrite (doWhile_mono _ fuel' _ _ _ _ Hdo) by lia. exact H.
  - destruct (exec cellRegex _); (apply IH; [exact H | lia]).
Qed.

Lemma whileLoop_total (fuel : nat) (code : string) (x : nat) (hash : string)
    (addresses : list string) :
  String.length code - x < fuel →
  ∃ r, whileLoop fuel code x hash addresses = Some r.
Proof.
  revert x hash addresses; induction fuel as [|fuel IH];
    intros x hash addresses Hf; [lia | ].
  simpl. destruct (Nat.ltb_spec x (String.length code)) as [Hx|Hx]; [ | eauto].
  destruct (decide _).
  - destruct (doWhile_total fuel code (x + 1) (concat hash (charString code x)))
      as [[[x' hash']|msg] Hdo]; [lia | | ]; rewrite Hdo; [ | eauto].
    apply doWhile_progress in Hdo. apply IH. lia.
  - rewrite exec_cellRegex.
    destruct (matchCell (slice x code)) as [m|] eqn:Hm; [ | apply IH; lia].
    destruct (matchCell_append _ _ Hm) as (rest & Hs & Hlen).
    apply IH. lia.
Qed.

(** The fuel of [scanFrom] is enough: more changes nothing. *)
Lemma scanFrom_fuel (fuel : nat) (code : string) (x : nat) (hash : string)
    (addresses : list string) :
  String.length code - x < fuel →
  whileLoop fuel code x hash addresses = scanFrom code x hash addresses.
Proof.
  intros Hf. unfold scanFrom.
  destruct (whileLoop_total (S (String.length code - x)) code x hash addresses)
    as [r Hr]; [lia | ].
  rewrite Hr. apply (whileLoop_mono _ _ _ _ _ _ _ Hr). lia.
Qed.

(** The lexer-free mode always ends: the fuel never runs out, and the last
    case of [computeHashAndExtractAddressesFromLexer] is never taken. *)
Lemma scanFrom_total (code : string) (x : nat) (hash : string)
    (addresses : list string) :
  ∃ answer, scanFrom code x hash addresses = Some answer.
Proof. apply whileLoop_total. lia. Qed.

Lemma stringFrom_fuel (fuel : nat) (code : string) (x : nat) (hash : string) :
  String.length code - x < fuel →
  doWhile fuel code x hash = stringFrom code x hash.
Proof.
  intros Hf. unfold stringFrom.
  destruct (doWhile_total (S (String.length code - x)) code x hash)
    as [r Hr]; [lia | ].
  rewrite Hr. apply (doWhile_mono _ _ _ _ _ _ Hr). lia.
Qed.

(** *** One turn of each loop *)

Lemma scanFrom_end (code : string) (x : nat) (hash : string)
    (addresses : list string) :
  String.length code ≤ x →
  scanFrom code x hash addresses
  = Some (Returns {| addresses := addresses; hash := hash |}).
Proof.
  intros Hx. unfold scanFrom; simpl.
  now destruct (Nat.ltb_spec x (String.length code)); [lia | ].
Qed.

Lemma scanFrom_cell (code : string) (x : nat) (hash : string)
    (addresses : list string) (m : string) :
  charAt code x ≠ Some "'"%char → matchCell (slice x code) = Some m →
  scanFrom code x hash addresses
  = scanFrom code (x + String.length m) (concat hash "#") (addresses ++ [m]).
Proof.
  intros Hq Hm.
  destruct (matchCell_append _ _ Hm) as (rest & Hs & Hlen).
  assert (x + String.length m ≤ String.length code)
    by (apply (match_in_range _ _ rest); [exact Hs | lia]).
  unfold scanFrom at 1; simpl.
  destruct (Nat.ltb_spec x (String.length code)); [ | lia].
  destruct (decide _); [contradiction | ].
  rewrite exec_cellRegex, Hm. apply scanFrom_fuel. lia.
Qed.

Lemma scanFrom_char (code : string) (x : nat) (hash : string)
    (addresses : list string) (c : ascii) :
  charAt code x = Some c → c ≠ "'"%char → matchCell (slice x code) = None →
  scanFrom code x hash addresses
  = scanFrom code (x + 1) (concat hash (String c EmptyString)) addresses.
Proof.
  intros Hc Hq Hm. pose proof (charAt_Some_lt _ _ _ Hc).
  unfold scanFrom at 1; simpl.
  destruct (Nat.ltb_spec x (String.length code)); [ | lia].
  destruct (decide _) as [Heq|_]; [congruence | ].
  rewrite exec_cellRegex, Hm. unfold charString. rewrite Hc.
  apply scanFrom_fuel. lia.
Qed.

Lemma scanFrom_quote (code : string) (x : nat) (hash : string)
    (addresses : list string) :
  charAt code x = Some "'"%char →
  scanFrom code x hash addresses
  = match stringFrom code (x + 1) (concat hash "'") with
    | Some (Returns (x', hash')) => scanFrom code x' hash' addresses
    | Some (Throws e) => Some (Throws e)
    | None => None
    end.
Proof.
  intros Hc. pose proof (charAt_Some_lt _ _ _ Hc).
  unfold scanFrom at 1; simpl.
  destruct (Nat.ltb_spec x (String.length code)); [ | lia].
  destruct (decide _); [ | contradiction].
  unfold charString. rewrite Hc.
  rewrite stringFrom_fuel by lia.
  destruct (stringFrom code (x + 1) _) as [[[x' hash']|msg]|] eqn:Hdo; try reflexivity.
  unfold stringFrom in Hdo. apply doWhile_progress in Hdo.
  apply scanFrom_fuel. lia.
Qed.

Lemma stringFrom_step (code : string) (x : nat) (hash m : string) :
  matchString (slice x code) = Some m →
  stringFrom code x hash
  = if decide (charAt code (x + String.length m - 2) = Some "\"%char)
    then stringFrom code (x + String.length m) (concat hash m)
    else Some (Returns (x + String.length m, concat hash m)).
Proof.
  intros Hm.
  destruct (matchString_append _ _ Hm) as (rest & Hs & Hlen).
  pose proof (match_in_range _ _ _ _ Hs Hlen).
  unfold stringFrom at 1; simpl. rewrite exec_stringRegex, Hm.
  destruct (decide _); [ | reflexivity]. apply stringFrom_fuel. lia.
Qed.

Lemma stringFrom_throws (code : string) (x : nat) (hash : string) :
  matchString (slice x code) = None →
  stringFrom code x hash = Some (Throws "Unexpected parse error").
Proof. intros Hm. unfold stringFrom; simpl. now rewrite exec_stringRegex, Hm. Qed.

(** *** Quoted strings *)

Lemma closes_no_quote (prev : ascii) (s : string) :
  allOf (notLit "'") s = true → closes prev s = false.
Proof.
  revert prev; induction s as [|c s IH]; intros prev H; [reflexivity | ].
  simpl in *. apply andb_prop in H as [Hc Hs]. unfold notLit in Hc.
  apply negb_true_iff in Hc. rewrite Hc. now apply IH.
Qed.

Lemma closes_split (prev : ascii) (seg s : string) :
  allOf (notLit "'") seg = true →
  closes prev (seg +:+ String "'" s)
  = if Ascii.eqb (lastChar prev seg) "\" then closes "'" s
    else match s with EmptyString => true | String _ _ => false end.
Proof.
  revert prev; induction seg as [|c seg IH]; intros prev H.
  - reflexivity.
  - rewrite append_cons. simpl in *. apply andb_prop in H as [Hc Hs].
    unfold notLit in Hc. apply negb_true_iff in Hc. rewrite Hc. now apply IH.
Qed.

Lemma charAt_before_quote (code seg rest : string) (x : nat) (prev : ascii) :
  1 ≤ x → charAt code (x - 1) = Some prev →
  slice x code = seg +:+ String "'" rest →
  charAt code (x + String.length (seg +:+ "'") - 2) = Some (lastChar prev seg).
Proof.
  revert x prev; induction seg as [|c seg IH]; intros x prev Hx Hprev Hs.
  - simpl. now replace (x + 1 - 2) with (x - 1) by lia.
  - rewrite append_cons in Hs. apply slice_head in Hs as [Hc Hs].
    rewrite append_cons. simpl.
    replace (x + S (String.length (seg +:+ "'")) - 2)
      with (S x + String.length (seg +:+ "'") - 2) by lia.
    apply IH; [lia | | exact Hs].
    now replace (S x - 1) with x by lia.
Qed.

Lemma matchString_first_quote (seg rest : string) :
  allOf (notLit "'") seg = true →
  matchString (seg +:+ String "'" rest) = Some (seg +:+ "'").
Proof.
  intros Hseg. unfold matchString.
  rewrite (span_unique _ seg (String "'" rest) Hseg); reflexivity.
Qed.

(** The inner loop copies a quoted string up to its closing quote. *)
Lemma stringFrom_closes (n : nat) :
  ∀ (lit code rest : string) (x : nat) (hash : string) (prev : ascii),
    String.length lit ≤ n → 1 ≤ x → charAt code (x - 1) = Some prev →
    slice x code = lit +:+ rest → closes prev lit = true →
    stringFrom code x hash
    = Some (Returns (x + String.length lit, concat hash lit)).
Proof.
  induction n as [|n IH]; intros lit code rest x hash prev Hn Hx Hprev Hs Hcl.
  { destruct lit; [discriminate | simpl in Hn; lia]. }
  pose proof (span_append (notLit "'") lit) as Happ.
  pose proof (span_allOf (notLit "'") lit) as Hseg.
  pose proof (span_rest (notLit "'") lit) as Hrest.
  destruct (span (notLit "'") lit) as [seg r]; simpl in *.
  destruct r as [|q lit'].
  { rewrite append_nil_r in Happ. subst seg.
    now rewrite closes_no_quote in Hcl. }
  unfold notLit in Hrest. apply negb_false_iff, Ascii.eqb_eq in Hrest as ->.
  subst lit. rewrite closes_split in Hcl by exact Hseg.
  rewrite append_assoc in Hs.
  change (String "'" lit' +:+ rest) with (String "'" (lit' +:+ rest)) in Hs.
  pose proof (charAt_before_quote _ _ _ _ _ Hx Hprev Hs) as Hlast.
  assert (Hs' : slice x code = (seg +:+ "'") +:+ (lit' +:+ rest))
    by (rewrite Hs, append_assoc; reflexivity).
  rewrite (stringFrom_step _ _ _ (seg +:+ "'"))
    by (rewrite Hs; now apply matchString_first_quote).
  rewrite Hlast.
  assert (Hlen : String.length (seg +:+ String "'" lit')
                 = String.length (seg +:+ "'") + String.length lit')
    by (rewrite !length_append; simpl; lia).
  destruct (Ascii.eqb (lastChar prev seg) "\") eqn:Hesc.
  - apply Ascii.eqb_eq in Hesc. rewrite Hesc.
    destruct (decide _); [ | contradiction].
    rewrite (IH lit' code rest _ _ "'"%char).
    + rewrite Hlen, Nat.add_assoc. unfold concat.
      rewrite !append_assoc. reflexivity.
    + rewrite length_append in Hn. simpl in Hn. lia.
    + rewrite length_append. simpl. lia.
    + rewrite length_append. simpl.
      replace (x + (String.length seg + 1) - 1) with (x + String.length seg) by lia.
      rewrite <- charAt_slice, Hs, <- (Nat.add_0_r (String.length seg)).
      now rewrite charAt_append_r.
    + now apply slice_skip in Hs'.
    + exact Hcl.
  - destruct lit'; [ | discriminate].
    destruct (decide _) as [Heq|_].
    + injection Heq as Heq. apply Ascii.eqb_neq in Hesc. contradiction.
    + reflexivity.
Qed.

(** *** Token streams that spell a text out *)

Lemma letter_not_quote (c : ascii) : letter c = true → c ≠ "'"%char.
Proof. intros H ->. discriminate H. Qed.

Lemma isOperand_spec (img after : string) :
  isOperand img = true → startsIn digit after = false →
  matchOperand (img +:+ after) = Some (img, after)
  ∧ ∃ c img', img = String c img' ∧ letter c = true.
Proof.
  unfold isOperand, matchOperand. intros H Hafter.
  pose proof (span_append letter img) as H1.
  pose proof (span_allOf letter img) as Hl.
  pose proof (span_rest letter img) as Hr.
  destruct (span letter img) as [letters s1]; simpl in *.
  pose proof (span_append digit s1) as H2.
  pose proof (span_allOf digit s1) as Hd.
  destruct (span digit s1) as [digits s2]; simpl in *.
  destruct letters as [|c letters]; [discriminate | ].
  destruct digits as [|d digits]; [discriminate | ].
  destruct s2; [ | discriminate].
  rewrite append_nil_r in H2. subst s1 img.
  rewrite append_assoc, (span_unique letter _ _ Hl); [ | exact Hr].
  rewrite (span_unique digit _ _ Hd Hafter).
  split; [reflexivity | ]. rewrite append_cons. simpl in Hl.
  apply andb_prop in Hl as [Hc _]. eauto.
Qed.

Lemma endsCell_digit (after : string) :
  endsCell after = true → startsIn digit after = false.
Proof.
  destruct after as [|c after]; [reflexivity | ]. simpl.
  destruct (lit ":" c) eqn:Hc.
  - apply Ascii.eqb_eq in Hc as ->. reflexivity.
  - now intros ->%negb_true_iff.
Qed.

(** A single cell, followed by nothing that lengthens it, is what
    [cellRegex] matches. *)
Lemma matchCell_single (img after : string) :
  isOperand img = true → endsCell after = true →
  matchCell (img +:+ after) = Some img.
Proof.
  intros Himg Hafter. unfold matchCell.
  destruct (isOperand_spec img after Himg (endsCell_digit _ Hafter)) as [-> _].
  destruct after as [|c after]; [reflexivity | ]. simpl in Hafter.
  destruct (lit ":" c); [ | reflexivity].
  now destruct (matchOperand after).
Qed.

(** Two cells around a colon are matched as one range. *)
Lemma matchCell_range (img1 img2 after : string) :
  isOperand img1 = true → isOperand img2 = true →
  startsIn digit after = false →
  matchCell (img1 +:+ ":" +:+ img2 +:+ after) = Some (img1 +:+ ":" +:+ img2).
Proof.
  intros H1 H2 Hafter. unfold matchCell.
  destruct (isOperand_spec img1 (":" +:+ img2 +:+ after) H1 eq_refl) as [-> _].
  change (":" +:+ img2 +:+ after) with (String ":" (img2 +:+ after)).
  cbn [lit Ascii.eqb]. simpl.
  now destruct (isOperand_spec img2 after H2 Hafter) as [-> _].
Qed.

(** Text the cell pattern does not touch is copied as it is. *)
Lemma scanFrom_verbatim (img : string) :
  ∀ (pre after hash : string) (addresses : list string),
    verbatim img after = true →
    scanFrom (pre +:+ img +:+ after) (String.length pre) hash addresses
    = scanFrom (pre +:+ img +:+ after) (String.length pre + String.length img)
        (concat hash img) addresses.
Proof.
  induction img as [|c img IH]; intros pre after hash addresses Hv.
  - simpl. unfold concat. now rewrite Nat.add_0_r, append_nil_r.
  - cbn [verbatim] in Hv.
    apply andb_prop in Hv as [Hv Hrest]. apply andb_prop in Hv as [Hq Hm].
    unfold notLit in Hq. apply negb_true_iff, Ascii.eqb_neq in Hq.
    assert (Hs : slice (String.length pre) (pre +:+ String c img +:+ after)
                 = String c img +:+ after) by apply slice_append.
    destruct (matchCell (String c img +:+ after)) eqn:Hcell; [discriminate | ].
    rewrite (scanFrom_char _ _ _ _ c); [ | | exact Hq | now rewrite Hs].
    2: { now apply (slice_head _ _ c (img +:+ after)). }
    replace (pre +:+ String c img +:+ after)
      with ((pre +:+ String c EmptyString) +:+ img +:+ after)
      by (rewrite append_assoc; reflexivity).
    replace (String.length pre + 1)
      with (String.length (pre +:+ String c EmptyString))
      by (rewrite length_append; reflexivity).
    rewrite IH by exact Hrest.
    rewrite length_append. simpl. unfold concat.
    f_equal; [lia | now rewrite append_assoc].
Qed.

(** *** The scan, token by token *)

Lemma scanFrom_append (pre img after : string) (x : nat) (hash : string)
    (addresses : list string) :
  x = String.length pre + String.length img →
  scanFrom (pre +:+ img +:+ after) x hash addresses
  = scanFrom ((pre +:+ img) +:+ after) (String.length (pre +:+ img)) hash addresses.
Proof. intros ->. now rewrite append_assoc, length_append. Qed.

(** A quoted string is copied up to its closing quote, whatever it holds. *)
Lemma scanFrom_string (code lit rest : string) (x : nat) (hash : string)
    (addresses : list string) :
  slice x code = String "'" lit +:+ rest → closes "'" lit = true →
  scanFrom code x hash addresses
  = scanFrom code (x + 1 + String.length lit) (hash +:+ String "'" lit) addresses.
Proof.
  intros Hs Hcl.
  apply (slice_head _ _ "'"%char (lit +:+ rest)) in Hs as [Hq Hs].
  rewrite scanFrom_quote by exact Hq.
  rewrite (stringFrom_closes (String.length lit) lit code rest _ _ "'"%char).
  - unfold concat. now rewrite append_assoc.
  - lia.
  - lia.
  - now replace (x + 1 - 1) with x by lia.
  - now rewrite Nat.add_1_r.
  - exact Hcl.
Qed.

Lemma scanFrom_plain (pre img after hash : string) (addresses : list string) :
  plain img after = true →
  scanFrom (pre +:+ img +:+ after) (String.length pre) hash addresses
  = scanFrom ((pre +:+ img) +:+ after) (String.length (pre +:+ img))
      (concat hash img) addresses.
Proof.
  intros Hp. destruct img as [|c lit].
  - unfold concat. rewrite !append_nil_r. reflexivity.
  - unfold plain in Hp. destruct (Ascii.eqb c "'") eqn:Hc.
    + apply Ascii.eqb_eq in Hc as ->.
      rewrite (scanFrom_string _ lit after) by (apply slice_append || exact Hp).
      apply scanFrom_append. simpl. lia.
    + rewrite scanFrom_verbatim by exact Hp. now apply scanFrom_append.
Qed.

Lemma scanFrom_single (pre img after hash : string) (addresses : list string) :
  isOperand img = true → endsCell after = true →
  scanFrom (pre +:+ img +:+ after) (String.length pre) hash addresses
  = scanFrom ((pre +:+ img) +:+ after) (String.length (pre +:+ img))
      (concat hash "#") (addresses ++ [img]).
Proof.
  intros Himg Hafter.
  pose proof (slice_append pre (img +:+ after)) as Hs.
  destruct (isOperand_spec img after Himg (endsCell_digit _ Hafter))
    as (_ & c & img' & -> & Hc).
  rewrite (scanFrom_cell _ _ _ _ (String c img')).
  - now apply scanFrom_append.
  - apply (slice_head _ _ c (img' +:+ after)) in Hs as [-> _].
    intros [= ->]. discriminate Hc.
  - rewrite Hs. now apply matchCell_single.
Qed.

Lemma scanFrom_range (pre img1 img2 after hash : string)
    (addresses : list string) :
  isOperand img1 = true → isOperand img2 = true →
  startsIn digit after = false →
  scanFrom (pre +:+ img1 +:+ ":" +:+ img2 +:+ after) (String.length pre)
    hash addresses
  = scanFrom ((pre +:+ img1 +:+ ":" +:+ img2) +:+ after)
      (String.length (pre +:+ img1 +:+ ":" +:+ img2))
      (concat hash "#") (addresses ++ [img1 +:+ ":" +:+ img2]).
Proof.
  intros H1 H2 Hafter.
  pose proof (slice_append pre (img1 +:+ ":" +:+ img2 +:+ after)) as Hs.
  destruct (isOperand_spec img1 EmptyString H1 eq_refl)
    as (_ & c & img' & -> & Hc).
  rewrite (scanFrom_cell _ _ _ _ (String c img' +:+ ":" +:+ img2)).
  - now rewrite !append_assoc, !length_append.
  - apply (slice_head _ _ c (img' +:+ ":" +:+ img2 +:+ after)) in Hs as [-> _].
    intros [= ->]. discriminate Hc.
  - rewrite Hs. now apply matchCell_range.
Qed.

(** On a stream that spells its text out, the scan of the text arrives at
    what the loop over the tokens computes. *)
Lemma scanFrom_tokens (n : nat) :
  ∀ (tokens : list IToken) (pre hash : string) (addresses : list string),
    length tokens ≤ n → lexable tokens = true →
    scanFrom (pre +:+ textOf tokens) (String.length pre) hash addresses
    = Some (Returns (tokensLoop tokens addresses hash)).
Proof.
  induction n as [|n IH]; intros tokens pre hash addresses Hn Hlex.
  { destruct tokens; [ | simpl in Hn; lia].
    apply scanFrom_end. simpl. rewrite append_nil_r. lia. }
  destruct tokens as [|token rest].
  { apply scanFrom_end. simpl. rewrite append_nil_r. lia. }
  simpl in Hn. cbn [lexable tokensLoop textOf] in *.
  destruct (isNamed "RelativeCell" token).
  - assert (Hsingle : isOperand (image token) && endsCell (textOf rest)
                      && lexable rest = true →
              scanFrom (pre +:+ image token +:+ textOf rest)
                (String.length pre) hash addresses
              = Some (Returns (tokensLoop rest (addresses ++ [image token])
                                 (concat hash "#")))).
    { intros H. apply andb_prop in H as [H Hrest].
      apply andb_prop in H as [Himg Hafter].
      rewrite scanFrom_single by assumption. apply IH; [lia | exact Hrest]. }
    destruct rest as [|t1 [|t2 rest']]; [now apply Hsingle .. | ].
    destruct (isNamed "RangeSeparator" t1 && isNamed "RelativeCell" t2);
      [ | now apply Hsingle].
    clear Hsingle. cbn [textOf].
    apply andb_prop in Hlex as [Hlex Hrest].
    apply andb_prop in Hlex as [Hlex Hafter].
    apply andb_prop in Hlex as [Hlex H2].
    apply andb_prop in Hlex as [H1 Hsep].
    apply String.eqb_eq in Hsep. rewrite Hsep.
    apply negb_true_iff in Hafter.
    rewrite scanFrom_range by assumption.
    apply IH; [simpl in Hn; lia | exact Hrest].
  - apply andb_prop in Hlex as [Hp Hrest].
    rewrite scanFrom_plain by exact Hp. apply IH; [lia | exact Hrest].
Qed.

(** The lexer-free mode on a stream that spells its text out. *)
Lemma fromLexer_tokens (tokens0 : list IToken) :
  lexable tokens0 = true →
  computeHashAndExtractAddressesFromLexer (textOf tokens0)
  = Returns (computeHashAndExtractAddresses tokens0).
Proof.
  intros Hlex. unfold computeHashAndExtractAddressesFromLexer.
  pose proof (scanFrom_tokens (length tokens0) tokens0 EmptyString
                EmptyString [] (le_n _) Hlex) as H.
  rewrite append_nil_l in H. simpl in H. now rewrite H.
Qed.

(** *** A text and what stands before and behind it *)

Lemma slice_append_l (x : nat) (p s : string) :
  x ≤ String.length p → slice x (p +:+ s) = slice x p +:+ s.
Proof.
  revert p; induction x as [|x IH]; intros p Hx; [now rewrite !slice_0 | ].
  destruct p as [|c p]; simpl in Hx; [lia | ].
  rewrite append_cons. simpl. apply IH. lia.
Qed.

Lemma span_suffix (p : ascii → bool) (t : string) (q : ascii) (s : string) :
  p q = false →
  span p (t +:+ String q s) = (fst (span p t), snd (span p t) +:+ String q s).
Proof.
  intros Hq. induction t as [|c t IH].
  - simpl. now rewrite Hq.
  - rewrite append_cons. simpl. destruct (p c); [ | reflexivity].
    rewrite IH. now destruct (span p t).
Qed.

Lemma matchOperand_suffix (t : string) (q : ascii) (s : string) :
  letter q = false → digit q = false →
  matchOperand (t +:+ String q s)
  = match matchOperand t with
    | Some (m, r) => Some (m, r +:+ String q s)
    | None => None
    end.
Proof.
  intros Hl Hd. unfold matchOperand. rewrite (span_suffix letter) by exact Hl.
  destruct (span letter t) as [letters s1]. simpl.
  rewrite (span_suffix digit) by exact Hd.
  destruct (span digit s1) as [digits s2]. simpl.
  destruct letters, digits; reflexivity.
Qed.

(** A quote ends what [cellRegex] can match. *)
Lemma matchCell_suffix (t s : string) :
  matchCell (t +:+ String "'" s) = matchCell t.
Proof.
  unfold matchCell. rewrite matchOperand_suffix by reflexivity.
  destruct (matchOperand t) as [[first r]|]; [ | reflexivity].
  destruct r as [|c r']; [reflexivity | ].
  rewrite append_cons. destruct (lit ":" c); [ | reflexivity].
  rewrite matchOperand_suffix by reflexivity.
  now destruct (matchOperand r') as [[second r2]|].
Qed.

Lemma matchString_suffix (t s m : string) :
  matchString t = Some m → matchString (t +:+ s) = Some m.
Proof.
  intros Hm. destruct (matchString_append _ _ Hm) as (rest & -> & _).
  unfold matchString in Hm.
  pose proof (span_append (notLit "'") (m +:+ rest)) as Happ.
  pose proof (span_allOf (notLit "'") (m +:+ rest)) as Hseg.
  pose proof (span_rest (notLit "'") (m +:+ rest)) as Hrest.
  destruct (span (notLit "'") (m +:+ rest)) as [seg r]; simpl in *.
  destruct r as [|q r]; [discriminate | ]. injection Hm as <-.
  unfold notLit in Hrest. apply negb_false_iff, Ascii.eqb_eq in Hrest as ->.
  rewrite <- Happ, !append_assoc.
  change (("'" +:+ rest) +:+ s) with (String "'" (rest +:+ s)).
  change (String "'" r +:+ s) with (String "'" (r +:+ s)).
  now apply matchString_first_quote.
Qed.

(** *** A text and what follows it *)

(** The inner loop that ends inside [pre] does the same with more text
    behind [pre]. *)
Lemma stringFrom_prefix (n : nat) :
  ∀ (pre s : string) (x : nat) (hash : string) (x' : nat) (hash' : string),
    String.length pre - x ≤ n →
    stringFrom pre x hash = Some (Returns (x', hash')) →
    stringFrom (pre +:+ s) x hash = Some (Returns (x', hash')).
Proof.
  induction n as [|n IH]; intros pre s x hash x' hash' Hn H;
    (destruct (matchString (slice x pre)) as [m|] eqn:Hm;
     [ | rewrite (stringFrom_throws _ _ _ Hm) in H; discriminate]);
    destruct (matchString_append _ _ Hm) as (rest & Hs & Hlen);
    pose proof (match_in_range _ _ _ _ Hs Hlen) as Hin; [lia | ].
  rewrite (stringFrom_step _ _ _ _ Hm) in H.
  rewrite (stringFrom_step _ _ _ m)
    by (rewrite slice_append_l by lia; now apply matchString_suffix).
  rewrite charAt_append_l by lia.
  destruct (decide _); [ | exact H]. apply IH; [lia | exact H].
Qed.

(** The scan of [pre], when it returns, is how the scan of [pre] followed
    by a quote begins: it comes to stand at that quote with the hash and
    the addresses of [pre]. *)
Lemma scanFrom_prefix (n : nat) :
  ∀ (pre s : string) (x : nat) (hash : string) (addrs : list string)
    (r : HashAndAddresses),
    String.length pre - x ≤ n → x ≤ String.length pre →
    scanFrom pre x hash addrs = Some (Returns r) →
    scanFrom (pre +:+ String "'" s) x hash addrs
    = scanFrom (pre +:+ String "'" s) (String.length pre)
        (ParserWithCaching.hash r) (addresses r).
Proof.
  induction n as [|n IH]; intros pre s x hash addrs r Hn Hx H;
    (destruct (Nat.eq_dec x (String.length pre)) as [->|Hne];
     [rewrite scanFrom_end in H by lia; now injection H as <- | ]);
    [lia | ].
  assert (Hlt : x < String.length pre) by lia.
  destruct (charAt_lt _ _ Hlt) as [c Hc].
  assert (Hc' : charAt (pre +:+ String "'" s) x = Some c)
    by now rewrite charAt_append_l.
  assert (Hslice : slice x (pre +:+ String "'" s)
                   = slice x pre +:+ String "'" s)
    by (apply slice_append_l; lia).
  destruct (decide (c = "'"%char)) as [->|Hq].
  - rewrite scanFrom_quote in H by exact Hc.
    destruct (stringFrom pre (x + 1) (concat hash "'"))
      as [[[x' hash']|e]|] eqn:Hd; try discriminate.
    pose proof Hd as Hp. unfold stringFrom in Hp. apply doWhile_progress in Hp.
    rewrite scanFrom_quote by exact Hc'.
    rewrite (stringFrom_prefix (String.length pre) pre (String "'" s) (x + 1) _
               _ _ (Nat.le_sub_l _ _) Hd).
    apply IH; [lia | lia | exact H].
  - assert (Hq' : charAt pre x ≠ Some "'"%char) by congruence.
    assert (Hq'' : charAt (pre +:+ String "'" s) x ≠ Some "'"%char)
      by congruence.
    destruct (matchCell (slice x pre)) as [m|] eqn:Hm.
    + destruct (matchCell_append _ _ Hm) as (rest & Hs & Hlen).
      assert (Hin : x + String.length m ≤ String.length pre)
        by (apply (match_in_range _ _ _ _ Hs); lia).
      rewrite (scanFrom_cell _ _ _ _ _ Hq' Hm) in H.
      rewrite (scanFrom_cell _ _ _ _ m Hq'')
        by (rewrite Hslice, matchCell_suffix; exact Hm).
      apply IH; [lia | lia | exact H].
    + rewrite (scanFrom_char _ _ _ _ _ Hc Hq Hm) in H.
      rewrite (scanFrom_char _ _ _ _ _ Hc' Hq)
        by (rewrite Hslice, matchCell_suffix; exact Hm).
      apply IH; [lia | lia | exact H].
Qed.

Lemma slice_append_r (p s : string) (y : nat) :
  slice (String.length p + y) (p +:+ s) = slice y s.
Proof. now rewrite <- slice_slice, slice_append. Qed.

(** Each loop does behind [p] what it does without [p]: it looks back at
    most two characters, and not beyond the quote it has started from. *)
Lemma stringFrom_shift (n : nat) :
  ∀ (p s : string) (y : nat) (hash : string),
    String.length s - y ≤ n → 1 ≤ y →
    stringFrom (p +:+ s) (String.length p + y) hash
    = match stringFrom s y hash with
      | Some (Returns (x', hash')) =>
          Some (Returns (String.length p + x', hash'))
      | other => other
      end.
Proof.
  induction n as [|n IH]; intros p s y hash Hn Hy;
    (destruct (matchString (slice y s)) as [m|] eqn:Hm;
     [ | rewrite !stringFrom_throws by (now rewrite ?slice_append_r);
         reflexivity]);
    destruct (matchString_append _ _ Hm) as (rest & Hs & Hlen);
    pose proof (match_in_range _ _ _ _ Hs Hlen) as Hin; [lia | ].
  rewrite (stringFrom_step s _ _ _ Hm).
  rewrite (stringFrom_step (p +:+ s) _ _ m) by (now rewrite slice_append_r).
  replace (String.length p + y + String.length m - 2)
    with (String.length p + (y + String.length m - 2)) by lia.
  rewrite charAt_append_r, <- Nat.add_assoc.
  destruct (decide _); [ | reflexivity]. apply IH; lia.
Qed.

Lemma scanFrom_shift (n : nat) :
  ∀ (p s : string) (y : nat) (hash : string) (addrs : list string),
    String.length s - y ≤ n →
    scanFrom (p +:+ s) (String.length p + y) hash addrs
    = scanFrom s y hash addrs.
Proof.
  induction n as [|n IH]; intros p s y hash addrs Hn;
    (destruct (Nat.le_gt_cases (String.length s) y) as [Hle|Hlt];
     [rewrite !scanFrom_end by (rewrite ?length_append; lia); reflexivity | ]);
    [lia | ].
  destruct (charAt_lt _ _ Hlt) as [c Hc].
  assert (Hc' : charAt (p +:+ s) (String.length p + y) = Some c)
    by now rewrite charAt_append_r.
  destruct (decide (c = "'"%char)) as [->|Hq].
  - rewrite (scanFrom_quote s) by exact Hc.
    rewrite (scanFrom_quote (p +:+ s)) by exact Hc'.
    rewrite <- Nat.add_assoc, (stringFrom_shift (String.length s)) by lia.
    destruct (stringFrom s (y + 1) (concat hash "'"))
      as [[[x' hash']|e]|] eqn:Hd; try reflexivity.
    unfold stringFrom in Hd. apply doWhile_progress in Hd.
    apply IH. lia.
  - assert (Hq' : charAt s y ≠ Some "'"%char) by congruence.
    assert (Hq'' : charAt (p +:+ s) (String.length p + y) ≠ Some "'"%char)
      by congruence.
    destruct (matchCell (slice y s)) as [m|] eqn:Hm.
    + destruct (matchCell_append _ _ Hm) as (rest & Hs & Hlen).
      rewrite (scanFrom_cell s _ _ _ _ Hq' Hm).
      rewrite (scanFrom_cell (p +:+ s) _ _ _ m Hq'')
        by (now rewrite slice_append_r).
      rewrite <- Nat.add_assoc. apply IH. lia.
    + rewrite (scanFrom_char s _ _ _ _ Hc Hq Hm).
      rewrite (scanFrom_char (p +:+ s) _ _ _ _ Hc' Hq)
        by (now rewrite slice_append_r).
      rewrite <- Nat.add_assoc. apply IH. lia.
Qed.

(** Each loop only appends to the hash and to the addresses it is given. *)
Lemma stringFrom_hash (n : nat) :
  ∀ (s : string) (y : nat) (hash0 hash : string),
    String.length s - y ≤ n →
    stringFrom s y (hash0 +:+ hash)
    = match stringFrom s y hash with
      | Some (Returns (x', hash')) => Some (Returns (x', hash0 +:+ hash'))
      | other => other
      end.
Proof.
  induction n as [|n IH]; intros s y hash0 hash Hn;
    (destruct (matchString (slice y s)) as [m|] eqn:Hm;
     [ | rewrite !stringFrom_throws by exact Hm; reflexivity]);
    destruct (matchString_append _ _ Hm) as (rest & Hs & Hlen);
    pose proof (match_in_range _ _ _ _ Hs Hlen) as Hin; [lia | ].
  rewrite !(stringFrom_step s _ _ _ Hm). unfold concat.
  rewrite append_assoc.
  destruct (decide _); [ | reflexivity]. apply IH; lia.
Qed.

Lemma scanFrom_accumulates (n : nat) :
  ∀ (s : string) (y : nat) (hash0 hash : string) (addrs0 addrs : list string),
    String.length s - y ≤ n →
    scanFrom s y (hash0 +:+ hash) (addrs0 ++ addrs)
    = match scanFrom s y hash addrs with
      | Some (Returns r) =>
          Some (Returns {| addresses := addrs0 ++ addresses r;
                           hash := hash0 +:+ ParserWithCaching.hash r |})
      | other => other
      end.
Proof.
  induction n as [|n IH]; intros s y hash0 hash addrs0 addrs Hn;
    (destruct (Nat.le_gt_cases (String.length s) y) as [Hle|Hlt];
     [rewrite !scanFrom_end by lia; reflexivity | ]);
    [lia | ].
  destruct (charAt_lt _ _ Hlt) as [c Hc].
  destruct (decide (c = "'"%char)) as [->|Hq].
  - rewrite !(scanFrom_quote s) by exact Hc. unfold concat.
    rewrite append_assoc, (stringFrom_hash (String.length s)) by lia.
    destruct (stringFrom s (y + 1) (hash +:+ "'"))
      as [[[x' hash']|e]|] eqn:Hd; try reflexivity.
    unfold stringFrom in Hd. apply doWhile_progress in Hd.
    apply IH. lia.
  - assert (Hq' : charAt s y ≠ Some "'"%char) by congruence.
    destruct (matchCell (slice y s)) as [m|] eqn:Hm.
    + destruct (matchCell_append _ _ Hm) as (rest & Hs & Hlen).
      rewrite !(scanFrom_cell s _ _ _ _ Hq' Hm). unfold concat.
      rewrite append_assoc, <- app_assoc. apply IH. lia.
    + rewrite !(scanFrom_char s _ _ _ _ Hc Hq Hm). unfold concat.
      rewrite append_assoc. apply IH. lia.
Qed.

(* ===================================================================== *)
(** ** The cache *)
(* ===================================================================== *)

Section CacheFacts.

Context {TemplateAst : Type} (fp : FormulaParser TemplateAst).

Lemma parse_throws (text : string) (this : Parser) (heap : list TemplateAst)
    (e : string) :
  hashOf fp this text = Throws e → parse fp text this heap = Throws e.
Proof.
  unfold hashOf, parse.
  destruct (String.eqb (optimizationMode this) "lexer"); [ | discriminate].
  now intros ->.
Qed.

Lemma parse_returns (text : string) (this : Parser) (heap : list TemplateAst)
    (h : HashAndAddresses) :
  hashOf fp this text = Returns h →
  parse fp text this heap
  = match cache this !! hash h with
    | Some cachedAst =>
        Returns ({| ast := cachedAst; astAddresses := addresses h |},
                 cacheUsed this, heap)
    | None =>
        Returns ({| ast := length heap; astAddresses := addresses h |},
                 cacheSet (hash h) (length heap) this,
                 heap ++ [built fp this text])
    end.
Proof.
  unfold hashOf, parse, built.
  destruct (String.eqb (optimizationMode this) "lexer").
  - intros ->. destruct h as [addresses0 hash0]; simpl.
    now destruct (cache this !! hash0).
  - intros [= <-].
    destruct (computeHashAndExtractAddresses _) as [addresses0 hash0]; simpl.
    now destruct (cache this !! hash0).
Qed.

(** Once a text has been parsed, its hash is in the cache, bound to the
    AST that was returned. *)
Lemma parse_cached (text : string) (this this' : Parser)
    (heap heap' : list TemplateAst) (h : HashAndAddresses) (r : Ast) :
  hashOf fp this text = Returns h →
  parse fp text this heap = Returns (r, this', heap') →
  cache this' !! hash h = Some (ast r)
  ∧ optimizationMode this' = optimizationMode this.
Proof.
  intros Hh. rewrite (parse_returns _ _ _ _ Hh).
  destruct (cache this !! hash h) as [cachedAst|] eqn:Hc; intros [= <- <- <-].
  - now split.
  - split; [apply lookup_insert_eq | reflexivity].
Qed.

Lemma hashOf_mode (this this' : Parser) (text : string) :
  optimizationMode this' = optimizationMode this →
  hashOf fp this' text = hashOf fp this text.
Proof. unfold hashOf. now intros ->. Qed.

(** A text whose hash is in the cache is answered from the cache: the AST
    is the cached object, nothing is built, the counter goes up by one. *)
Lemma parse_hit (text : string) (this : Parser) (heap : list TemplateAst)
    (h : HashAndAddresses) (cachedAst : Ref) :
  hashOf fp this text = Returns h → cache this !! hash h = Some cachedAst →
  parse fp text this heap
  = Returns ({| ast := cachedAst; astAddresses := addresses h |},
             cacheUsed this, heap).
Proof. intros Hh Hc. now rewrite (parse_returns _ _ _ _ Hh), Hc. Qed.

(** In the token-driven mode hashing always returns. *)
Lemma hashOf_parser (this : Parser) (text : string) :
  String.eqb (optimizationMode this) "lexer" = false →
  hashOf fp this text
  = Returns (computeHashAndExtractAddresses (tokens (tokenizeFormula fp text))).
Proof. unfold hashOf. now intros ->. Qed.

End CacheFacts.

(** *** Streams that differ only in their relative cells *)

Lemma sameUpToCell_names (t1 t2 : IToken) :
  sameUpToCell t1 t2 →
  isNamed "RelativeCell" t1 = isNamed "RelativeCell" t2
  ∧ isNamed "RangeSeparator" t1 = isNamed "RangeSeparator" t2
  ∧ (isNamed "RelativeCell" t1 = false → image t1 = image t2).
Proof.
  intros [-> | [H1 H2]]; [easy | ].
  rewrite H1, H2. repeat split; [ | discriminate].
  unfold isNamed in *. apply String.eqb_eq in H1, H2. now rewrite H1, H2.
Qed.

Lemma tokensLoop_stable (n : nat) :
  ∀ (ts1 ts2 : list IToken) (a1 a2 : list string) (h : string),
    length ts1 ≤ n → Forall2 sameUpToCell ts1 ts2 →
    hash (tokensLoop ts1 a1 h) = hash (tokensLoop ts2 a2 h).
Proof.
  induction n as [|n IH]; intros ts1 ts2 a1 a2 h Hn Hsame.
  { destruct Hsame; [reflexivity | simpl in Hn; lia]. }
  destruct Hsame as [|t t' rest rest' Ht Hrest]; [reflexivity | ].
  simpl in Hn. cbn [tokensLoop].
  destruct (sameUpToCell_names _ _ Ht) as (<- & _ & Himg).
  destruct (isNamed "RelativeCell" t).
  - destruct Hrest as [|s s' rest rest' Hs Hrest]; [reflexivity | ].
    destruct Hrest as [|u u' rest rest' Hu Hrest].
    { apply IH; [simpl in *; lia | ].
      constructor; [exact Hs | constructor]. }
    destruct (sameUpToCell_names _ _ Hs) as (_ & <- & _).
    destruct (sameUpToCell_names _ _ Hu) as (<- & _ & _).
    destruct (isNamed "RangeSeparator" s && isNamed "RelativeCell" u).
    + apply IH; [simpl in *; lia | assumption].
    + apply IH; [simpl in *; lia | ].
      constructor; [exact Hs | constructor; [exact Hu | exact Hrest]].
  - rewrite (Himg eq_refl). apply IH; [lia | assumption].
Qed.

(* ===================================================================== *)
(** ** The parser: hashing and caching *)
(* ===================================================================== *)

Section ParserClaims.

(** C1, the claim as stated fails: on the text [=A1&'x], whose quoted
    string is never closed, the lexer-free mode throws, while the
    token-driven mode, a total function, returns a hash for the stream of
    that text as for every stream. *)
Lemma open_quote_modes_differ :
  computeHashAndExtractAddressesFromLexer "=A1&'x"
  = Throws "Unexpected parse error"
  ∧ hash (computeHashAndExtractAddresses
            [token "EqualsOp" "="; token "RelativeCell" "A1";
             token "ConcatenateOp" "&"; token "StringLiteral" "'x"])
    = "=#&'x".
Proof. split; reflexivity. Qed.

(** C1, as amended: on every token stream that spells its text out the way
    the patterns of the lexer-free mode cut it ([lexable]: relative cells
    are letters then digits and end where [cellRegex] stops, quoted strings
    are closed, nothing is skipped), the lexer-free mode returns on the
    text, with the hash and the addresses the token-driven mode computes
    from the stream. *)
Theorem hashing_modes_agree (tokens0 : list IToken) :
  lexable tokens0 = true →
  computeHashAndExtractAddressesFromLexer (textOf tokens0)
  = Returns (computeHashAndExtractAddresses tokens0).
Proof.
  intros Hlex. unfold computeHashAndExtractAddressesFromLexer.
  pose proof (scanFrom_tokens (length tokens0) tokens0 EmptyString
                EmptyString [] (le_n _) Hlex) as H.
  rewrite append_nil_l in H. simpl in H. now rewrite H.
Qed.

Lemma hashing_modes_agree_witness :
  lexable quotedTokens = true
  ∧ computeHashAndExtractAddressesFromLexer "='it\'s A1'&B2"
    = Returns {| addresses := ["B2"]; hash := "='it\'s A1'&#" |}.
Proof.
  split; [reflexivity | ]. exact (hashing_modes_agree quotedTokens eq_refl).
Defined.

(** C9: in the lexer-free mode a quoted string goes into the hash as it
    is. Let the text be [pre], a quote, [lit] and [rest], where the scan of
    [pre] returns, so that the quote opens a string, and where [lit] runs
    up to and including the closing quote: the first quote that does not
    directly follow a backslash ([closes]), a quote behind a backslash
    being passed over with the rest of the string. Then the hash returned
    for the whole text is the hash of [pre], the quote and [lit] character
    for character, and the hash of [rest]; the addresses are those of
    [pre] and those of [rest], none being taken from the string; and the
    function throws exactly when it throws on [rest]. *)
Theorem quoted_string_copied (pre lit rest : string) (before : HashAndAddresses) :
  computeHashAndExtractAddressesFromLexer pre = Returns before →
  closes "'" lit = true →
  computeHashAndExtractAddressesFromLexer (pre +:+ String "'" lit +:+ rest)
  = match computeHashAndExtractAddressesFromLexer rest with
    | Returns after =>
        Returns {| addresses := addresses before ++ addresses after;
                   hash := ParserWithCaching.hash before +:+ String "'" lit
                           +:+ ParserWithCaching.hash after |}
    | Throws e => Throws e
    end.
Proof.
  intros Hpre Hcloses. unfold computeHashAndExtractAddressesFromLexer in *.
  destruct (scanFrom pre 0 "" []) as [[r|e]|] eqn:Hscan; try discriminate.
  injection Hpre as ->.
  change (String "'" lit +:+ rest) with (String "'" (lit +:+ rest)).
  rewrite (scanFrom_prefix (String.length pre) pre (lit +:+ rest) 0 _ _ _
             (Nat.le_sub_l _ _) (Nat.le_0_l _) Hscan).
  rewrite (scanFrom_string (pre +:+ String "'" (lit +:+ rest)) lit rest
             (String.length pre) _ _ (slice_append _ _) Hcloses).
  replace (pre +:+ String "'" (lit +:+ rest))
    with ((pre +:+ String "'" lit) +:+ rest) by (now rewrite append_assoc).
  replace (String.length pre + 1 + String.length lit)
    with (String.length (pre +:+ String "'" lit) + 0)
    by (rewrite length_append; simpl; lia).
  rewrite (scanFrom_shift (String.length rest)) by lia.
  rewrite <- (append_nil_r (_ +:+ String "'" lit)).
  rewrite <- (app_nil_r (addresses before)) at 1.
  rewrite (scanFrom_accumulates (String.length rest)) by lia.
  destruct (scanFrom_total rest 0 "" []) as [[after|e] ->]; [ | reflexivity].
  now rewrite append_assoc.
Qed.

Lemma quoted_string_copied_witness :
  computeHashAndExtractAddressesFromLexer "=A1&"
  = Returns {| addresses := ["A1"]; hash := "=#&" |}
  ∧ closes "'" "it\'s A1'" = true
  ∧ computeHashAndExtractAddressesFromLexer "=A1&'it\'s A1'&B2"
    = Returns {| addresses := ["A1"; "B2"]; hash := "=#&'it\'s A1'&#" |}.
Proof.
  split; [reflexivity | split; [reflexivity | ]].
  exact (quoted_string_copied "=A1&" "it\'s A1'" "&B2"
           {| addresses := ["A1"]; hash := "=#&" |} eq_refl eq_refl).
Defined.

(** C2, the claim as stated fails: the formulas [=A1] and [=A1:B2] have the
    same hash [=#] in both modes, while the operand of the first is a
    single cell and the operand of the second a range. *)
Lemma cell_and_range_collide :
  computeHashAndExtractAddresses cellTokens
  = {| addresses := ["A1"]; hash := "=#" |}
  ∧ computeHashAndExtractAddresses rangeTokens
    = {| addresses := ["A1:B2"]; hash := "=#" |}
  ∧ computeHashAndExtractAddressesFromLexer "=A1"
    = Returns {| addresses := ["A1"]; hash := "=#" |}
  ∧ computeHashAndExtractAddressesFromLexer "=A1:B2"
    = Returns {| addresses := ["A1:B2"]; hash := "=#" |}.
Proof. repeat split; reflexivity. Qed.

Context {TemplateAst : Type} (fp : FormulaParser TemplateAst).

(** C2, as amended: when two texts have the same hash, parsing the first
    and then the second returns one and the same AST object for both: the
    second is answered from the cache with the AST returned for the first,
    and no AST is built from the second text. *)
Theorem equal_hash_same_ast (this : Parser) (heap : list TemplateAst)
    (text1 text2 : string) (h1 h2 : HashAndAddresses) :
  hashOf fp this text1 = Returns h1 → hashOf fp this text2 = Returns h2 →
  hash h1 = hash h2 →
  ∃ r1 this1 heap1,
    parse fp text1 this heap = Returns (r1, this1, heap1)
    ∧ parse fp text2 this1 heap1
      = Returns ({| ast := ast r1; astAddresses := addresses h2 |},
                 cacheUsed this1, heap1).
Proof.
  intros H1 H2 Heq.
  assert (∃ r1 this1 heap1, parse fp text1 this heap = Returns (r1, this1, heap1))
    as (r1 & this1 & heap1 & Hp).
  { rewrite (parse_returns _ _ _ _ _ H1). destruct (cache this !! hash h1); eauto. }
  exists r1, this1, heap1. split; [exact Hp | ].
  destruct (parse_cached _ _ _ _ _ _ _ _ H1 Hp) as [Hc Hmode].
  apply parse_hit; [now rewrite (hashOf_mode _ _ _ _ Hmode) | now rewrite <- Heq].
Qed.

(** C3, as amended: [parse] throws only in the lexer-free mode, and then
    what the hashing scan throws; whenever it returns, and in the
    token-driven mode it always does, the AST it returns is in the cache
    under the hash of the text, and a later parse of a text with that hash
    returns it from the cache. *)
Theorem parse_result_cached (text : string) (this : Parser)
    (heap : list TemplateAst) :
  match parse fp text this heap with
  | Throws e =>
      String.eqb (optimizationMode this) "lexer" = true
      ∧ computeHashAndExtractAddressesFromLexer text = Throws e
  | Returns (r, this', heap') =>
      ∃ h, hashOf fp this text = Returns h
        ∧ cache this' !! hash h = Some (ast r)
        ∧ ∀ text' h', hashOf fp this text' = Returns h' → hash h' = hash h →
            parse fp text' this' heap'
            = Returns ({| ast := ast r; astAddresses := addresses h' |},
                       cacheUsed this', heap')
  end.
Proof.
  destruct (hashOf fp this text) as [h|e] eqn:Hh.
  - destruct (parse fp text this heap) as [[[r this'] heap']|e] eqn:Hp.
    + destruct (parse_cached _ _ _ _ _ _ _ _ Hh Hp) as [Hc Hmode].
      exists h. repeat split; [exact Hc | ].
      intros text' h' Hh' Heq.
      apply parse_hit; [now rewrite (hashOf_mode _ _ _ _ Hmode) | now rewrite Heq].
    + rewrite (parse_returns _ _ _ _ _ Hh) in Hp.
      now destruct (cache this !! hash h).
  - rewrite (parse_throws _ _ _ _ _ Hh). unfold hashOf in Hh.
    destruct (String.eqb (optimizationMode this) "lexer"); [now split | discriminate].
Qed.

(** C4, as amended: for two texts that the parser reads as token streams
    differing only in their relative cells, both modes compute the same
    hash, and parsing the first and then the second answers the second
    from the cache: with the AST object stored for the first, nothing
    built, and [statsCacheUsed] one higher. The token stream of a text is
    the output of the lexer; in the lexer-free mode, where there is no
    lexer, it is a stream that spells the text out as the patterns of that
    mode cut it ([lexable]), every quoted string in it being closed. A
    text with a quoted string that is never closed has no such stream:
    [parse] throws on it. *)
Theorem hash_stability (this : Parser) (heap : list TemplateAst)
    (text1 text2 : string) (tokens1 tokens2 : list IToken) :
  readsAs fp this text1 tokens1 → readsAs fp this text2 tokens2 →
  Forall2 sameUpToCell tokens1 tokens2 →
  ∃ h1 h2 r1 this1 heap1 r2 this2,
    hashOf fp this text1 = Returns h1 ∧ hashOf fp this text2 = Returns h2
    ∧ hash h1 = hash h2
    ∧ parse fp text1 this heap = Returns (r1, this1, heap1)
    ∧ cache this1 !! hash h1 = Some (ast r1)
    ∧ parse fp text2 this1 heap1 = Returns (r2, this2, heap1)
    ∧ ast r2 = ast r1
    ∧ statsCacheUsed this2 = statsCacheUsed this1 + 1.
Proof.
  intros Hr1 Hr2 Hsame.
  assert (Hh : hashOf fp this text1 = Returns (computeHashAndExtractAddresses tokens1)
             ∧ hashOf fp this text2 = Returns (computeHashAndExtractAddresses tokens2)).
  { unfold readsAs, hashOf in *.
    destruct (String.eqb (optimizationMode this) "lexer").
    - destruct Hr1 as [-> Hl1], Hr2 as [-> Hl2].
      now rewrite !fromLexer_tokens.
    - now rewrite Hr1, Hr2. }
  destruct Hh as [H1 H2].
  pose proof (tokensLoop_stable _ _ _ [] [] EmptyString (le_n _) Hsame) as Heq.
  fold (computeHashAndExtractAddresses tokens1) in Heq.
  fold (computeHashAndExtractAddresses tokens2) in Heq.
  assert (∃ r1 this1 heap1, parse fp text1 this heap = Returns (r1, this1, heap1))
    as (r1 & this1 & heap1 & Hp).
  { rewrite (parse_returns _ _ _ _ _ H1).
    destruct (cache this !! hash (computeHashAndExtractAddresses tokens1)); eauto. }
  destruct (parse_cached _ _ _ _ _ _ _ _ H1 Hp) as [Hc Hmode].
  exists (computeHashAndExtractAddresses tokens1),
    (computeHashAndExtractAddresses tokens2), r1, this1, heap1,
    {| ast := ast r1;
       astAddresses := addresses (computeHashAndExtractAddresses tokens2) |},
    (cacheUsed this1).
  repeat apply conj;
    [exact H1 | exact H2 | exact Heq | exact Hp | exact Hc | | reflexivity
    | reflexivity].
  apply parse_hit; [rewrite (hashOf_mode _ _ _ _ Hmode); exact H2 | ].
  now rewrite <- Heq.
Qed.

End ParserClaims.

(** C3, the claim as stated fails: in the lexer-free mode [parse] throws on
    a text whose quoted string is never closed. *)
Lemma parse_throws_on_open_quote :
  parse exampleParser "=A1&'x" (constructor "lexer") []
  = Throws "Unexpected parse error".
Proof. reflexivity. Qed.

(** C4, the claim as stated fails: the texts [=A1&'x] and [=B2&'x] differ
    only in a relative cell operand, and in the lexer-free mode neither
    has a hash. [parse] throws on the first and, the parser being as it
    was, on the second: no AST is returned, and nothing is answered from
    the cache. *)
Lemma open_quote_is_never_a_hit :
  hashOf exampleParser (constructor "lexer") "=A1&'x"
  = Throws "Unexpected parse error"
  ∧ hashOf exampleParser (constructor "lexer") "=B2&'x"
    = Throws "Unexpected parse error"
  ∧ parse exampleParser "=A1&'x" (constructor "lexer") []
    = Throws "Unexpected parse error"
  ∧ parse exampleParser "=B2&'x" (constructor "lexer") []
    = Throws "Unexpected parse error".
Proof. repeat split; reflexivity. Qed.

Lemma equal_hash_same_ast_witness :
  ∃ r1 this1 heap1,
    parse exampleParser "=A1" (constructor "parser") []
    = Returns (r1, this1, heap1)
    ∧ parse exampleParser "=A1:B2" this1 heap1
      = Returns ({| ast := ast r1; astAddresses := ["A1:B2"] |},
                 cacheUsed this1, heap1).
Proof.
  exact (equal_hash_same_ast exampleParser (constructor "parser") []
           "=A1" "=A1:B2"
           {| addresses := ["A1"]; hash := "=#" |}
           {| addresses := ["A1:B2"]; hash := "=#" |}
           eq_refl eq_refl eq_refl).
Defined.

Lemma exampleTokens_differ_in_cells : Forall2 sameUpToCell exampleTokens1 exampleTokens2.
Proof.
  repeat (apply List.Forall2_cons;
          [first [left; reflexivity | right; split; reflexivity] | ]).
  apply List.Forall2_nil.
Defined.

Lemma hash_stability_witness :
  ∃ h1 h2 r1 this1 heap1 r2 this2,
    hashOf exampleParser (constructor "parser") "=A1+SUM(B2:C3)" = Returns h1
    ∧ hashOf exampleParser (constructor "parser") "=D4+SUM(E5:F6)" = Returns h2
    ∧ hash h1 = hash h2
    ∧ parse exampleParser "=A1+SUM(B2:C3)" (constructor "parser") []
      = Returns (r1, this1, heap1)
    ∧ cache this1 !! hash h1 = Some (ast r1)
    ∧ parse exampleParser "=D4+SUM(E5:F6)" this1 heap1
      = Returns (r2, this2, heap1)
    ∧ ast r2 = ast r1
    ∧ statsCacheUsed this2 = statsCacheUsed this1 + 1.
Proof.
  exact (hash_stability exampleParser (constructor "parser") []
           "=A1+SUM(B2:C3)" "=D4+SUM(E5:F6)" exampleTokens1 exampleTokens2
           eq_refl eq_refl exampleTokens_differ_in_cells).
Defined.

(* ===================================================================== *)
(** ** The engine: editing operations *)
(* ===================================================================== *)

Section EngineClaims.

Import HandsOnEngine.

Context {W : Type} (handle : Handler W).

(** Case analysis on the answer to the next call of a run. *)
Ltac answer :=
  match goal with
  | |- context [handle ?c ?w] =>
      let x := fresh "x" in let e := fresh "e" in
      let w' := fresh "w" in let H := fresh "Hcall" in
      destruct (handle c w) as [[x|e] w'] eqn:H
  end.

#[local] Arguments after : simpl never.
#[local] Arguments Number : simpl never.
#[local] Arguments isMatrix : simpl never.
#[local] Arguments isFormula : simpl never.
#[local] Arguments substr : simpl never.
#[local] Arguments String.eqb : simpl never.





(** The values of type [unit] among the answers. *)
Ltac units :=
  repeat match goal with
         | x : ?T |- _ =>
             let T' := eval cbn in T in
             match T' with unit => destruct x end
         end.

(** The calls of a script that have been answered, as the walk found them. *)
Ltac answered :=
  cbn; repeat (eexists; split; [first [eassumption | reflexivity] | ]);
  reflexivity.



(** C7: [ensureNoMatrixInRange] is a check: it changes nothing, and it
    throws for a rectangle that overlaps a matrix. Then a [moveCells] whose
    source or target rectangle overlaps a matrix throws after that check:
    no transformer has run, no transformation has been recorded, no cell
    has been moved, and the collaborators are in the state they were in. *)
Theorem moveCells_fails_fast (overlapsMatrix : W → AbsoluteCellRange → Prop)
    (w : W) (sourceLeftCorner : SimpleCellAddress) (width0 height0 : nat)
    (destinationLeftCorner : SimpleCellAddress) :
  let sourceRange := spanFrom sourceLeftCorner width0 height0 in
  let targetRange := spanFrom destinationLeftCorner width0 height0 in
  (∀ range w0,
     snd (handle (dependencyGraph_ensureNoMatrixInRange range) w0) = w0) →
  (∀ range w0, overlapsMatrix w0 range →
     ∃ e, fst (handle (dependencyGraph_ensureNoMatrixInRange range) w0)
          = Throws e) →
  overlapsMatrix w sourceRange ∨ overlapsMatrix w targetRange →
  let r := run handle
             (moveCells sourceLeftCorner width0 height0 destinationLeftCorner)
             w in
  (∃ e, outcome r = Throws e) ∧ world r = w
  ∧ (trace r = [dependencyGraph_ensureNoMatrixInRange sourceRange]
     ∨ trace r = [dependencyGraph_ensureNoMatrixInRange sourceRange;
                  dependencyGraph_ensureNoMatrixInRange targetRange]).
Proof.
  intros sourceRange targetRange Hcheck Hthrows Hoverlap r. subst r.
  unfold moveCells, measure. cbn.
  fold sourceRange. fold targetRange.
  pose proof (Hcheck sourceRange w) as Hw1.
  pose proof (Hthrows sourceRange w) as Ht1.
  destruct (handle (dependencyGraph_ensureNoMatrixInRange sourceRange) w)
    as [[[]|e1] w1] eqn:H1; simpl in Hw1; subst w1; cbn.
  - pose proof (Hcheck targetRange w) as Hw2.
    pose proof (Hthrows targetRange w) as Ht2.
    destruct (handle (dependencyGraph_ensureNoMatrixInRange targetRange) w)
      as [[[]|e2] w2] eqn:H2; simpl in Hw2; subst w2; cbn.
    + destruct Hoverlap as [Ho|Ho];
        [destruct (Ht1 Ho) as [e He] | destruct (Ht2 Ho) as [e He]];
        discriminate He.
    + unfold after; cbn. eauto.
  - eauto.
Qed.




(** C10: whenever [verticesToRecompute] returns, were it with no vertex at
    all, [recomputeIfDependencyGraphNeedsIt] goes on to call
    [clearRecentlyChangedVertices] and then [partialRun] with the vertices
    it was given; and with collaborators of which the first resets the
    recently changed vertices [dirty] and the second leaves them alone,
    none is left after the call. *)
Theorem recompute_always_runs (dirty : W → list Vertex) (w w1 : W)
    (verticesToRecomputeFrom : list Vertex) :
  (∀ w0, ∃ w',
     handle dependencyGraph_clearRecentlyChangedVertices w0 = (Returns tt, w')
     ∧ dirty w' = []) →
  (∀ vertices0 w0,
     dirty (snd (handle (evaluator_partialRun vertices0) w0)) = dirty w0) →
  handle dependencyGraph_verticesToRecompute w
  = (Returns verticesToRecomputeFrom, w1) →
  let r := run handle recomputeIfDependencyGraphNeedsIt w in
  trace r = [dependencyGraph_verticesToRecompute;
             dependencyGraph_clearRecentlyChangedVertices;
             evaluator_partialRun verticesToRecomputeFrom]
  ∧ dirty (world r) = [].
Proof.
  intros Hclear Hrun Hvs r. subst r.
  unfold recomputeIfDependencyGraphNeedsIt. cbn. rewrite Hvs. cbn.
  destruct (Hclear w1) as (w2 & -> & Hd). cbn.
  pose proof (Hrun verticesToRecomputeFrom w2) as Hd'.
  answer; unfold after; cbn in *; (split; [reflexivity | congruence]).
Qed.

End EngineClaims.

Section EngineExamples.

Import HandsOnEngine.





(** The white space [Number] strips is that of the language: on a cell of
    a numeric matrix, an em space or a no-break space is the number 0 and
    is written into the matrix. *)
Lemma white_space_in_numeric_matrix :
  Number emSpace = NumberOf "" ∧ Number noBreakSpace = NumberOf ""
  ∧ run exampleHandler (setCellContent A1 emSpace) matrixWorld
    = {| trace := [dependencyGraph_getCell A1;
                   vertex_setMatrixCellValue (MatrixVertex 7 false) A1
                     (NumberOf "");
                   evaluator_partialRun [MatrixVertex 7 false]];
         outcome := Returns tt; world := matrixWorld |}
  ∧ trace (run exampleHandler (setCellContent A1 noBreakSpace) matrixWorld)
    = [dependencyGraph_getCell A1;
       vertex_setMatrixCellValue (MatrixVertex 7 false) A1 (NumberOf "");
       evaluator_partialRun [MatrixVertex 7 false]].
Proof. repeat split; reflexivity. Qed.

Lemma exampleHandler_check_reads_only (range : AbsoluteCellRange)
    (w : ExampleWorld) :
  snd (exampleHandler (dependencyGraph_ensureNoMatrixInRange range) w) = w.
Proof. cbn. now destruct (existsb (overlap range) (matrices w)). Defined.

Lemma exampleHandler_check_throws (range : AbsoluteCellRange)
    (w : ExampleWorld) :
  existsb (overlap range) (matrices w) = true →
  ∃ e, fst (exampleHandler (dependencyGraph_ensureNoMatrixInRange range) w)
       = Throws e.
Proof. intros H. cbn. rewrite H. eexists. reflexivity. Defined.

Lemma moveCells_fails_fast_witness :
  existsb (overlap (spanFrom A1 1 1)) (matrices matrixWorld) = true
  ∧ (∃ e, outcome (run exampleHandler (moveCells E1 1 1 A1) matrixWorld)
          = Throws e)
  ∧ world (run exampleHandler (moveCells E1 1 1 A1) matrixWorld) = matrixWorld
  ∧ (trace (run exampleHandler (moveCells E1 1 1 A1) matrixWorld)
     = [dependencyGraph_ensureNoMatrixInRange (spanFrom E1 1 1)]
     ∨ trace (run exampleHandler (moveCells E1 1 1 A1) matrixWorld)
       = [dependencyGraph_ensureNoMatrixInRange (spanFrom E1 1 1);
          dependencyGraph_ensureNoMatrixInRange (spanFrom A1 1 1)]).
Proof.
  split; [reflexivity | ].
  exact (moveCells_fails_fast exampleHandler
           (fun w range => existsb (overlap range) (matrices w) = true)
           matrixWorld E1 1 1 A1
           exampleHandler_check_reads_only exampleHandler_check_throws
           (or_intror eq_refl)).
Defined.


Lemma recompute_always_runs_witness :
  exampleHandler dependencyGraph_verticesToRecompute emptyWorld
  = (Returns [], emptyWorld)
  ∧ trace (run exampleHandler recomputeIfDependencyGraphNeedsIt emptyWorld)
    = [dependencyGraph_verticesToRecompute;
       dependencyGraph_clearRecentlyChangedVertices;
       evaluator_partialRun []]
  ∧ recentlyChanged
      (world (run exampleHandler recomputeIfDependencyGraphNeedsIt emptyWorld))
    = [].
Proof.
  split; [reflexivity | ].
  exact (recompute_always_runs exampleHandler recentlyChanged emptyWorld
           emptyWorld []
           (fun w0 => ex_intro _ (clearChanged w0) (conj eq_refl eq_refl))
           (fun _ _ => eq_refl) eq_refl).
Defined.


End EngineExamples.

(* ===================================================================== *)
(** ** The parser: what the hash keeps, and the cache over time *)
(* ===================================================================== *)

Import Templates.

(** *** Reading a hash back *)

Lemma allOf_append (p : ascii → bool) (a b : string) :
  allOf p (a +:+ b) = allOf p a && allOf p b.
Proof.
  induction a as [|c a IH]; [reflexivity | ].
  rewrite append_cons. simpl. now rewrite IH, andb_assoc.
Qed.

Lemma charAt_allOf (p : ascii → bool) (s : string) :
  ∀ (x : nat) (c : ascii),
    charAt s x = Some c → allOf p s = true → p c = true.
Proof.
  induction s as [|d s IH]; intros x c Hc Hall; [discriminate | ].
  simpl in Hall. apply andb_prop in Hall as [Hd Hs].
  destruct x as [|x]; simpl in Hc.
  - now injection Hc as <-.
  - exact (IH x c Hc Hs).
Qed.

Lemma instantiate_app (h1 : string) :
  ∀ (as1 : list string) (t1 h2 : string) (as2 : list string) (t2 : string),
    instantiate h1 as1 = Some t1 → instantiate h2 as2 = Some t2 →
    instantiate (h1 +:+ h2) (as1 ++ as2) = Some (t1 +:+ t2).
Proof.
  induction h1 as [|c h1 IH]; intros as1 t1 h2 as2 t2 H1 H2.
  - destruct as1; [ | discriminate]. injection H1 as <-.
    now rewrite !append_nil_l.
  - rewrite append_cons. simpl in *.
    destruct (Ascii.eqb c "#").
    + destruct as1 as [|a as1]; [discriminate | ].
      destruct (instantiate h1 as1) as [t|] eqn:Ht; [ | discriminate].
      injection H1 as <-. simpl.
      rewrite (IH _ _ _ _ _ Ht H2). simpl. now rewrite append_assoc.
    + destruct (instantiate h1 as1) as [t|] eqn:Ht; [ | discriminate].
      injection H1 as <-.
      rewrite (IH _ _ _ _ _ Ht H2). simpl. now rewrite append_cons.
Qed.

Lemma instantiate_plain (s : string) :
  allOf (notLit "#") s = true → instantiate s [] = Some s.
Proof.
  induction s as [|c s IH]; [reflexivity | ].
  simpl. intros H. apply andb_prop in H as [Hc Hs].
  unfold notLit in Hc. apply negb_true_iff in Hc. rewrite Hc.
  now rewrite (IH Hs).
Qed.

Lemma instantiate_copy (h t piece : string) (addrs : list string) :
  instantiate h addrs = Some t → allOf (notLit "#") piece = true →
  instantiate (h +:+ piece) addrs = Some (t +:+ piece).
Proof.
  intros Hh Hp.
  pose proof (instantiate_app _ _ _ _ _ _ Hh (instantiate_plain _ Hp)) as H.
  now rewrite app_nil_r in H.
Qed.

Lemma instantiate_cell (h t m : string) (addrs : list string) :
  instantiate h addrs = Some t →
  instantiate (h +:+ "#") (addrs ++ [m]) = Some (t +:+ m).
Proof.
  intros Hh.
  apply (instantiate_app _ _ _ _ _ _ Hh). simpl. now rewrite append_nil_r.
Qed.

(** What the inner loop adds to the hash is the text it passes over. *)
Lemma doWhile_copies (fuel : nat) :
  ∀ (code : string) (x : nat) (hash : string) (x' : nat) (hash' : string),
    doWhile fuel code x hash = Some (Returns (x', hash')) →
    ∃ m, hash' = hash +:+ m ∧ slice x code = m +:+ slice x' code.
Proof.
  induction fuel as [|fuel IH]; intros code x hash x' hash' H; [discriminate | ].
  simpl in H. rewrite exec_stringRegex in H.
  destruct (matchString (slice x code)) as [result|] eqn:Hm; [ | discriminate].
  destruct (matchString_append _ _ Hm) as (rest & Hs & Hlen).
  pose proof (slice_skip _ _ _ _ Hs) as Hrest.
  destruct (decide _) as [Hesc|Hesc].
  - destruct (IH _ _ _ _ _ H) as (m & -> & Hm').
    exists (result +:+ m). unfold concat. rewrite append_assoc. split; [reflexivity | ].
    rewrite Hs, append_assoc. f_equal. now rewrite <- Hm', Hrest.
  - injection H as <- <-. exists result. split; [reflexivity | ].
    now rewrite Hrest.
Qed.

Lemma doWhile_throws (fuel : nat) :
  ∀ (code : string) (x : nat) (hash e : string),
    doWhile fuel code x hash = Some (Throws e) → e = "Unexpected parse error".
Proof.
  induction fuel as [|fuel IH]; intros code x hash e H; [discriminate | ].
  simpl in H. destruct (exec stringRegex (slice x code)); [ | now injection H].
  destruct (decide _); [exact (IH _ _ _ _ H) | discriminate].
Qed.

Lemma whileLoop_instantiate (fuel : nat) :
  ∀ (code : string) (x : nat) (hash : string) (addrs : list string)
    (pre : string) (r : HashAndAddresses),
    allOf (notLit "#") code = true →
    whileLoop fuel code x hash addrs = Some (Returns r) →
    code = pre +:+ slice x code → instantiate hash addrs = Some pre →
    instantiate (ParserWithCaching.hash r) (addresses r) = Some code.
Proof.
  induction fuel as [|fuel IH]; intros code x hash addrs pre r Hno H Hpre Hinst;
    [discriminate | ].
  simpl in H.
  destruct (Nat.ltb_spec x (String.length code)) as [Hx|Hx].
  - destruct (charAt_lt _ _ Hx) as [c Hc].
    pose proof (slice_cons _ _ _ Hc) as Hcons.
    destruct (decide (charAt code x = Some "'"%char)) as [Hq|Hq].
    + destruct (doWhile fuel code (x + 1) (concat hash (charString code x)))
        as [[[x' hash']|e]|] eqn:Hd; try discriminate.
      destruct (doWhile_copies _ _ _ _ _ _ Hd) as (m & -> & Hm).
      unfold charString, concat in *. rewrite Hc in *.
      assert (c = "'"%char) as -> by congruence.
      rewrite Nat.add_1_r in Hm.
      assert (Hcode : code = (pre +:+ String "'" m) +:+ slice x' code).
      { rewrite append_assoc, append_cons, <- Hm, <- Hcons. exact Hpre. }
      apply (IH _ _ _ _ _ _ Hno H Hcode).
      rewrite append_assoc. apply instantiate_copy; [exact Hinst | ].
      rewrite Hcode, !allOf_append in Hno.
      apply andb_prop in Hno as [Hno _]. apply andb_prop in Hno as [_ Hno].
      exact Hno.
    + rewrite exec_cellRegex in H.
      destruct (matchCell (slice x code)) as [m|] eqn:Hm.
      * destruct (matchCell_append _ _ Hm) as (rest & Hs & _).
        apply (IH _ _ _ _ (pre +:+ m) _ Hno H).
        -- rewrite (slice_skip _ _ _ _ Hs), append_assoc, <- Hs. exact Hpre.
        -- now apply instantiate_cell.
      * unfold charString, concat in H. rewrite Hc in H.
        apply (IH _ _ _ _ (pre +:+ String c "") _ Hno H).
        -- rewrite Nat.add_1_r, append_assoc, append_cons, append_nil_l, <- Hcons.
           exact Hpre.
        -- apply instantiate_copy; [exact Hinst | ].
           simpl. now rewrite (charAt_allOf _ _ _ _ Hc Hno).
  - injection H as <-. simpl.
    rewrite (slice_length_le _ _ Hx), append_nil_r in Hpre. now subst pre.
Qed.

Lemma whileLoop_throws (fuel : nat) :
  ∀ (code : string) (x : nat) (hash : string) (addrs : list string) (e : string),
    whileLoop fuel code x hash addrs = Some (Throws e) →
    e = "Unexpected parse error" ∧ allOf (notLit "'") code = false.
Proof.
  induction fuel as [|fuel IH]; intros code x hash addrs e H; [discriminate | ].
  simpl in H.
  destruct (x <? String.length code); [ | discriminate].
  destruct (decide (charAt code x = Some "'"%char)) as [Hq|Hq].
  - destruct (doWhile fuel code (x + 1) (concat hash (charString code x)))
      as [[[x' hash']|e']|] eqn:Hd; try discriminate.
    + exact (IH _ _ _ _ _ H).
    + injection H as <-. split; [exact (doWhile_throws _ _ _ _ _ Hd) | ].
      destruct (allOf (notLit "'") code) eqn:Hall; [ | reflexivity].
      now pose proof (charAt_allOf _ _ _ _ Hq Hall).
  - destruct (exec cellRegex (slice x code)); exact (IH _ _ _ _ _ H).
Qed.

(** X1: in the lexer-free mode the hash and the addresses keep the whole
    text. For every text without the character [#] on which
    [computeHashAndExtractAddressesFromLexer] returns, replacing the
    placeholders of the hash, from left to right, by the extracted
    addresses gives the text back. *)
Theorem lexer_hash_reads_back (code : string) (h : HashAndAddresses) :
  allOf (notLit "#") code = true →
  computeHashAndExtractAddressesFromLexer code = Returns h →
  instantiate (hash h) (addresses h) = Some code.
Proof.
  intros Hno H. unfold computeHashAndExtractAddressesFromLexer in H.
  destruct (scanFrom code 0 "" []) as [[r|e]|] eqn:Hs; try discriminate.
  injection H as <-.
  exact (whileLoop_instantiate _ _ _ _ _ "" _ Hno Hs eq_refl eq_refl).
Qed.

Lemma lexer_hash_reads_back_witness :
  allOf (notLit "#") "='it\'s A1'&B2+SUM(C3:D4)" = true
  ∧ computeHashAndExtractAddressesFromLexer "='it\'s A1'&B2+SUM(C3:D4)"
    = Returns {| addresses := ["B2"; "C3:D4"]; hash := "='it\'s A1'&#+SUM(#)" |}
  ∧ instantiate "='it\'s A1'&#+SUM(#)" ["B2"; "C3:D4"]
    = Some "='it\'s A1'&B2+SUM(C3:D4)".
Proof.
  split; [reflexivity | split; [reflexivity | ]].
  exact (lexer_hash_reads_back "='it\'s A1'&B2+SUM(C3:D4)"
           {| addresses := ["B2"; "C3:D4"]; hash := "='it\'s A1'&#+SUM(#)" |}
           eq_refl eq_refl).
Defined.

(** X3: the lexer-free mode throws nothing but "Unexpected parse error",
    and only on a text that holds a quote; on every other text it returns. *)
Theorem lexer_throws_only_on_quote (code e : string) :
  computeHashAndExtractAddressesFromLexer code = Throws e →
  e = "Unexpected parse error" ∧ allOf (notLit "'") code = false.
Proof.
  unfold computeHashAndExtractAddressesFromLexer.
  destruct (scanFrom_total code 0 "" []) as [answer Hs]. rewrite Hs.
  intros ->. exact (whileLoop_throws _ _ _ _ _ _ Hs).
Qed.

Lemma lexer_throws_only_on_quote_witness :
  computeHashAndExtractAddressesFromLexer "=A1&'x" = Throws "Unexpected parse error"
  ∧ "Unexpected parse error" = "Unexpected parse error"
  ∧ allOf (notLit "'") "=A1&'x" = false.
Proof.
  split; [reflexivity | ].
  exact (lexer_throws_only_on_quote "=A1&'x" "Unexpected parse error" eq_refl).
Defined.

(** *** Quoted strings that are never closed *)

Lemma matchString_shape (s m : string) :
  matchString s = Some m →
  ∃ seg rest, s = seg +:+ String "'" rest ∧ m = seg +:+ "'"
              ∧ allOf (notLit "'") seg = true.
Proof.
  unfold matchString.
  pose proof (span_append (notLit "'") s) as Happ.
  pose proof (span_allOf (notLit "'") s) as Hseg.
  pose proof (span_rest (notLit "'") s) as Hrest.
  destruct (span (notLit "'") s) as [seg r]. simpl in *.
  destruct r as [|q rest]; [discriminate | ].
  intros [= <-]. simpl in Hrest. unfold notLit in Hrest.
  apply negb_false_iff, Ascii.eqb_eq in Hrest as ->.
  now exists seg, rest.
Qed.

(** When the inner loop returns, what it passed over ends with a closing
    quote. *)
Lemma doWhile_closed (fuel : nat) :
  ∀ (code : string) (x : nat) (hash : string) (prev : ascii) (x' : nat)
    (hash' : string),
    1 ≤ x → charAt code (x - 1) = Some prev →
    doWhile fuel code x hash = Some (Returns (x', hash')) →
    ∃ lit, slice x code = lit +:+ slice x' code ∧ closes prev lit = true.
Proof.
  induction fuel as [|fuel IH]; intros code x hash prev x' hash' Hx Hprev H;
    [discriminate | ].
  simpl in H. rewrite exec_stringRegex in H.
  destruct (matchString (slice x code)) as [m|] eqn:Hm; [ | discriminate].
  destruct (matchString_shape _ _ Hm) as (seg & rest & Hs & -> & Hseg).
  pose proof (charAt_before_quote _ _ _ _ _ Hx Hprev Hs) as Hlast.
  assert (Hs' : slice x code = (seg +:+ "'") +:+ rest)
    by (rewrite Hs, append_assoc; reflexivity).
  pose proof (slice_skip _ _ _ _ Hs') as Hrest.
  rewrite Hlast in H.
  destruct (decide (Some (lastChar prev seg) = Some "\"%char)) as [Hesc|Hesc].
  - injection Hesc as Hesc.
    assert (Hx' : 1 ≤ x + String.length (seg +:+ "'"))
      by (rewrite length_append; simpl; lia).
    assert (Hprev' : charAt code (x + String.length (seg +:+ "'") - 1)
                     = Some "'"%char).
    { rewrite length_append. simpl.
      replace (x + (String.length seg + 1) - 1) with (x + String.length seg)
        by lia.
      rewrite <- charAt_slice, Hs, <- (Nat.add_0_r (String.length seg)).
      now rewrite charAt_append_r. }
    destruct (IH _ _ _ _ _ _ Hx' Hprev' H) as (lit & Hlit & Hcl).
    exists (seg +:+ String "'" lit). split.
    + rewrite Hs, append_assoc, append_cons. do 2 f_equal.
      now rewrite <- Hlit, Hrest.
    + rewrite closes_split by exact Hseg. now rewrite Hesc.
  - injection H as <- <-. exists (seg +:+ "'"). split.
    + now rewrite Hrest.
    + rewrite closes_split by exact Hseg.
      destruct (Ascii.eqb_spec (lastChar prev seg) "\") as [Heq|_];
        [now rewrite Heq in Hesc | reflexivity].
Qed.

(** X4: a quoted string that is never closed makes the lexer-free mode
    throw. When the scan stands at a quote, and no part of the text after
    it ends in a quote that does not directly follow a backslash, the scan
    throws "Unexpected parse error", whatever it has collected so far. *)
Theorem open_quote_throws (code : string) (x : nat) (hash0 : string)
    (addresses0 : list string) :
  charAt code x = Some "'"%char →
  (∀ lit rest, slice (x + 1) code = lit +:+ rest → closes "'" lit = false) →
  scanFrom code x hash0 addresses0 = Some (Throws "Unexpected parse error").
Proof.
  intros Hq Hopen. rewrite (scanFrom_quote _ _ _ _ Hq).
  unfold stringFrom.
  destruct (doWhile_total (S (String.length code - (x + 1))) code (x + 1)
              (concat hash0 "'") (Nat.lt_succ_diag_r _))
    as [[[x' hash']|e] Hr]; rewrite Hr.
  - assert (Hprev : charAt code (x + 1 - 1) = Some "'"%char)
      by (now replace (x + 1 - 1) with x by lia).
    assert (Hx : 1 ≤ x + 1) by lia.
    destruct (doWhile_closed _ _ _ _ _ _ _ Hx Hprev Hr) as (lit & Hs & Hcl).
    now rewrite (Hopen _ _ Hs) in Hcl.
  - now rewrite (doWhile_throws _ _ _ _ _ Hr).
Qed.

Lemma no_quote_after_x (lit rest : string) :
  slice (4 + 1) "=A1&'x" = lit +:+ rest → closes "'" lit = false.
Proof.
  destruct lit as [|c [|d lit]]; [reflexivity | | ].
  - intros [= <- _]. reflexivity.
  - intros H. cbn in H. rewrite !append_cons in H. discriminate H.
Qed.

Lemma open_quote_throws_witness :
  charAt "=A1&'x" 4 = Some "'"%char
  ∧ scanFrom "=A1&'x" 4 "=#&" ["A1"] = Some (Throws "Unexpected parse error").
Proof.
  split; [reflexivity | ].
  exact (open_quote_throws "=A1&'x" 4 "=#&" ["A1"] eq_refl no_quote_after_x).
Defined.

(** *** The addresses of the lexer-free mode *)

Lemma digit_not_letter (c : ascii) : digit c = true → letter c = false.
Proof.
  intros Hd. destruct (letter c) eqn:Hl; [ | reflexivity].
  now rewrite (letter_not_digit _ Hl) in Hd.
Qed.

Lemma matchOperand_isOperand (s m rest : string) :
  matchOperand s = Some (m, rest) → isOperand m = true.
Proof.
  unfold isOperand, matchOperand.
  pose proof (span_allOf letter s) as Hl. pose proof (span_rest letter s) as Hr.
  destruct (span letter s) as [letters s1]. simpl in Hl, Hr.
  pose proof (span_allOf digit s1) as Hd. pose proof (span_rest digit s1) as Hr'.
  destruct (span digit s1) as [digits s2]. simpl in Hd, Hr'.
  destruct letters as [|l letters]; [discriminate | ].
  destruct digits as [|d digits]; [discriminate | ].
  intros [= <- <-].
  assert (Hnl : startsIn letter (String d digits) = false).
  { simpl in *. apply andb_prop in Hd as [Hd _]. now apply digit_not_letter. }
  rewrite (span_unique letter _ _ Hl Hnl).
  rewrite <- (append_nil_r (String d digits)) at 1.
  now rewrite (span_unique digit (String d digits) "" Hd eq_refl).
Qed.

(** What [cellRegex] matches, it matches again as a whole. *)
Lemma matchCell_whole (s m : string) : matchCell s = Some m → matchCell m = Some m.
Proof.
  unfold matchCell at 1.
  destruct (matchOperand s) as [[first rest]|] eqn:H1; [ | discriminate].
  pose proof (matchOperand_isOperand _ _ _ H1) as Hop1.
  assert (Hsingle : matchCell first = Some first).
  { rewrite <- (append_nil_r first) at 1. now apply matchCell_single. }
  destruct rest as [|c rest']; [now intros [= <-] | ].
  destruct (lit ":" c) eqn:Hc; [ | now intros [= <-]].
  destruct (matchOperand rest') as [[second rest2]|] eqn:H2; [ | now intros [= <-]].
  intros [= <-].
  pose proof (matchOperand_isOperand _ _ _ H2) as Hop2.
  pose proof (matchCell_range first second "" Hop1 Hop2 eq_refl) as H.
  now rewrite !append_nil_r in H.
Qed.

Lemma whileLoop_addresses (fuel : nat) :
  ∀ (code : string) (x : nat) (hash : string) (addrs : list string)
    (r : HashAndAddresses),
    whileLoop fuel code x hash addrs = Some (Returns r) →
    Forall (λ a, exec cellRegex a = Some a) addrs →
    Forall (λ a, exec cellRegex a = Some a) (addresses r).
Proof.
  induction fuel as [|fuel IH]; intros code x hash addrs r H Hall; [discriminate | ].
  simpl in H.
  destruct (x <? String.length code); [ | now injection H as <-].
  destruct (decide (charAt code x = Some "'"%char)) as [Hq|Hq].
  - destruct (doWhile fuel code (x + 1) (concat hash (charString code x)))
      as [[[x' hash']|e']|]; try discriminate.
    exact (IH _ _ _ _ _ H Hall).
  - destruct (exec cellRegex (slice x code)) as [m|] eqn:Hm.
    + apply (IH _ _ _ _ _ H). apply Forall_app. split; [exact Hall | ].
      constructor; [ | constructor].
      rewrite exec_cellRegex in *. exact (matchCell_whole _ _ Hm).
    + exact (IH _ _ _ _ _ H Hall).
Qed.

(** X5: every address the lexer-free mode extracts is a cell reference or
    a range: [cellRegex] matches it from its first to its last character. *)
Theorem lexer_addresses_are_references (code : string) (h : HashAndAddresses) :
  computeHashAndExtractAddressesFromLexer code = Returns h →
  Forall (λ address, exec cellRegex address = Some address) (addresses h).
Proof.
  unfold computeHashAndExtractAddressesFromLexer.
  destruct (scanFrom code 0 "" []) as [[r|e]|] eqn:Hs; try discriminate.
  intros [= <-]. exact (whileLoop_addresses _ _ _ _ _ _ Hs (List.Forall_nil _)).
Qed.

(** Text that only looks like a reference, as the function name [LOG10],
    is extracted as well. *)
Lemma lexer_addresses_are_references_witness :
  computeHashAndExtractAddressesFromLexer "=LOG10(A1:B2)+C3:4"
  = Returns {| addresses := ["LOG10"; "A1:B2"; "C3"]; hash := "=#(#)+#:4" |}
  ∧ Forall (λ address, exec cellRegex address = Some address)
      ["LOG10"; "A1:B2"; "C3"].
Proof.
  split; [reflexivity | ].
  exact (lexer_addresses_are_references "=LOG10(A1:B2)+C3:4"
           {| addresses := ["LOG10"; "A1:B2"; "C3"]; hash := "=#(#)+#:4" |}
           eq_refl).
Defined.

(** *** The token-driven mode *)

(** The loop adds to what it was given. *)
Lemma tokensLoop_acc (n : nat) :
  ∀ (ts : list IToken) (addrs : list string) (hash0 : string),
    length ts ≤ n →
    tokensLoop ts addrs hash0
    = {| addresses := addrs ++ addresses (computeHashAndExtractAddresses ts);
         hash := hash0 +:+ hash (computeHashAndExtractAddresses ts) |}.
Proof.
  unfold computeHashAndExtractAddresses.
  induction n as [|n IH]; intros ts addrs hash0 Hn.
  { destruct ts; [ | simpl in Hn; lia]. simpl.
    now rewrite app_nil_r, append_nil_r. }
  destruct ts as [|t ts]; [simpl; now rewrite app_nil_r, append_nil_r | ].
  simpl in Hn. cbn [tokensLoop]. unfold concat.
  assert (Hstep : ∀ ts' a piece, length ts' ≤ n →
            tokensLoop ts' (addrs ++ a) (hash0 +:+ piece)
            = {| addresses := addrs ++ addresses (tokensLoop ts' ([] ++ a) ("" +:+ piece));
                 hash := hash0 +:+ hash (tokensLoop ts' ([] ++ a) ("" +:+ piece)) |}).
  { intros ts' a piece Hlen.
    rewrite (IH ts' (addrs ++ a) _ Hlen), (IH ts' ([] ++ a) _ Hlen). simpl.
    now rewrite app_assoc, append_nil_l, append_assoc. }
  assert (Hplain : ∀ ts' piece, length ts' ≤ n →
            tokensLoop ts' addrs (hash0 +:+ piece)
            = {| addresses := addrs ++ addresses (tokensLoop ts' [] ("" +:+ piece));
                 hash := hash0 +:+ hash (tokensLoop ts' [] ("" +:+ piece)) |}).
  { intros ts' piece Hlen.
    pose proof (Hstep ts' [] piece Hlen) as H. now rewrite !app_nil_r in H. }
  destruct (isNamed "RelativeCell" t).
  - destruct ts as [|t1 [|t2 ts']].
    + apply Hstep. simpl; lia.
    + apply Hstep. simpl in *; lia.
    + destruct (isNamed "RangeSeparator" t1 && isNamed "RelativeCell" t2);
        apply Hstep; simpl in *; lia.
  - apply Hplain. lia.
Qed.

Lemma tokensLoop_instantiate (n : nat) :
  ∀ (ts : list IToken) (addrs : list string) (hash0 pre : string),
    length ts ≤ n → forallb spelled ts = true →
    instantiate hash0 addrs = Some pre →
    instantiate (hash (tokensLoop ts addrs hash0))
      (addresses (tokensLoop ts addrs hash0))
    = Some (pre +:+ textOf ts).
Proof.
  induction n as [|n IH]; intros ts addrs hash0 pre Hn Hsp Hinst.
  { destruct ts; [ | simpl in Hn; lia]. simpl. now rewrite append_nil_r. }
  destruct ts as [|t ts]; [simpl; now rewrite append_nil_r | ].
  simpl in Hn. simpl in Hsp. apply andb_prop in Hsp as [Ht Hts].
  cbn [tokensLoop textOf]. unfold concat.
  assert (Hone : instantiate
                   (hash (tokensLoop ts (addrs ++ [image t]) (hash0 +:+ "#")))
                   (addresses (tokensLoop ts (addrs ++ [image t]) (hash0 +:+ "#")))
                 = Some (pre +:+ image t +:+ textOf ts)).
  { rewrite <- append_assoc. apply IH; [lia | exact Hts | ].
    now apply instantiate_cell. }
  destruct (isNamed "RelativeCell" t) eqn:Hcell.
  - destruct ts as [|t1 [|t2 ts']]; [exact Hone | exact Hone | ].
    destruct (isNamed "RangeSeparator" t1 && isNamed "RelativeCell" t2) eqn:Hr;
      [ | exact Hone].
    apply andb_prop in Hr as [Hsep Hc2].
    simpl in Hts. apply andb_prop in Hts as [Ht1 Hts].
    apply andb_prop in Hts as [_ Hts].
    unfold spelled in Ht1. rewrite Hsep in Ht1.
    assert (Himg : image t1 = ":").
    { apply String.eqb_eq.
      destruct (isNamed "RelativeCell" t1) eqn:Hc1; simpl in Ht1.
      - unfold isNamed in Hc1, Hsep. apply String.eqb_eq in Hc1, Hsep.
        rewrite Hc1 in Hsep. discriminate.
      - now apply andb_prop in Ht1 as [_ Ht1]. }
    cbn [textOf]. rewrite Himg.
    replace (pre +:+ image t +:+ ":" +:+ image t2 +:+ textOf ts')
      with ((pre +:+ (image t +:+ ":" +:+ image t2)) +:+ textOf ts')
      by now rewrite !append_assoc.
    apply IH; [simpl in *; lia | exact Hts | ].
    now apply instantiate_cell.
  - rewrite <- append_assoc. apply IH; [lia | exact Hts | ].
    apply instantiate_copy; [exact Hinst | ].
    unfold spelled in Ht. rewrite Hcell in Ht. simpl in Ht.
    now apply andb_prop in Ht as [Ht _].
Qed.

(** X2: in the token-driven mode the hash and the addresses keep the
    images of the tokens. For a stream in which no token other than a
    relative cell holds the character [#] and every range separator is
    spelled [:], replacing the placeholders of the hash by the addresses
    gives the images of the tokens, one after the other. *)
Theorem token_hash_reads_back (tokens0 : list IToken) :
  forallb spelled tokens0 = true →
  instantiate (hash (computeHashAndExtractAddresses tokens0))
    (addresses (computeHashAndExtractAddresses tokens0))
  = Some (textOf tokens0).
Proof.
  intros Hsp.
  pose proof (tokensLoop_instantiate _ tokens0 [] "" "" (le_n _) Hsp eq_refl) as H.
  now rewrite append_nil_l in H.
Qed.

Lemma token_hash_reads_back_witness :
  forallb spelled exampleTokens1 = true
  ∧ instantiate "=#+SUM(#)" ["A1"; "B2:C3"] = Some "=A1+SUM(B2:C3)".
Proof.
  split; [reflexivity | ]. exact (token_hash_reads_back exampleTokens1 eq_refl).
Defined.

Lemma closed_cons (t : IToken) (ts : list IToken) :
  ts ≠ [] → closed (t :: ts) = closed ts.
Proof. unfold closed. destruct ts; [congruence | reflexivity]. Qed.

Lemma tokensLoop_app (n : nat) :
  ∀ (ts1 ts2 : list IToken) (addrs : list string) (hash0 : string),
    length ts1 ≤ n → closed ts1 = true →
    tokensLoop (ts1 ++ ts2) addrs hash0
    = tokensLoop ts2 (addresses (tokensLoop ts1 addrs hash0))
        (hash (tokensLoop ts1 addrs hash0)).
Proof.
  induction n as [|n IH]; intros ts1 ts2 addrs hash0 Hn Hcl.
  { destruct ts1; [reflexivity | simpl in Hn; lia]. }
  destruct ts1 as [|t ts1]; [reflexivity | ].
  simpl in Hn. rewrite <- app_comm_cons. cbn [tokensLoop].
  destruct (isNamed "RelativeCell" t) eqn:Hcell.
  - destruct ts1 as [|t1 ts1].
    { unfold closed in Hcl. simpl in Hcl. now rewrite Hcell in Hcl. }
    rewrite closed_cons in Hcl by discriminate.
    destruct ts1 as [|t2 ts1].
    + assert (Hsep : isNamed "RangeSeparator" t1 = false).
      { unfold closed in Hcl. simpl in Hcl.
        apply andb_prop in Hcl as [_ Hcl]. now apply negb_true_iff in Hcl. }
      assert (Hgo : tokensLoop (t1 :: ts2) (addrs ++ [image t]) (concat hash0 "#")
                    = tokensLoop ts2
                        (addresses (tokensLoop [t1] (addrs ++ [image t]) (concat hash0 "#")))
                        (hash (tokensLoop [t1] (addrs ++ [image t]) (concat hash0 "#")))).
      { apply (IH [t1] ts2); [simpl in *; lia | exact Hcl]. }
      simpl app. destruct ts2 as [|u ts2]; [exact Hgo | ].
      rewrite Hsep. exact Hgo.
    + rewrite <- !app_comm_cons.
      destruct (isNamed "RangeSeparator" t1 && isNamed "RelativeCell" t2) eqn:Hr.
      * apply IH; [simpl in *; lia | ].
        destruct ts1 as [|t3 ts1].
        -- apply andb_prop in Hr as [_ Hr].
           unfold closed in Hcl. simpl in Hcl. now rewrite Hr in Hcl.
        -- now rewrite !closed_cons in Hcl by discriminate.
      * apply (IH (t1 :: t2 :: ts1) ts2); [simpl in *; lia | exact Hcl].
  - destruct ts1 as [|t1 ts1]; [reflexivity | ].
    rewrite closed_cons in Hcl by discriminate.
    apply (IH (t1 :: ts1) ts2); [simpl in *; lia | exact Hcl].
Qed.

(** X6: the token-driven hash of two streams put together is the two
    hashes put together, and likewise the addresses, as long as the first
    stream does not end in a relative cell or a range separator (where a
    range could run across the cut). *)
Theorem token_hash_of_append (tokens1 tokens2 : list IToken) :
  closed tokens1 = true →
  computeHashAndExtractAddresses (tokens1 ++ tokens2)
  = {| addresses := addresses (computeHashAndExtractAddresses tokens1)
                    ++ addresses (computeHashAndExtractAddresses tokens2);
       hash := hash (computeHashAndExtractAddresses tokens1)
               +:+ hash (computeHashAndExtractAddresses tokens2) |}.
Proof.
  intros Hcl. unfold computeHashAndExtractAddresses at 1.
  rewrite (tokensLoop_app _ _ _ _ _ (le_n _) Hcl).
  apply (tokensLoop_acc _ _ _ _ (le_n _)).
Qed.

(** *** The cache over several calls of [parse] *)

Section CacheInvariants.

Context {TemplateAst : Type} (fp : FormulaParser TemplateAst).

(** A [parse] that returns was a hit or a miss. *)
Lemma parse_cases (text : string) (this this' : Parser)
    (heap heap' : list TemplateAst) (r : Ast) :
  parse fp text this heap = Returns (r, this', heap') →
  ∃ h, hashOf fp this text = Returns h ∧ astAddresses r = addresses h
    ∧ ((cache this !! hash h = Some (ast r) ∧ this' = cacheUsed this
        ∧ heap' = heap)
       ∨ (cache this !! hash h = None ∧ ast r = length heap
          ∧ this' = cacheSet (hash h) (length heap) this
          ∧ heap' = heap ++ [built fp this text])).
Proof.
  intros Hp. destruct (hashOf fp this text) as [h|e] eqn:Hh.
  - exists h. split; [reflexivity | ].
    rewrite (parse_returns _ _ _ _ _ Hh) in Hp.
    destruct (cache this !! hash h) as [cachedAst|] eqn:Hc;
      injection Hp as <- <- <-; (split; [reflexivity | ]);
      [left | right]; auto.
  - rewrite (parse_throws _ _ _ _ _ Hh) in Hp. discriminate.
Qed.

Lemma parse_keeps (text : string) (this this' : Parser)
    (heap heap' : list TemplateAst) (r : Ast) :
  parse fp text this heap = Returns (r, this', heap') →
  cache this ⊆ cache this' ∧ heap `prefix_of` heap'
  ∧ optimizationMode this' = optimizationMode this.
Proof.
  intros Hp. destruct (parse_cases _ _ _ _ _ _ Hp) as (h & _ & _ & Hcase).
  destruct Hcase as [(_ & -> & ->) | (Hnone & _ & -> & ->)].
  - split; [reflexivity | split; reflexivity].
  - split; [now apply insert_subseteq | split; [now apply prefix_app_r | reflexivity]].
Qed.

Lemma parse_valid (text : string) (this this' : Parser)
    (heap heap' : list TemplateAst) (r : Ast) :
  cacheValid this heap → cacheInjective this →
  parse fp text this heap = Returns (r, this', heap') →
  cacheValid this' heap' ∧ cacheInjective this' ∧ ast r < length heap'.
Proof.
  intros Hv Hi Hp. destruct (parse_cases _ _ _ _ _ _ Hp) as (h & _ & _ & Hcase).
  destruct Hcase as [(Hc & -> & ->) | (Hnone & Hr & -> & ->)].
  - split; [exact Hv | split; [exact Hi | exact (Hv _ _ Hc)]].
  - rewrite Hr, length_app. simpl. split; [ | split; [ | lia]].
    + intros k ref. rewrite length_app. simpl.
      destruct (decide (k = hash h)) as [->|Hk].
      * rewrite lookup_insert_eq. intros [= <-]. lia.
      * rewrite lookup_insert_ne by congruence. intros Hk'.
        pose proof (Hv _ _ Hk'). lia.
    + intros k1 k2 ref. simpl.
      destruct (decide (k1 = hash h)) as [->|Hk1];
        destruct (decide (k2 = hash h)) as [->|Hk2]; [reflexivity | | | ].
      * rewrite lookup_insert_eq, lookup_insert_ne by congruence.
        intros [= <-] H2. pose proof (Hv _ _ H2). lia.
      * rewrite lookup_insert_eq, lookup_insert_ne by congruence.
        intros H1 [= <-]. pose proof (Hv _ _ H1). lia.
      * rewrite !lookup_insert_ne by congruence. apply Hi.
Qed.

Lemma parseAll_cons (text : string) (rest : list string) (this this'' : Parser)
    (heap heap'' : list TemplateAst) (rs : list Ast) :
  parseAll fp (text :: rest) this heap = Returns (rs, this'', heap'') →
  ∃ r rs' this' heap',
    rs = r :: rs' ∧ parse fp text this heap = Returns (r, this', heap')
    ∧ parseAll fp rest this' heap' = Returns (rs', this'', heap'').
Proof.
  simpl. destruct (parse fp text this heap) as [[[r this'] heap']|e];
    [ | discriminate].
  destruct (parseAll fp rest this' heap') as [[[rs' this2] heap2]|e] eqn:Hrest;
    [ | discriminate].
  intros [= <- <- <-]. exists r, rs', this', heap'.
  split; [reflexivity | split; [reflexivity | exact Hrest]].
Qed.

Lemma parseAll_valid (texts : list string) :
  ∀ (this this' : Parser) (heap heap' : list TemplateAst) (rs : list Ast),
    cacheValid this heap → cacheInjective this →
    parseAll fp texts this heap = Returns (rs, this', heap') →
    cacheInjective this'
    ∧ cache this ⊆ cache this'
    ∧ optimizationMode this' = optimizationMode this
    ∧ Forall2 (λ text r, ∃ h, hashOf fp this text = Returns h
                           ∧ cache this' !! hash h = Some (ast r)) texts rs.
Proof.
  induction texts as [|text rest IH]; intros this this'' heap heap'' rs Hv Hi Hp.
  - injection Hp as <- <- <-.
    split; [exact Hi | split; [reflexivity | split; [reflexivity | constructor]]].
  - destruct (parseAll_cons _ _ _ _ _ _ _ Hp)
      as (r & rs' & this' & heap' & -> & Hp1 & Hp2).
    destruct (parse_valid _ _ _ _ _ _ Hv Hi Hp1) as (Hv' & Hi' & _).
    destruct (parse_keeps _ _ _ _ _ _ Hp1) as (Hsub & _ & Hmode).
    destruct (IH _ _ _ _ _ Hv' Hi' Hp2) as (Hi'' & Hsub' & Hmode' & Hall).
    split; [exact Hi'' | ]. split; [now transitivity (cache this') | ].
    split; [congruence | ].
    constructor.
    + destruct (parse_cases _ _ _ _ _ _ Hp1) as (h & Hh & _ & _).
      exists h. split; [exact Hh | ].
      destruct (parse_cached _ _ _ _ _ _ _ _ Hh Hp1) as [Hc _].
      exact (lookup_weaken _ _ _ _ Hc Hsub').
    + eapply Forall2_impl; [exact Hall | ].
      intros text' r' (h & Hh & Hc). exists h. split; [ | exact Hc].
      now rewrite <- (hashOf_mode fp _ _ _ Hmode).
Qed.

(** X7: [parse] never removes or overwrites a cache entry, never drops
    an AST that has been built, and never changes the mode of the parser. *)
Theorem parse_never_forgets (text : string) (this this' : Parser)
    (heap heap' : list TemplateAst) (r : Ast) :
  parse fp text this heap = Returns (r, this', heap') →
  cache this ⊆ cache this' ∧ heap `prefix_of` heap'
  ∧ optimizationMode this' = optimizationMode this.
Proof.
  intros Hp. destruct (parse_cases _ _ _ _ _ _ Hp) as (h & _ & _ & Hcase).
  destruct Hcase as [(_ & -> & ->) | (Hnone & _ & -> & ->)].
  - split; [reflexivity | split; reflexivity].
  - split; [exact (insert_subseteq _ _ _ Hnone) | ].
    split; [apply prefix_app_r; reflexivity | reflexivity].
Qed.

(** X9: parsing a text a second time returns the same result, the same
    AST object and equal addresses, from the cache: nothing is built, and the
    only change is one more cache hit counted. *)
Theorem parse_again (text : string) (this this1 : Parser)
    (heap heap1 : list TemplateAst) (r1 : Ast) :
  parse fp text this heap = Returns (r1, this1, heap1) →
  parse fp text this1 heap1 = Returns (r1, cacheUsed this1, heap1).
Proof.
  intros Hp. destruct (parse_cases _ _ _ _ _ _ Hp) as (h & Hh & Ha & _).
  destruct (parse_cached _ _ _ _ _ _ _ _ Hh Hp) as [Hc Hmode].
  rewrite <- (hashOf_mode fp _ _ text Hmode) in Hh.
  rewrite (parse_hit _ _ _ _ _ _ Hh Hc), <- Ha. now destruct r1.
Qed.

(** X10: every [parse] that returns either counts a cache hit or adds one
    entry to the cache and builds one AST, never both: after a run of
    calls, [statsCacheUsed] and the size of the cache have grown together
    by the number of calls, and the number of ASTs built by the number of
    new cache entries. *)
Theorem parseAll_hits_and_misses (texts : list string) :
  ∀ (this this' : Parser) (heap heap' : list TemplateAst) (rs : list Ast),
    parseAll fp texts this heap = Returns (rs, this', heap') →
    length rs = length texts
    ∧ statsCacheUsed this' + size (cache this')
      = statsCacheUsed this + size (cache this) + length texts
    ∧ length heap' + size (cache this) = length heap + size (cache this').
Proof.
  induction texts as [|text rest IH]; intros this this'' heap heap'' rs Hp.
  - injection Hp as <- <- <-. simpl. lia.
  - destruct (parseAll_cons _ _ _ _ _ _ _ Hp)
      as (r & rs' & this' & heap' & -> & Hp1 & Hp2).
    destruct (IH _ _ _ _ _ Hp2) as (Hlen & Hcount & Hheap).
    destruct (parse_cases _ _ _ _ _ _ Hp1) as (h & _ & _ & Hcase).
    destruct Hcase as [(_ & -> & ->) | (Hnone & _ & -> & ->)]; simpl in *.
    + lia.
    + rewrite map_size_insert_None in * by exact Hnone.
      rewrite length_app in *. simpl in *. lia.
Qed.

(** X11: after any run of calls of [parse] on one parser, two of the
    results hold the same AST object exactly when their texts have the same
    hash: the cache never hands one object out for two hashes. *)
Theorem same_ast_iff_same_hash (texts : list string) (this this' : Parser)
    (heap heap' : list TemplateAst) (rs : list Ast) (i j : nat)
    (text1 text2 : string) (r1 r2 : Ast) (h1 h2 : HashAndAddresses) :
  cacheValid this heap → cacheInjective this →
  parseAll fp texts this heap = Returns (rs, this', heap') →
  texts !! i = Some text1 → texts !! j = Some text2 →
  rs !! i = Some r1 → rs !! j = Some r2 →
  hashOf fp this text1 = Returns h1 → hashOf fp this text2 = Returns h2 →
  ast r1 = ast r2 ↔ hash h1 = hash h2.
Proof.
  intros Hv Hi Hp Ht1 Ht2 Hr1 Hr2 Hh1 Hh2.
  destruct (parseAll_valid _ _ _ _ _ _ Hv Hi Hp) as (Hi' & _ & _ & Hall).
  destruct (Forall2_lookup_lr _ _ _ _ _ _ Hall Ht1 Hr1) as (h1' & Hh1' & Hc1).
  destruct (Forall2_lookup_lr _ _ _ _ _ _ Hall Ht2 Hr2) as (h2' & Hh2' & Hc2).
  assert (h1' = h1) as -> by congruence.
  assert (h2' = h2) as -> by congruence.
  split.
  - intros Heq. rewrite Heq in Hc1. exact (Hi' _ _ _ Hc1 Hc2).
  - intros Heq. rewrite Heq in Hc1. congruence.
Qed.

(** X8: [parse] keeps the cache sound: when every cached reference is
    to an AST that has been built, and no AST is cached under two hashes,
    this is so after [parse] as well, and the AST returned has been built. *)
Theorem parse_keeps_cache_valid (text : string) (this this' : Parser)
    (heap heap' : list TemplateAst) (r : Ast) :
  cacheValid this heap → cacheInjective this →
  parse fp text this heap = Returns (r, this', heap') →
  cacheValid this' heap' ∧ cacheInjective this' ∧ is_Some (heap' !! ast r).
Proof.
  intros Hv Hi Hp. destruct (parse_valid _ _ _ _ _ _ Hv Hi Hp) as (Hv' & Hi' & Hr).
  split; [exact Hv' | split; [exact Hi' | now apply lookup_lt_is_Some]].
Qed.

End CacheInvariants.

Lemma constructor_valid {TemplateAst : Type} (mode : string) :
  cacheValid (TemplateAst := TemplateAst) (constructor mode) [].
Proof. intros k ref H. simpl in H. now rewrite lookup_empty in H. Qed.

Lemma constructor_injective (mode : string) : cacheInjective (constructor mode).
Proof. intros k1 k2 ref H. simpl in H. now rewrite lookup_empty in H. Qed.

Lemma token_hash_of_append_witness :
  closed [token "EqualsOp" "="; token "RelativeCell" "A1"; token "PlusOp" "+"]
  = true
  ∧ computeHashAndExtractAddresses
      ([token "EqualsOp" "="; token "RelativeCell" "A1"; token "PlusOp" "+"]
       ++ rangeTokens)
    = {| addresses := ["A1"] ++ ["A1:B2"]; hash := "=#+" +:+ "=#" |}.
Proof.
  split; [reflexivity | ].
  exact (token_hash_of_append
           [token "EqualsOp" "="; token "RelativeCell" "A1"; token "PlusOp" "+"]
           rangeTokens eq_refl).
Defined.

Lemma parse_never_forgets_witness :
  parse exampleParser "=A1" (constructor "parser") []
  = Returns ({| ast := 0; astAddresses := ["A1"] |},
             cacheSet "=#" 0 (constructor "parser"), ["=A1"])
  ∧ cache (constructor "parser") ⊆ cache (cacheSet "=#" 0 (constructor "parser"))
  ∧ [] `prefix_of` ["=A1"]
  ∧ optimizationMode (cacheSet "=#" 0 (constructor "parser"))
    = optimizationMode (constructor "parser").
Proof.
  split; [reflexivity | ].
  exact (parse_never_forgets exampleParser "=A1" (constructor "parser") _ [] _ _
           eq_refl).
Defined.

Lemma parse_again_witness :
  parse exampleParser "=A1" (constructor "parser") []
  = Returns ({| ast := 0; astAddresses := ["A1"] |},
             cacheSet "=#" 0 (constructor "parser"), ["=A1"])
  ∧ parse exampleParser "=A1" (cacheSet "=#" 0 (constructor "parser")) ["=A1"]
    = Returns ({| ast := 0; astAddresses := ["A1"] |},
               cacheUsed (cacheSet "=#" 0 (constructor "parser")), ["=A1"]).
Proof.
  split; [reflexivity | ].
  exact (parse_again exampleParser "=A1" (constructor "parser") _ [] _ _ eq_refl).
Defined.

Lemma exampleTexts_parsed :
  parseAll exampleParser exampleTexts (constructor "parser") []
  = Returns (exampleResults, exampleFinal, ["=A1"; "=A1+SUM(B2:C3)"]).
Proof. reflexivity. Defined.

Lemma parseAll_hits_and_misses_witness :
  length exampleResults = length exampleTexts
  ∧ statsCacheUsed exampleFinal + size (cache exampleFinal)
    = statsCacheUsed (constructor "parser") + size (cache (constructor "parser"))
      + length exampleTexts
  ∧ length ["=A1"; "=A1+SUM(B2:C3)"] + size (cache (constructor "parser"))
    = length ([] : list string) + size (cache exampleFinal).
Proof.
  exact (parseAll_hits_and_misses exampleParser exampleTexts
           (constructor "parser") _ [] _ _ exampleTexts_parsed).
Defined.

Lemma same_ast_iff_same_hash_witness :
  (ast {| ast := 0; astAddresses := ["A1"] |}
   = ast {| ast := 0; astAddresses := ["A1:B2"] |}
   ↔ hash {| addresses := ["A1"]; hash := "=#" |}
     = hash {| addresses := ["A1:B2"]; hash := "=#" |}).
Proof.
  exact (same_ast_iff_same_hash exampleParser exampleTexts
           (constructor "parser") _ [] _ _ 0 2 "=A1" "=A1:B2" _ _ _ _
           (constructor_valid "parser") (constructor_injective "parser")
           exampleTexts_parsed eq_refl eq_refl eq_refl eq_refl eq_refl eq_refl).
Defined.

Lemma parse_keeps_cache_valid_witness :
  parse exampleParser "=A1" (constructor "parser") []
  = Returns ({| ast := 0; astAddresses := ["A1"] |},
             cacheSet "=#" 0 (constructor "parser"), ["=A1"])
  ∧ cacheValid (cacheSet "=#" 0 (constructor "parser")) ["=A1"]
  ∧ cacheInjective (cacheSet "=#" 0 (constructor "parser"))
  ∧ is_Some (["=A1"] !! ast {| ast := 0; astAddresses := ["A1"] |}).
Proof.
  split; [reflexivity | ].
  exact (parse_keeps_cache_valid exampleParser "=A1" (constructor "parser") _
           [] _ _ (constructor_valid "parser") (constructor_injective "parser")
           eq_refl).
Defined.

(* ===================================================================== *)
(** ** The engine: what the operations call *)
(* ===================================================================== *)

Section EngineTraceFacts.

Import HandsOnEngine.
Import EngineTraces.

Context {W : Type} (handle : Handler W).

Ltac reply :=
  match goal with
  | |- context [handle ?c ?w] =>
      let x := fresh "x" in let e := fresh "e" in
      let w' := fresh "w" in let H := fresh "Hcall" in
      destruct (handle c w) as [[x|e] w'] eqn:H
  end.

#[local] Arguments after : simpl never.
#[local] Arguments Number : simpl never.
#[local] Arguments isMatrix : simpl never.
#[local] Arguments ParserWithCaching.isFormula : simpl never.
#[local] Arguments substr : simpl never.
#[local] Arguments String.eqb : simpl never.

Ltac follow := cbn; repeat (reply; cbn); unfold after; cbn.

Ltac units :=
  repeat match goal with
         | x : ?T |- _ =>
             let T' := eval cbn in T in
             match T' with unit => destruct x end
         end.

Ltac answered :=
  cbn; repeat (eexists; split; [first [eassumption | reflexivity] | ]);
  reflexivity.

Lemma whiteSpace_trimStart (n : nat) (s : string) :
  String.length s ≤ n → isStrWhiteSpace s = true → trimStart s = "".
Proof.
  revert s. induction n as [|n IH]; intros s Hn H.
  - destruct s; [reflexivity | simpl in Hn; lia].
  - destruct s as [|a s1]; [reflexivity | ].
    cbn [isStrWhiteSpace trimStart] in *.
    destruct (isWhiteSpace1 a); [apply IH; [simpl in Hn; lia | exact H] | ].
    destruct s1 as [|b s2]; [discriminate | ].
    destruct (isWhiteSpace2 a b); [apply IH; [simpl in Hn; lia | exact H] | ].
    destruct s2 as [|c s3]; [discriminate | ].
    destruct (isWhiteSpace3 a b c); [ | discriminate].
    apply IH; [simpl in Hn; lia | exact H].
Qed.

Lemma whiteSpace_Number (s : string) :
  isStrWhiteSpace s = true → Number s = NumberOf "".
Proof.
  intros H. unfold Number, trim.
  now rewrite (whiteSpace_trimStart (String.length s) s (le_n _) H).
Qed.

Lemma whiteSpace_first (c a : ascii) (s : string) :
  isStrWhiteSpace (String a s) = true →
  isWhiteSpace1 c = false → (∀ b, isWhiteSpace2 c b = false) →
  (∀ b d, isWhiteSpace3 c b d = false) →
  Ascii.eqb c a = false.
Proof.
  intros H H1 H2 H3. destruct (Ascii.eqb_spec c a) as [<-|]; [ | reflexivity].
  cbn [isStrWhiteSpace] in H. rewrite H1 in H.
  destruct s as [|b s2]; [discriminate | ]. rewrite H2 in H.
  destruct s2 as [|d s3]; [discriminate | ]. rewrite H3 in H. discriminate.
Qed.

Lemma whiteSpace_plain (s : string) :
  isStrWhiteSpace s = true →
  ParserWithCaching.isFormula s = false ∧ isMatrix s = false.
Proof.
  destruct s as [|a s]; [now split | ].
  intros H. unfold ParserWithCaching.isFormula, isMatrix. cbn [startsWith].
  split.
  - now rewrite (whiteSpace_first "=" a s H).
  - now rewrite (whiteSpace_first "{" a s H).
Qed.

(** X12: no cell of an array formula can be edited. On a cell whose
    vertex is a matrix vertex with a formula, [setCellContent] throws
    "Illegal operation" straight after [getCell], whatever the new
    content, a number included. *)
Theorem setCellContent_formula_matrix (w w1 : W) (id : nat)
    (address : SimpleCellAddress) (s : string) :
  handle (dependencyGraph_getCell address) w
  = (Returns (MatrixVertex id true), w1) →
  run handle (setCellContent address s) w
  = {| trace := [dependencyGraph_getCell address];
       outcome := Throws "Illegal operation"; world := w1 |}.
Proof.
  intros Hget. unfold setCellContent, setCellContentAt. cbn. rewrite Hget.
  reflexivity.
Qed.

(** X13: a text of white space only, not empty, is installed as a number.
    White space is what [Number] strips: the white space and the line
    terminators of ECMAScript, the ones beyond ASCII included. Such a text
    is neither a formula nor the empty string, and [Number] reads it as 0:
    whenever [setCellContent] returns for it on an ordinary cell, the calls
    after [getCell] are the six below, in this order; the value changed in
    the column index is the one [getCellValue] has answered, the value
    installed is the number of the empty literal and not the string, and
    the vertices recomputed are the ones [verticesToRecompute] has
    answered. *)
Theorem setCellContent_white_space (w w1 : W) (vertex0 : Vertex)
    (address : SimpleCellAddress) (s : string) :
  handle (dependencyGraph_getCell address) w = (Returns vertex0, w1) →
  isCellVertexOrNull vertex0 = true →
  s ≠ "" → isStrWhiteSpace s = true →
  let r := run handle (setCellContent address s) w in
  outcome r = Returns tt →
  ∃ oldValue vs,
    let script :=
      [reply (dependencyGraph_getCellValue address) oldValue;
       reply (dependencyGraph_setValueToCell address
                (RawNumber (NumberOf ""))) tt;
       reply (columnIndex_change oldValue (RawNumber (NumberOf "")) address)
         tt;
       reply dependencyGraph_verticesToRecompute vs;
       reply dependencyGraph_clearRecentlyChangedVertices tt;
       reply (evaluator_partialRun vs) tt] in
    answers handle w1 script (world r)
    ∧ trace r = dependencyGraph_getCell address :: map callOf script.
Proof.
  intros Hget Hcell Hs Hws r. subst r.
  assert (Hfirst : instanceofMatrixVertex vertex0 = false)
    by (now destruct vertex0).
  destruct (whiteSpace_plain _ Hws) as [Hf Hm].
  unfold setCellContent, setCellContentAt. cbn.
  rewrite Hget, Hfirst. cbn.
  rewrite Hm, Hcell, Hf, (whiteSpace_Number _ Hws).
  apply String.eqb_neq in Hs. rewrite Hs. cbn.
  follow; try discriminate. intros _. units.
  eexists _, _. split; [answered | reflexivity].
Qed.

(** X16: each of the five structural operations, when it returns, has
    ended with the three calls of [recomputeIfDependencyGraphNeedsIt]:
    [verticesToRecompute], [clearRecentlyChangedVertices] and [partialRun],
    the evaluator not having been called before. *)
Theorem structural_operations_recompute (w : W) (sheet0 from to : nat)
    (sourceLeftCorner destinationLeftCorner : SimpleCellAddress)
    (width0 height0 : nat) :
  (outcome (run handle (addRows sheet0 from to) w) = Returns tt →
   recomputed (run handle (addRows sheet0 from to) w))
  ∧ (outcome (run handle (removeRows sheet0 from to) w) = Returns tt →
     recomputed (run handle (removeRows sheet0 from to) w))
  ∧ (outcome (run handle (addColumns sheet0 from to) w) = Returns tt →
     recomputed (run handle (addColumns sheet0 from to) w))
  ∧ (outcome (run handle (removeColumns sheet0 from to) w) = Returns tt →
     recomputed (run handle (removeColumns sheet0 from to) w))
  ∧ (outcome (run handle (moveCells sourceLeftCorner width0 height0
                            destinationLeftCorner) w) = Returns tt →
     recomputed (run handle (moveCells sourceLeftCorner width0 height0
                               destinationLeftCorner) w)).
Proof.
  unfold addRows, removeRows, addColumns, removeColumns, moveCells, measure,
    recomputeIfDependencyGraphNeedsIt, recomputed.
  repeat apply conj; follow; try discriminate; intros _;
    first
      [ eexists [_; _; _], _; split; reflexivity
      | eexists [_; _; _; _], _; split; reflexivity
      | eexists [_; _; _; _; _], _; split; reflexivity ].
Qed.

(** X14: whenever [setCellContent] returns, whatever the vertex and the
    new content, its last call is [partialRun], and it is the only call to
    the evaluator. *)
Theorem setCellContent_recomputes_once (w : W) (address : SimpleCellAddress)
    (s : string) :
  let r := run handle (setCellContent address s) w in
  outcome r = Returns tt →
  ∃ calls vs,
    trace r = calls ++ [evaluator_partialRun vs]
    ∧ existsb isPartialRun calls = false.
Proof.
  intros r. subst r. unfold setCellContent, setCellContentAt. cbn.
  reply; cbn; [ | discriminate].
  destruct x as [id|id| |id formula|id| ]; try destruct formula; cbn;
    destruct (isNaN (Number s)); destruct (isMatrix s);
    destruct (ParserWithCaching.isFormula s); destruct (String.eqb s "");
    follow; try discriminate;
    try match goal with
        | built : result (buildMatrixVertex _ _) |- _ =>
            destruct built as [[] []]; follow; try discriminate
        end;
    intros _;
    first
      [ eexists [_], _; split; reflexivity
      | eexists [_; _], _; split; reflexivity
      | eexists [_; _; _], _; split; reflexivity
      | eexists [_; _; _; _], _; split; reflexivity
      | eexists [_; _; _; _; _], _; split; reflexivity
      | eexists [_; _; _; _; _; _], _; split; reflexivity ].
Qed.

(** X17: [addRows], [removeRows] and [moveCells] never call the column
    index, whatever the collaborators answer: rows that are added or
    removed and cells that are moved leave it as it was. *)
Theorem rows_and_moves_skip_column_index (w : W) (sheet0 from to : nat)
    (sourceLeftCorner destinationLeftCorner : SimpleCellAddress)
    (width0 height0 : nat) :
  existsb onColumnIndex (trace (run handle (addRows sheet0 from to) w)) = false
  ∧ existsb onColumnIndex (trace (run handle (removeRows sheet0 from to) w))
    = false
  ∧ existsb onColumnIndex
      (trace (run handle (moveCells sourceLeftCorner width0 height0
                            destinationLeftCorner) w)) = false.
Proof.
  unfold addRows, removeRows, moveCells, measure,
    recomputeIfDependencyGraphNeedsIt.
  repeat apply conj; follow; reflexivity.
Qed.

(** X15: [setCellContent] with a formula or an array formula never calls
    the column index: the value the cell held before is neither removed
    from it nor changed in it. *)
Theorem formula_text_skips_column_index (w : W) (address : SimpleCellAddress)
    (s : string) :
  ParserWithCaching.isFormula s = true ∨ isMatrix s = true →
  existsb onColumnIndex (trace (run handle (setCellContent address s) w))
  = false.
Proof.
  intros Hs.
  assert (Hcase : (ParserWithCaching.isFormula s = true ∧ isMatrix s = false)
                  ∨ isMatrix s = true).
  { destruct Hs as [Hf|Hm]; [left | now right].
    split; [exact Hf | ].
    unfold ParserWithCaching.isFormula, isMatrix in *.
    destruct s as [|c s]; cbn [startsWith] in *; [discriminate | ].
    destruct (Ascii.eqb_spec "=" c) as [<-|]; [reflexivity | discriminate]. }
  unfold setCellContent, setCellContentAt. cbn.
  reply; cbn; [ | reflexivity].
  destruct Hcase as [[Hf Hm]|Hm]; rewrite ?Hf, Hm;
    destruct x as [id|id| |id formula|id| ]; try destruct formula; cbn;
    destruct (isNaN (Number s)); cbn;
    follow; try reflexivity;
    try match goal with
        | built : result (buildMatrixVertex _ _) |- _ => destruct built as [[] []]; follow; reflexivity
        end.
Qed.


End EngineTraceFacts.

Section EngineTraceExamples.

Import HandsOnEngine.
Import EngineTraces.

Lemma setCellContent_formula_matrix_witness :
  exampleHandler (dependencyGraph_getCell A1) formulaMatrixWorld
  = (Returns (MatrixVertex 8 true), formulaMatrixWorld)
  ∧ run exampleHandler (setCellContent A1 "3") formulaMatrixWorld
    = {| trace := [dependencyGraph_getCell A1];
         outcome := Throws "Illegal operation"; world := formulaMatrixWorld |}.
Proof.
  split; [reflexivity | ].
  exact (setCellContent_formula_matrix exampleHandler formulaMatrixWorld
           formulaMatrixWorld 8 A1 "3" eq_refl).
Defined.

Lemma white_space_is_not_empty : (" " +:+ noBreakSpace +:+ emSpace)%string ≠ "".
Proof. discriminate. Qed.

Lemma setCellContent_white_space_witness :
  let s := (" " +:+ noBreakSpace +:+ emSpace)%string in
  fst (exampleHandler (dependencyGraph_getCell A1) emptyWorld) = Returns null
  ∧ isCellVertexOrNull null = true ∧ isStrWhiteSpace s = true
  ∧ outcome (run exampleHandler (setCellContent A1 s) emptyWorld) = Returns tt
  ∧ ∃ oldValue vs,
      let script :=
        [reply (dependencyGraph_getCellValue A1) oldValue;
         reply (dependencyGraph_setValueToCell A1 (RawNumber (NumberOf "")))
           tt;
         reply (columnIndex_change oldValue (RawNumber (NumberOf "")) A1) tt;
         reply dependencyGraph_verticesToRecompute vs;
         reply dependencyGraph_clearRecentlyChangedVertices tt;
         reply (evaluator_partialRun vs) tt] in
      answers exampleHandler emptyWorld script
        (world (run exampleHandler (setCellContent A1 s) emptyWorld))
      ∧ trace (run exampleHandler (setCellContent A1 s) emptyWorld)
        = dependencyGraph_getCell A1 :: map callOf script.
Proof.
  split; [reflexivity | split; [reflexivity | split; [reflexivity | ]]].
  split; [reflexivity | ].
  exact (setCellContent_white_space exampleHandler emptyWorld emptyWorld null
           A1 (" " +:+ noBreakSpace +:+ emSpace)%string eq_refl eq_refl
           white_space_is_not_empty eq_refl eq_refl).
Defined.

Lemma setCellContent_recomputes_once_witness :
  outcome (run exampleHandler (setCellContent A1 "=A1+1") emptyWorld)
  = Returns tt
  ∧ ∃ calls vs,
      trace (run exampleHandler (setCellContent A1 "=A1+1") emptyWorld)
      = calls ++ [evaluator_partialRun vs]
      ∧ existsb isPartialRun calls = false.
Proof.
  split; [reflexivity | ].
  exact (setCellContent_recomputes_once exampleHandler emptyWorld A1 "=A1+1"
           eq_refl).
Defined.

Lemma formula_text_skips_column_index_witness :
  ParserWithCaching.isFormula "=A1+1" = true
  ∧ existsb onColumnIndex
      (trace (run exampleHandler (setCellContent E1 "=A1+1") matrixWorld))
    = false.
Proof.
  split; [reflexivity | ].
  exact (formula_text_skips_column_index exampleHandler matrixWorld E1 "=A1+1"
           (or_introl eq_refl)).
Defined.


End EngineTraceExamples.

(* ===================================================================== *)
(** ** The engine: the reading methods *)
(* ===================================================================== *)

Section ReadingFacts.

Import HandsOnEngine.
Import EngineQueries.

Context {W : Type} (handle : Reader W).

Lemma runs_bind {A B : Type} (p : Read A) (k : A → Read B) :
  ∀ (w w1 w2 : W) (qs qs' : list Query) (a : A) (b : B),
    runs handle p w qs a w1 → runs handle (k a) w1 qs' b w2 →
    runs handle (p ≫= k) w (qs ++ qs') b w2.
Proof.
  unfold runs.
  induction p as [a0|e|q k0 IH]; intros w w1 w2 qs qs' a b Hp Hk.
  - injection Hp as <- <- <-. exact Hk.
  - discriminate.
  - cbn in *. destruct (handle q w) as [[x|e] w'] eqn:Hq; [ | discriminate].
    destruct (runRead handle (k0 x) w') as [qs0 r0 w0] eqn:Hr.
    unfold asking in Hp. cbn in Hp. injection Hp as <- -> ->.
    change (runRead handle (bindRead (k0 x) k) w') with
      (runRead handle (k0 x ≫= k) w').
    rewrite (IH x _ _ _ _ _ _ _ Hr Hk). reflexivity.
Qed.

Lemma runs_ask (q : Query) (w w' : W) (x : answer q) :
  handle q w = (Returns x, w') → runs handle (ask q) w [q] x w'.
Proof. intros H. unfold runs. cbn. now rewrite H. Qed.

Lemma runs_ask_bind {B : Type} (q : Query) (k : answer q → Read B)
    (w w1 w2 : W) (x : answer q) (qs : list Query) (b : B) :
  handle q w = (Returns x, w1) → runs handle (k x) w1 qs b w2 →
  runs handle (ask q ≫= k) w (q :: qs) b w2.
Proof.
  intros Hq Hk. exact (runs_bind _ _ _ _ _ _ _ _ _ (runs_ask _ _ _ _ Hq) Hk).
Qed.

Lemma runs_ret {A : Type} (a : A) (w : W) : runs handle (mret a) w [] a w.
Proof. reflexivity. Qed.

Lemma insert_middle {A : Type} (l1 l2 : list A) (x y : A) (i : nat) :
  i = length l1 → <[i := y]> (l1 ++ x :: l2) = l1 ++ y :: l2.
Proof.
  intros ->. rewrite insert_app_r_alt by lia. now rewrite Nat.sub_diag.
Qed.

Section Reading.

Context (w : W) (env : ∀ q : Query, answer q) (Hreads : reads handle w env).
Context (simpleCellAddress : nat → nat → nat → SimpleCellAddress).

(** *** [getValues] *)

Section Row.

Context (sheet sheetWidth i : nat).

Let cell (j : nat) : option CellValue :=
  Some (valueOf env (simpleCellAddress sheet j i)).

Let partialRow (j : nat) : Array CellValue :=
  (cell <$> seq 0 j) ++ replicate (sheetWidth - j) None.

Lemma partialRow_assign (j : nat) (v : CellValue) :
  j < sheetWidth → cell j = Some v →
  assign j v (partialRow j) = partialRow (S j).
Proof.
  intros Hj Hv. unfold assign, partialRow, Array. rewrite <- Hv.
  rewrite length_app, length_fmap, length_seq, length_replicate.
  destruct (Nat.ltb_spec j (j + (sheetWidth - j))) as [_|]; [ | lia].
  rewrite insert_app_r_alt by (rewrite length_fmap, length_seq; lia).
  rewrite length_fmap, length_seq, Nat.sub_diag.
  replace (sheetWidth - j) with (S (sheetWidth - S j)) by lia.
  rewrite seq_S, fmap_app, <- app_assoc. reflexivity.
Qed.

Lemma row_runs (count : nat) :
  ∀ (j : nat) (arr : Array (Array CellValue)),
    j + count = sheetWidth → arr !! i = Some (Some (partialRow j)) →
    runs handle
      (forLoop count j
         (fun j (arr : Array (Array CellValue)) =>
            let address := simpleCellAddress sheet j i in
            value ← ask (dependencyGraph_getCellValue address);
            assignIn i j value arr)
         arr)
      w
      ((fun j => dependencyGraph_getCellValue (simpleCellAddress sheet j i))
       <$> seq j count)
      (<[i := Some (partialRow sheetWidth)]> arr) w.
Proof.
  induction count as [|count IH]; intros j arr Hj Harr.
  - rewrite Nat.add_0_r in Hj. subst j. unfold runs, Array in *.
    now rewrite (list_insert_id _ _ _ Harr).
  - cbn [forLoop seq fmap list_fmap]. unfold Array in *.
    apply (runs_bind _ _ w w w
             [dependencyGraph_getCellValue (simpleCellAddress sheet j i)] _
             (<[i := Some (partialRow (S j))]> arr)).
    + eapply runs_ask_bind; [apply Hreads | ].
      cbn beta. unfold runs, assignIn, Array. rewrite Harr. cbn.
      erewrite partialRow_assign; [reflexivity | lia | reflexivity].
    + rewrite <- (list_insert_insert_eq arr i (Some (partialRow sheetWidth))
                    (Some (partialRow (S j)))).
      apply IH; [lia | ].
      apply list_lookup_insert_eq. now apply lookup_lt_Some in Harr.
Qed.

End Row.

Section Rows.

Context (sheet sheetHeight sheetWidth : nat).

Let rowOf (i : nat) : option (Array CellValue) :=
  Some ((fun j => Some (valueOf env (simpleCellAddress sheet j i)))
        <$> seq 0 sheetWidth).

Let partialRows (i : nat) : Array (Array CellValue) :=
  (rowOf <$> seq 0 i) ++ replicate (sheetHeight - i) None.

Lemma rows_run (count : nat) :
  ∀ i : nat,
    i + count = sheetHeight →
    runs handle
      (forLoop count i
         (fun i (arr : Array (Array CellValue)) =>
            let arr := assign i (newArray sheetWidth) arr in
            forLoop sheetWidth 0
              (fun j (arr : Array (Array CellValue)) =>
                 let address := simpleCellAddress sheet j i in
                 value ← ask (dependencyGraph_getCellValue address);
                 assignIn i j value arr)
              arr)
         (partialRows i))
      w
      (flat_map
         (fun i => (fun j => dependencyGraph_getCellValue
                               (simpleCellAddress sheet j i))
                   <$> seq 0 sheetWidth)
         (seq i count))
      (partialRows sheetHeight) w.
Proof.
  induction count as [|count IH]; intros i Hi.
  - rewrite Nat.add_0_r in Hi. now subst i.
  - cbn [forLoop seq flat_map].
    apply (runs_bind _ _ w w w _ _ (partialRows (S i))); [ | apply IH; lia].
    assert (Hassign : assign i (newArray sheetWidth) (partialRows i)
                      = (rowOf <$> seq 0 i)
                        ++ Some (newArray sheetWidth)
                           :: replicate (sheetHeight - S i) None).
    { unfold assign, partialRows, Array.
      rewrite length_app, length_fmap, length_seq, length_replicate.
      destruct (Nat.ltb_spec i (i + (sheetHeight - i))) as [_|]; [ | lia].
      rewrite insert_app_r_alt by (rewrite length_fmap, length_seq; lia).
      rewrite length_fmap, length_seq, Nat.sub_diag.
      now replace (sheetHeight - i) with (S (sheetHeight - S i)) by lia. }
    cbn zeta. rewrite Hassign.
    assert (Hlen : i = length (rowOf <$> seq 0 i))
      by (now rewrite length_fmap, length_seq).
    pose proof (row_runs sheet sheetWidth i sheetWidth 0
                  ((rowOf <$> seq 0 i)
                   ++ Some (newArray sheetWidth)
                      :: replicate (sheetHeight - S i) None) eq_refl) as Hrow.
    cbn [seq fmap list_fmap app] in Hrow. rewrite Nat.sub_0_r in Hrow.
    unfold runs in *.
    rewrite (Hrow (list_lookup_middle _ _ _ _ Hlen)).
    do 2 f_equal.
    rewrite Nat.sub_diag, app_nil_r, (insert_middle _ _ _ _ _ Hlen).
    unfold partialRows. rewrite seq_S, fmap_app, <- app_assoc. reflexivity.
Qed.

End Rows.

(** The table [getValues] builds. *)
Lemma getValues_runs (sheet : nat) :
  runs handle (getValues simpleCellAddress sheet) w
    (dependencyGraph_getSheetHeight sheet
     :: dependencyGraph_getSheetWidth sheet
     :: flat_map
          (fun i => (fun j => dependencyGraph_getCellValue
                                (simpleCellAddress sheet j i))
                    <$> seq 0 (widthOf env sheet))
          (seq 0 (heightOf env sheet)))
    ((fun i =>
        Some ((fun j => Some (valueOf env (simpleCellAddress sheet j i)))
              <$> seq 0 (widthOf env sheet)))
     <$> seq 0 (heightOf env sheet))
    w.
Proof.
  unfold getValues.
  eapply runs_ask_bind; [apply Hreads | ].
  eapply runs_ask_bind; [apply Hreads | ].
  pose proof (rows_run sheet (heightOf env sheet) (widthOf env sheet)
                (heightOf env sheet) 0 eq_refl) as H.
  cbn [seq fmap list_fmap app] in H.
  rewrite Nat.sub_0_r, Nat.sub_diag in H. cbn [replicate] in H.
  rewrite app_nil_r in H. exact H.
Qed.

Lemma getSheetDimensions_runs (sheetId : nat) :
  runs handle (getSheetDimensions sheetId) w
    [dependencyGraph_getSheetWidth sheetId;
     dependencyGraph_getSheetHeight sheetId]
    {| width := widthOf env sheetId; height := heightOf env sheetId |} w.
Proof.
  unfold getSheetDimensions.
  eapply runs_ask_bind; [apply Hreads | ].
  eapply runs_ask_bind; [apply Hreads | ].
  apply runs_ret.
Qed.

Lemma getCellValue_runs (stringAddress : string) :
  runs handle (getCellValue stringAddress) w
    [cellAddressFromString stringAddress;
     dependencyGraph_getCellValue (addressOf env stringAddress)]
    (valueOf env (addressOf env stringAddress)) w.
Proof.
  unfold getCellValue.
  eapply runs_ask_bind; [apply Hreads | ].
  exact (runs_ask (dependencyGraph_getCellValue (addressOf env stringAddress))
           w w _ (Hreads _)).
Qed.

(** *** [getSheetsDimensions] *)

Let entry (sheetName : string) : string * SheetDimensions :=
  (sheetName, {| width := widthOf env (idOf env sheetName);
                 height := heightOf env (idOf env sheetName) |}).

Lemma mapSet_new {V : Type} (key : string) (value : V) (map : Map V) :
  key ∉ map.*1 → mapSet key value map = map ++ [(key, value)].
Proof.
  induction map as [|[k v] map IH]; intros Hkey; [reflexivity | ].
  cbn in *. apply not_elem_of_cons in Hkey as [Hk Hrest].
  destruct (String.eqb_spec k key) as [->|_]; [congruence | ].
  now rewrite (IH Hrest).
Qed.

Lemma sheets_run (rest : list string) :
  ∀ done : list string,
    NoDup (done ++ rest) →
    runs handle
      (forOf rest
         (fun sheetName (sheetDimensions : Map SheetDimensions) =>
            sheetId ← ask (sheetMapping_fetch sheetName);
            width ← ask (dependencyGraph_getSheetWidth sheetId);
            height ← ask (dependencyGraph_getSheetHeight sheetId);
            mret (mapSet sheetName {| width := width; height := height |}
                    sheetDimensions))
         (entry <$> done))
      w
      (flat_map
         (fun sheetName =>
            [sheetMapping_fetch sheetName;
             dependencyGraph_getSheetWidth (idOf env sheetName);
             dependencyGraph_getSheetHeight (idOf env sheetName)])
         rest)
      (entry <$> (done ++ rest)) w.
Proof.
  induction rest as [|name rest IH]; intros done Hnodup.
  - rewrite app_nil_r. reflexivity.
  - cbn [forOf flat_map].
    apply (runs_bind _ _ w w w _ _ (entry <$> (done ++ [name]))).
    + eapply runs_ask_bind; [apply Hreads | ].
      eapply runs_ask_bind; [apply Hreads | ].
      eapply runs_ask_bind; [apply Hreads | ].
      unfold runs. cbn. do 2 f_equal.
      rewrite fmap_app. apply mapSet_new.
      rewrite <- list_fmap_compose.
      apply NoDup_app in Hnodup as (_ & Hnot & _).
      intros Hin. apply list_elem_of_fmap in Hin as (n & Hn & Hin).
      cbn in Hn. subst n. apply (Hnot _ Hin). now left.
    + replace (done ++ name :: rest) with ((done ++ [name]) ++ rest)
        by now rewrite <- app_assoc.
      apply IH. now rewrite <- app_assoc.
Qed.

Lemma getSheetsDimensions_runs :
  NoDup (namesOf env) →
  runs handle getSheetsDimensions w
    (sheetMapping_names
     :: flat_map
          (fun sheetName =>
             [sheetMapping_fetch sheetName;
              dependencyGraph_getSheetWidth (idOf env sheetName);
              dependencyGraph_getSheetHeight (idOf env sheetName)])
          (namesOf env))
    (entry <$> namesOf env) w.
Proof.
  intros Hnodup. unfold getSheetsDimensions.
  eapply runs_ask_bind; [apply Hreads | ].
  exact (sheets_run (namesOf env) [] Hnodup).
Qed.

End Reading.

(** X18: against a dependency graph that only reads, [getValues] asks
    for the height and then the width of the sheet, once each, then for the
    value of every cell, row by row, and returns an array with a row for
    every row of the sheet and, in row [i] at [j], the value of the cell in
    column [j] and row [i]; no slot is left empty. *)
Theorem getValues_table (w : W) (env : ∀ q : Query, answer q)
    (simpleCellAddress : nat → nat → nat → SimpleCellAddress) (sheet : nat) :
  reads handle w env →
  runRead handle (getValues simpleCellAddress sheet) w
  = {| asked :=
         dependencyGraph_getSheetHeight sheet
         :: dependencyGraph_getSheetWidth sheet
         :: flat_map
              (fun i => (fun j => dependencyGraph_getCellValue
                                    (simpleCellAddress sheet j i))
                        <$> seq 0 (widthOf env sheet))
              (seq 0 (heightOf env sheet));
       returned :=
         Returns
           ((fun i =>
               Some ((fun j => Some (valueOf env (simpleCellAddress sheet j i)))
                     <$> seq 0 (widthOf env sheet)))
            <$> seq 0 (heightOf env sheet));
       state := w |}.
Proof. intros Hreads. exact (getValues_runs w env Hreads simpleCellAddress sheet). Qed.

(** X19: [getValues] and [getCellValue] agree. Against a dependency graph
    that only reads, when [cellAddressFromString] resolves a string to the
    cell in column [j] and row [i] of a sheet, inside its dimensions, what
    [getCellValue] returns for the string is what [getValues] of the sheet
    holds in row [i] at [j]. *)
Theorem getValues_agrees_with_getCellValue (w : W)
    (env : ∀ q : Query, answer q)
    (simpleCellAddress : nat → nat → nat → SimpleCellAddress)
    (stringAddress : string) (sheet i j : nat) :
  reads handle w env →
  addressOf env stringAddress = simpleCellAddress sheet j i →
  i < heightOf env sheet → j < widthOf env sheet →
  ∃ value arr rowArray,
    returned (runRead handle (getCellValue stringAddress) w) = Returns value
    ∧ returned (runRead handle (getValues simpleCellAddress sheet) w)
      = Returns arr
    ∧ arr !! i = Some (Some rowArray) ∧ rowArray !! j = Some (Some value).
Proof.
  intros Hreads Haddress Hi Hj.
  pose proof (getValues_runs w env Hreads simpleCellAddress sheet) as Hv.
  pose proof (getCellValue_runs w env Hreads stringAddress) as Hc.
  unfold runs in *. rewrite Hv, Hc, Haddress. cbn [returned].
  eexists _, _, _. split; [reflexivity | split; [reflexivity | ]].
  unfold Array. split.
  - rewrite list_lookup_fmap, lookup_seq_lt by exact Hi. reflexivity.
  - rewrite list_lookup_fmap, lookup_seq_lt by exact Hj. reflexivity.
Qed.

(** X20: the array of [getValues] has the dimensions [getSheetDimensions]
    reports: as many rows as the height, each of them as long as the width
    and without an empty slot. *)
Theorem getValues_has_sheet_dimensions (w : W) (env : ∀ q : Query, answer q)
    (simpleCellAddress : nat → nat → nat → SimpleCellAddress) (sheet : nat) :
  reads handle w env →
  ∃ dimensions arr,
    returned (runRead handle (getSheetDimensions sheet) w) = Returns dimensions
    ∧ returned (runRead handle (getValues simpleCellAddress sheet) w)
      = Returns arr
    ∧ length arr = height dimensions
    ∧ Forall (fun slot => ∃ rowArray, slot = Some rowArray
                            ∧ length rowArray = width dimensions
                            ∧ Forall is_Some rowArray) arr.
Proof.
  intros Hreads.
  pose proof (getValues_runs w env Hreads simpleCellAddress sheet) as Hv.
  pose proof (getSheetDimensions_runs w env Hreads sheet) as Hd.
  unfold runs in *. rewrite Hv, Hd. cbn [returned].
  eexists _, _. split; [reflexivity | split; [reflexivity | ]].
  cbn [height width]. split.
  - now rewrite length_fmap, length_seq.
  - apply Forall_fmap, Forall_forall. intros i _. cbn.
    eexists. split; [reflexivity | ]. split.
    + now rewrite length_fmap, length_seq.
    + apply Forall_fmap, Forall_forall. intros j _. cbn. eauto.
Qed.

(** X21: against a dependency graph that only reads and whose sheet names
    are distinct, [getSheetsDimensions] returns one entry for every sheet
    name, in the order of [names()], with the width and height of the sheet
    the name is fetched to: what [getSheetDimensions] returns for that
    sheet. *)
Theorem getSheetsDimensions_lists_sheets (w : W) (env : ∀ q : Query, answer q) :
  reads handle w env → NoDup (namesOf env) →
  returned (runRead handle getSheetsDimensions w)
  = Returns
      ((fun sheetName =>
          (sheetName, {| width := widthOf env (idOf env sheetName);
                         height := heightOf env (idOf env sheetName) |}))
       <$> namesOf env)
  ∧ Forall
      (fun sheetName =>
         returned (runRead handle (getSheetDimensions (idOf env sheetName)) w)
         = Returns {| width := widthOf env (idOf env sheetName);
                      height := heightOf env (idOf env sheetName) |})
      (namesOf env).
Proof.
  intros Hreads Hnodup.
  pose proof (getSheetsDimensions_runs w env Hreads Hnodup) as Hs.
  unfold runs in Hs. rewrite Hs. split; [reflexivity | ].
  apply Forall_forall. intros name _.
  pose proof (getSheetDimensions_runs w env Hreads (idOf env name)) as Hd.
  unfold runs in Hd. now rewrite Hd.
Qed.

End ReadingFacts.

Section ReadingExamples.

Import HandsOnEngine.
Import EngineQueries.

Lemma exampleReader_reads : reads exampleReader tt exampleEnv.
Proof. intros q. reflexivity. Qed.

Lemma exampleNames_NoDup : NoDup (namesOf exampleEnv).
Proof.
  apply NoDup_cons. split; [ | apply NoDup_singleton].
  intros H. apply list_elem_of_singleton in H. discriminate H.
Qed.

Lemma getValues_table_witness :
  runRead exampleReader (getValues exampleAddress 0) tt
  = {| asked :=
         [dependencyGraph_getSheetHeight 0; dependencyGraph_getSheetWidth 0;
          dependencyGraph_getCellValue (exampleAddress 0 0 0);
          dependencyGraph_getCellValue (exampleAddress 0 1 0);
          dependencyGraph_getCellValue (exampleAddress 0 0 1);
          dependencyGraph_getCellValue (exampleAddress 0 1 1);
          dependencyGraph_getCellValue (exampleAddress 0 0 2);
          dependencyGraph_getCellValue (exampleAddress 0 1 2)];
       returned :=
         Returns
           [Some [Some (NumberValue (NumberOf "42")); Some (StringValue "a")];
            Some [Some EmptyValue; Some (BooleanValue true)];
            Some [Some (NumberValue (NumberOf "7"));
                  Some (ErrorValue "DIV_BY_ZERO")]];
       state := tt |}.
Proof.
  exact (getValues_table exampleReader tt exampleEnv exampleAddress 0
           exampleReader_reads).
Defined.

Lemma getValues_agrees_with_getCellValue_witness :
  addressOf exampleEnv "B2" = exampleAddress 0 1 1
  ∧ 1 < heightOf exampleEnv 0 ∧ 1 < widthOf exampleEnv 0
  ∧ ∃ value arr rowArray,
      returned (runRead exampleReader (getCellValue "B2") tt) = Returns value
      ∧ returned (runRead exampleReader (getValues exampleAddress 0) tt)
        = Returns arr
      ∧ arr !! 1 = Some (Some rowArray) ∧ rowArray !! 1 = Some (Some value).
Proof.
  split; [reflexivity | ].
  split; [exact (le_S 2 2 (le_n 2)) | ].
  split; [exact (le_n 2) | ].
  exact (getValues_agrees_with_getCellValue exampleReader tt exampleEnv
           exampleAddress "B2" 0 1 1 exampleReader_reads eq_refl
           (le_S 2 2 (le_n 2)) (le_n 2)).
Defined.

Lemma getValues_has_sheet_dimensions_witness :
  ∃ dimensions arr,
    returned (runRead exampleReader (getSheetDimensions 0) tt)
    = Returns dimensions
    ∧ returned (runRead exampleReader (getValues exampleAddress 0) tt)
      = Returns arr
    ∧ length arr = height dimensions
    ∧ Forall (fun slot => ∃ rowArray, slot = Some rowArray
                            ∧ length rowArray = width dimensions
                            ∧ Forall is_Some rowArray) arr.
Proof.
  exact (getValues_has_sheet_dimensions exampleReader tt exampleEnv
           exampleAddress 0 exampleReader_reads).
Defined.

Lemma getSheetsDimensions_lists_sheets_witness :
  returned (runRead exampleReader getSheetsDimensions tt)
  = Returns [("Sheet1", {| width := 2; height := 3 |});
             ("Sheet2", {| width := 0; height := 0 |})]
  ∧ Forall
      (fun sheetName =>
         returned (runRead exampleReader
                     (getSheetDimensions (idOf exampleEnv sheetName)) tt)
         = Returns {| width := widthOf exampleEnv (idOf exampleEnv sheetName);
                      height := heightOf exampleEnv (idOf exampleEnv sheetName) |})
      ["Sheet1"; "Sheet2"].
Proof.
  exact (getSheetsDimensions_lists_sheets exampleReader tt exampleEnv
           exampleReader_reads exampleNames_NoDup).
Defined.

End ReadingExamples.
